(** * NeuroLearn: the course progression engine, embedded in Rocq

    A shallow embedding of the course model (types.ts), of the roadmap,
    expansion and quiz generators of the generation service
    (geminiService.ts), of the course repository handlers of App.tsx, of the
    expansion handler of ProfileView.tsx and of the lesson handlers of
    CourseView.tsx, with the properties the specification states about them.
    The second part adds [cleanJson], the other generators, the
    clarification, the coding lab, the sidebar and the progress counters,
    what the application saves and restores, and the requests that are
    answered after the course has moved on, with properties of these and of
    the handlers together.

    Conventions.
    - A value decoded by [JSON.parse] is a [json]; a JavaScript value that may
      be [undefined] is a [jsval] ([None] is [undefined]).
    - A function that can throw returns a [result]; [Throw] carries the
      exception.
    - Arrays are lists, indexed with stdpp's lookup [l !! i]; an
      assignment through an index, [a[i].f = v], is [alter] at [i] after the
      check that [a[i]] is there (JavaScript throws a TypeError otherwise).
    - The handlers of CourseView copy the module array and then assign into
      the lesson objects the copy shares with the course: the course they
      pass to [updateCourse] is the course with the lesson at that position
      replaced, which is what the model builds.  Lesson objects are never
      shared between two positions (they come from [Array.map] or from
      [JSON.parse]).
    - A request that is answered later writes into the course of the render
      that sent it.  Module [Shared] keeps the lesson objects in a store and
      the requests with the course they hold, to follow that. *)

From Stdlib Require Import Ascii.
From stdpp Require Import base option list strings pretty gmap.

Open Scope string_scope.
Open Scope list_scope.
Open Scope nat_scope.

(** ** JavaScript values *)

#[local] Unset Elimination Schemes.
Inductive json : Type :=
  | JNull
  | JBool (b : bool)
  | JNum (n : Z)   (* of a number the code only tests whether it is zero *)
  | JStr (s : string)
  | JArr (items : list json)
  | JObj (fields : list (string * json)).
#[local] Set Elimination Schemes.

(** [None] is [undefined]. *)
Definition jsval : Type := option json.

Inductive Exn : Type :=
  | TypeError
  | Error (msg : string).

Inductive result (A : Type) : Type :=
  | Ok (a : A)
  | Throw (e : Exn).
Arguments Ok {A} a.
Arguments Throw {A} e.

#[global] Instance result_ret : MRet result := λ A, @Ok A.
#[global] Instance result_bind : MBind result := λ A B f r,
  match r with Ok a => f a | Throw e => Throw e end.

(** [try { body } catch (e) { handler }] *)
Definition try_catch {A} (body : result A) (handler : Exn → result A) : result A :=
  match body with Ok a => Ok a | Throw e => handler e end.

Definition is_ok {A} (r : result A) : bool :=
  match r with Ok _ => true | Throw _ => false end.

(** The last binding of a key wins, as in [JSON.parse]. *)
Fixpoint assoc_last (k : string) (fields : list (string * json)) : jsval :=
  match fields with
  | [] => None
  | (k', v) :: rest =>
      match assoc_last k rest with
      | Some w => Some w
      | None => if String.eqb k k' then Some v else None
      end
  end.

(** [v.k] for one of the keys the code reads ([modules], [data], [title],
    [description], [lessons], [questions], [options]): a TypeError on [null] and
    [undefined], the field of an object, [undefined] on anything else (no
    array, string, number or boolean has a property of these names). *)
Definition get_prop (v : jsval) (k : string) : result jsval :=
  match v with
  | None | Some JNull => Throw TypeError
  | Some (JObj fields) => Ok (assoc_last k fields)
  | Some _ => Ok None
  end.

(** JavaScript truthiness: what [||] and [if] test. *)
Definition truthy (v : jsval) : bool :=
  match v with
  | None | Some JNull => false
  | Some (JBool b) => b
  | Some (JNum n) => negb (Z.eqb n 0)
  | Some (JStr s) => negb (String.eqb s "")
  | Some (JArr _) | Some (JObj _) => true
  end.

(** [a || b] *)
Definition js_or (a b : jsval) : jsval := if truthy a then a else b.

Definition isArray (v : json) : bool :=
  match v with JArr _ => true | _ => false end.

(** [Array.prototype.map] with a callback that can throw: the elements are
    visited in order and the first exception ends the loop. *)
Fixpoint imapM_from {A B} (f : A → nat → result B) (i : nat) (l : list A)
  : result (list B) :=
  match l with
  | [] => Ok []
  | x :: rest =>
      y ← f x i;
      ys ← imapM_from f (S i) rest;
      mret (y :: ys)
  end.

(** [v.map(f)]: a TypeError unless [v] is an array ([undefined] has no
    properties; on any other decoded value [map] is not a function). *)
Definition js_map {B} (v : jsval) (f : json → nat → result B) : result (list B) :=
  match v with
  | Some (JArr items) => imapM_from f 0 items
  | _ => Throw TypeError
  end.

(** The truthiness of an optional string field of a lesson ([content],
    [imageUrl], [videoUrl]): absent and empty are both falsy. *)
Definition truthy_str (s : option string) : bool :=
  match s with
  | Some t => negb (String.eqb t "")
  | None => false
  end.

(** ** The course model (types.ts) *)

Inductive Status : Type := locked | unlocked | completed.

#[global] Instance Status_eq_dec : EqDecision Status.
Proof. solve_decision. Defined.

Record CodingChallenge : Type := {
  ch_id : string;
  ch_title : string;
  ch_description : string;
  starterCode : string;
  solutionReference : string;
  hint : string
}.

Module Lesson.
Record t : Type := mk {
  id : string;
  title : jsval;
  description : jsval;
  status : Status;
  content : option string;
  imageUrl : option string;
  videoUrl : option string;
  quiz : option (list json);
  codingChallenges : option (list CodingChallenge)
}.

Definition set_status (s : Status) (l : t) : t :=
  mk (id l) (title l) (description l) s (content l) (imageUrl l)
     (videoUrl l) (quiz l) (codingChallenges l).

Definition set_imageUrl (u : option string) (l : t) : t :=
  mk (id l) (title l) (description l) (status l) (content l) u
     (videoUrl l) (quiz l) (codingChallenges l).

(** The four assignments of [loadLesson] after a generation. *)
Definition set_generated (text : string) (q : list json)
    (cs : list CodingChallenge) (img : option string) (l : t) : t :=
  mk (id l) (title l) (description l) (status l) (Some text) img
     (videoUrl l) (Some q) (Some cs).
End Lesson.

Module Mod.
Record t : Type := mk {
  id : string;
  title : jsval;
  description : jsval;
  lessons : list Lesson.t
}.

Definition set_lessons (ls : list Lesson.t) (m : t) : t :=
  mk (id m) (title m) (description m) ls.
End Mod.

Module Course.
Record t : Type := mk {
  id : string;
  topic : string;
  modules : list Mod.t;
  currentModuleIndex : nat;
  currentLessonIndex : nat;
  createdAt : nat
}.

(** [{ ...course, modules: ms }] *)
Definition set_modules (ms : list Mod.t) (c : t) : t :=
  mk (id c) (topic c) ms (currentModuleIndex c) (currentLessonIndex c)
     (createdAt c).

(** [{ ...course, currentModuleIndex: m, currentLessonIndex: l }] *)
Definition set_current (m l : nat) (c : t) : t :=
  mk (id c) (topic c) (modules c) m l (createdAt c).
End Course.

(** [modules[m].lessons[l]], [None] where JavaScript reads [undefined] or
    throws on the way. *)
Definition lesson_at (ms : list Mod.t) (m l : nat) : option Lesson.t :=
  md ← ms !! m; Mod.lessons md !! l.

Definition status_at (ms : list Mod.t) (m l : nat) : option Status :=
  Lesson.status <$> lesson_at ms m l.

(** [course.modules[currentModuleIndex].lessons[currentLessonIndex]] *)
Definition activeLesson (c : Course.t) : option Lesson.t :=
  lesson_at (Course.modules c) (Course.currentModuleIndex c)
            (Course.currentLessonIndex c).

(** [modules[m].lessons[l].field = ...], as [f] on the lesson: a TypeError
    when the module or the lesson is not there. *)
Definition assign_lesson (f : Lesson.t → Lesson.t) (m l : nat)
    (ms : list Mod.t) : result (list Mod.t) :=
  match lesson_at ms m l with
  | Some _ => Ok (alter (λ md, Mod.set_lessons (alter f l (Mod.lessons md)) md) m ms)
  | None => Throw TypeError
  end.

(** ** The generation service (geminiService.ts) *)

(** What a call of [callMistral] followed by [JSON.parse(cleanJson(text))]
    comes to: the call is rejected (network or HTTP error), the text is not
    JSON, or a value is decoded. *)
Inductive Response : Type :=
  | Rejected
  | NotJson
  | Parsed (v : json).

Definition callMistral (r : Response) : result Response :=
  match r with
  | Rejected => Throw (Error "Mistral API Error")
  | _ => Ok r
  end.

Definition JSON_parse (r : Response) : result json :=
  match r with
  | Parsed v => Ok v
  | _ => Throw (Error "SyntaxError")
  end.

(** [Array.isArray(parsed) ? parsed : (parsed.modules || parsed.data)] *)
Definition unwrap_modules (parsed : json) : result jsval :=
  if isArray parsed then Ok (Some parsed)
  else
    ms ← get_prop (Some parsed) "modules";
    if truthy ms then Ok ms else get_prop (Some parsed) "data".

Definition lesson_id (mIdx lIdx : nat) : string :=
  "mod-" +:+ pretty mIdx +:+ "-less-" +:+ pretty lIdx.

Definition module_id (mIdx : nat) : string := "mod-" +:+ pretty mIdx.

(** The lesson literal of the two generators, its status apart. *)
Definition make_lesson (mIdx : nat) (st : nat → Status) (l : json) (lIdx : nat)
  : result Lesson.t :=
  t ← get_prop (Some l) "title";
  d ← get_prop (Some l) "description";
  mret (Lesson.mk (lesson_id mIdx lIdx) t d (st lIdx) None None None None None).

Definition make_module (offset : nat) (st : nat → nat → Status) (m : json) (mIdx : nat)
  : result Mod.t :=
  t ← get_prop (Some m) "title";
  d ← get_prop (Some m) "description";
  ls ← get_prop (Some m) "lessons";
  lessons ← js_map ls (make_lesson (offset + mIdx) (st mIdx));
  mret (Mod.mk (module_id (offset + mIdx)) t d lessons).

(** [(mIdx === 0 && lIdx === 0) ? 'unlocked' : 'locked'] *)
Definition roadmap_status (mIdx lIdx : nat) : Status :=
  if Nat.eqb mIdx 0 && Nat.eqb lIdx 0 then unlocked else locked.

Definition generateRoadmap (r : Response) : result (list Mod.t) :=
  text ← callMistral r;
  rawModules ← try_catch (parsed ← JSON_parse text; unwrap_modules parsed)
                 (λ _, Throw (Error "Failed to parse Mistral roadmap JSON"));
  js_map rawModules (make_module 0 roadmap_status).

Definition expandCourse (course : Course.t) (r : Response) : result (list Mod.t) :=
  text ← callMistral r;
  rawModules ← try_catch (parsed ← JSON_parse text; unwrap_modules parsed)
                 (λ _, Throw (Error "Failed to parse expansion"));
  let currentModuleCount := length (Course.modules course) in
  js_map rawModules (make_module currentModuleCount (λ _ _, locked)).

(** [generateQuiz]: the whole body is inside the [try]; the value returned
    is the decoded array, or [data.questions || []] as it is. *)
Definition generateQuiz (r : Response) : result json :=
  try_catch
    (text ← callMistral r;
     data ← JSON_parse text;
     if isArray data then Ok data
     else
       qs ← get_prop (Some data) "questions";
       Ok (default (JArr []) (js_or qs (Some (JArr [])))))
    (λ _, Ok (JArr [])).

(** ** The course repository (App.tsx) *)

Inductive AppState : Type :=
  INITIAL | CLARIFYING | GENERATING | LEARNING | CREATIVE | PROFILE.

Inductive Tab : Type := learn | create | profile.

Record ClarificationState : Type := {
  questions : list string;
  answers : list string;
  currentQuestionIndex : nat
}.

Module App.
Record t : Type := mk {
  appState : AppState;
  activeTab : Tab;
  topic : string;
  courses : list Course.t;
  activeCourseId : option string;
  clarification : ClarificationState
}.
End App.

(** [`course-${Date.now()}`] *)
Definition course_id (now : nat) : string := "course-" +:+ pretty now.

(** [handleClarificationAnswer].  [now1] and [now2] are the two readings of
    [Date.now()], [r] what the roadmap request comes to. *)
Definition handleClarificationAnswer (app : App.t) (answer : string)
    (r : Response) (now1 now2 : nat) : App.t :=
  let cl := App.clarification app in
  let nextAnswers := answers cl ++ [answer] in
  let nextIndex := currentQuestionIndex cl + 1 in
  let cl' := {| questions := questions cl; answers := nextAnswers;
                currentQuestionIndex := nextIndex |} in
  if Nat.leb (length (questions cl)) nextIndex then
    match generateRoadmap r with
    | Ok modules =>
        let newCourse :=
          Course.mk (course_id now1) (App.topic app) modules 0 0 now2 in
        App.mk LEARNING learn (App.topic app) (App.courses app ++ [newCourse])
               (Some (Course.id newCourse)) cl'
    | Throw _ =>
        App.mk INITIAL (App.activeTab app) (App.topic app) (App.courses app)
               (App.activeCourseId app) cl'
    end
  else
    App.mk (App.appState app) (App.activeTab app) (App.topic app)
           (App.courses app) (App.activeCourseId app) cl'.

(** [handleUpdateActiveCourse] *)
Definition handleUpdateActiveCourse (updated : Course.t) (cs : list Course.t)
  : list Course.t :=
  (λ c, if String.eqb (Course.id c) (Course.id updated) then updated else c) <$> cs.

(** [courses.find(c => c.id === activeCourseId)] *)
Definition find_course (i : string) (cs : list Course.t) : option Course.t :=
  snd <$> list_find (λ c, Course.id c = i) cs.

(** ** Course expansion (ProfileView.tsx) *)

(** [handleConfirmExpand] on the course of the dialog: the course handed to
    [onUpdateCourse], or nothing when the expansion throws. *)
Definition handleConfirmExpand (expandDialogCourse : Course.t) (r : Response)
  : option Course.t :=
  match expandCourse expandDialogCourse r with
  | Ok newModules =>
      Some (Course.set_modules (Course.modules expandDialogCourse ++ newModules)
              expandDialogCourse)
  | Throw _ => None
  end.

(** ** The lesson view (CourseView.tsx) *)

Inductive Stage : Type := READING | CHALLENGE | QUIZ.

#[global] Instance Stage_eq_dec : EqDecision Stage.
Proof. solve_decision. Defined.

(** The component state of [CourseViewContent] the handlers read and write.
    [quizAnswers] is a JavaScript array with holes: [None] is a hole. *)
Module View.
Record t : Type := mk {
  content : string;
  generatedImage : option string;
  quiz : list json;
  challenges : list CodingChallenge;
  viewStage : Stage;
  quizAnswers : list (option nat);
  quizSubmitted : bool
}.

(** The initial values of the [useState] calls. *)
Definition initial : t := mk "" None [] [] READING [] false.

Definition set_viewStage (st : Stage) (v : t) : t :=
  mk (content v) (generatedImage v) (quiz v) (challenges v) st
     (quizAnswers v) (quizSubmitted v).

Definition set_quizAnswers (a : list (option nat)) (v : t) : t :=
  mk (content v) (generatedImage v) (quiz v) (challenges v) (viewStage v)
     a (quizSubmitted v).

Definition set_quizSubmitted (b : bool) (v : t) : t :=
  mk (content v) (generatedImage v) (quiz v) (challenges v) (viewStage v)
     (quizAnswers v) b.
End View.

(** The four generators [loadLesson] calls. *)
Inductive Call : Type :=
  | CallLessonContent
  | CallQuiz
  | CallCodingChallenges
  | CallIllustration.

#[global] Instance Call_eq_dec : EqDecision Call.
Proof. solve_decision. Defined.

(** The generation gateway as the view sees it.  The first argument of each
    field is the number of gateway calls issued before this one, so that two
    calls with the same arguments may answer differently.
    [generateLessonContent] and [generateLessonIllustration] do not throw
    (each catches its errors); the quiz request is given by what
    [callMistral] answers, on which [generateQuiz] then runs. *)
Record Gateway : Type := {
  generateLessonContent : nat → string → jsval → jsval → string;
  quizResponse : nat → string → Response;
  generateCodingChallenges : nat → string → list CodingChallenge;
  generateLessonIllustration : nat → string → jsval → option string
}.

(** The questions of a quiz as the view holds them.  [generateQuiz] is
    declared to return an array; a decoded value that is no array cannot be
    rendered ([quiz.map] throws), so that no question of it can be answered:
    the model reads it as the quiz with no question. *)
Definition quiz_items (r : result json) : list json :=
  match r with
  | Ok (JArr items) => items
  | _ => []
  end.

(** [s || undefined], [s || null] on an optional string. *)
Definition or_absent (s : option string) : option string :=
  if truthy_str s then s else None.

(** [newAnswers[i] = x] on an array with holes: past the end the array grows. *)
Definition array_assign {A} (i : nat) (x : A) (l : list (option A))
  : list (option A) :=
  if decide (i < length l) then <[i := Some x]> l
  else l ++ replicate (i - length l) None ++ [Some x].

(** [quizAnswers.filter(a => a !== undefined).length] *)
Definition answered (a : list (option nat)) : nat := length (omap id a).

(** [quizAnswers[i]]: the answer recorded for question [i], if any. *)
Definition answer_of (v : View.t) (i : nat) : option nat :=
  View.quizAnswers v !! i ≫= id.

(** [isAllAnswered] *)
Definition isAllAnswered (v : View.t) : bool :=
  Nat.ltb 0 (length (View.quiz v))
  && Nat.eqb (answered (View.quizAnswers v)) (length (View.quiz v)).

(** [handleLessonSelect]: [Ok None] is the return on a locked target, without
    a call of [updateCourse]. *)
Definition handleLessonSelect (course : Course.t) (modIdx lessIdx : nat)
  : result (option Course.t) :=
  match lesson_at (Course.modules course) modIdx lessIdx with
  | None => Throw TypeError
  | Some targetLesson =>
      if decide (Lesson.status targetLesson = locked) then Ok None
      else Ok (Some (Course.set_current modIdx lessIdx course))
  end.

(** [markLessonCompleted]: the course passed to [updateCourse]. *)
Definition markLessonCompleted (course : Course.t) : result Course.t :=
  updatedModules ← assign_lesson (Lesson.set_status completed)
                     (Course.currentModuleIndex course)
                     (Course.currentLessonIndex course) (Course.modules course);
  mret (Course.set_modules updatedModules course).

(** [handleQuizAnswer] *)
Definition handleQuizAnswer (v : View.t) (qIndex optionIndex : nat) : View.t :=
  if View.quizSubmitted v then v
  else View.set_quizAnswers (array_assign qIndex optionIndex (View.quizAnswers v)) v.

(** The position [submitQuiz] and [moveToNextLesson] compute. *)
Definition next_position (ms : list Mod.t) (m l : nat) : result (nat * nat) :=
  match ms !! m with
  | None => Throw TypeError
  | Some md =>
      if Nat.leb (length (Mod.lessons md)) (l + 1) then Ok (m + 1, 0)
      else Ok (m, l + 1)
  end.

(** [nextModIdx < updatedModules.length &&
     nextLessIdx < updatedModules[nextModIdx].lessons.length] *)
Definition position_exists (ms : list Mod.t) (p : nat * nat) : bool :=
  match ms !! p.1 with
  | Some md => Nat.ltb p.2 (length (Mod.lessons md))
  | None => false
  end.

(** [submitQuiz]: the course passed to [updateCourse].  (The call of
    [setQuizSubmitted] is in [ui_step]; the set of unfolded sidebar modules
    is not modelled.) *)
Definition submitQuiz (course : Course.t) : result Course.t :=
  let m := Course.currentModuleIndex course in
  let l := Course.currentLessonIndex course in
  updatedModules ← assign_lesson (Lesson.set_status completed) m l
                     (Course.modules course);
  next ← next_position updatedModules m l;
  updatedModules' ←
    (if position_exists updatedModules next
     then assign_lesson (Lesson.set_status unlocked) next.1 next.2 updatedModules
     else Ok updatedModules);
  mret (Course.set_modules updatedModules' course).

(** [moveToNextLesson]: [Ok None] when no [updateCourse] is called. *)
Definition moveToNextLesson (course : Course.t) : result (option Course.t) :=
  next ← next_position (Course.modules course)
           (Course.currentModuleIndex course) (Course.currentLessonIndex course);
  if Nat.ltb next.1 (length (Course.modules course))
  then Ok (Some (Course.set_current next.1 next.2 course))
  else Ok None.

(** *** The mounted view and its events *)

(** A mounted [CourseViewContent]: the course it was handed, its own state,
    the value of [activeLesson?.id] the lesson effect last ran for, and the
    gateway calls issued so far (oldest first). *)
Module UI.
Record t : Type := mk {
  course : Course.t;
  view : View.t;
  depId : option string;
  calls : list Call
}.

Definition set_course (c : Course.t) (s : t) : t :=
  mk c (view s) (depId s) (calls s).
Definition set_view (v : View.t) (s : t) : t :=
  mk (course s) v (depId s) (calls s).
Definition set_depId (d : option string) (s : t) : t :=
  mk (course s) (view s) d (calls s).
End UI.

Definition activeModule (c : Course.t) : option Mod.t :=
  Course.modules c !! Course.currentModuleIndex c.

(** The course after an assignment into its current lesson and the
    [updateCourse] that follows; the course as it is when the assignment
    throws. *)
Definition update_active (f : Lesson.t → Lesson.t) (c : Course.t) : Course.t :=
  match assign_lesson f (Course.currentModuleIndex c)
          (Course.currentLessonIndex c) (Course.modules c) with
  | Ok ms => Course.set_modules ms c
  | Throw _ => c
  end.

(** [loadLesson].  The asynchronous body is run in one piece: the gateway
    answers before the next event of the view. *)
Definition loadLesson (gw : Gateway) (s : UI.t) : UI.t :=
  let course := UI.course s in
  match activeLesson course with
  | None => s
  | Some lesson =>
      let n := length (UI.calls s) in
      if truthy_str (Lesson.content lesson) then
        let v := View.mk (default "" (Lesson.content lesson))
                   (or_absent (Lesson.imageUrl lesson))
                   (default [] (Lesson.quiz lesson))
                   (default [] (Lesson.codingChallenges lesson))
                   READING [] false in
        if negb (truthy_str (Lesson.imageUrl lesson))
           && negb (truthy_str (Lesson.videoUrl lesson)) then
          let img := generateLessonIllustration gw n (Course.topic course)
                       (Lesson.title lesson) in
          let calls := UI.calls s ++ [CallIllustration] in
          if truthy_str img then
            UI.mk (update_active (Lesson.set_imageUrl img) course)
              (View.mk (View.content v) img (View.quiz v) (View.challenges v)
                 READING [] false)
              (UI.depId s) calls
          else UI.mk course v (UI.depId s) calls
        else UI.mk course v (UI.depId s) (UI.calls s)
      else
        let text := generateLessonContent gw n (Course.topic course)
                      (Lesson.title lesson)
                      (activeModule course ≫= Mod.title) in
        let quizData := quiz_items (generateQuiz (quizResponse gw (n + 1) text)) in
        let challengeData := generateCodingChallenges gw (n + 2) text in
        let imgData := generateLessonIllustration gw (n + 3) (Course.topic course)
                         (Lesson.title lesson) in
        UI.mk
          (update_active
             (Lesson.set_generated text quizData challengeData (or_absent imgData))
             course)
          (View.mk text imgData quizData challengeData READING [] false)
          (UI.depId s)
          (UI.calls s ++ [CallLessonContent; CallQuiz; CallCodingChallenges;
                          CallIllustration])
  end.

(** The view [loadLesson] builds from the fields cached on a lesson. *)
Definition cached_view (x : Lesson.t) : View.t :=
  View.mk (default "" (Lesson.content x)) (or_absent (Lesson.imageUrl x))
    (default [] (Lesson.quiz x)) (default [] (Lesson.codingChallenges x))
    READING [] false.

(** [activeLesson?.id], the dependency of the lesson effect. *)
Definition lesson_dep (c : Course.t) : option string :=
  Lesson.id <$> activeLesson c.

(** The body of the effect:
    [if (activeLesson && activeLesson.status !== 'locked') loadLesson()]. *)
Definition run_effect (gw : Gateway) (s : UI.t) : UI.t :=
  match activeLesson (UI.course s) with
  | Some lesson =>
      if decide (Lesson.status lesson = locked) then s else loadLesson gw s
  | None => s
  end.

(** After a render the effect runs when its dependency has changed. *)
Definition rerender (gw : Gateway) (s : UI.t) : UI.t :=
  let dep := lesson_dep (UI.course s) in
  if decide (dep = UI.depId s) then s
  else run_effect gw (UI.set_depId dep s).

(** The first render of the view over a course: the effect always runs. *)
Definition mount (gw : Gateway) (c : Course.t) (calls : list Call) : UI.t :=
  run_effect gw (UI.mk c View.initial (lesson_dep c) calls).

(** [q.options], the buttons rendered under a question. *)
Definition options_of (q : json) : list json :=
  match get_prop (Some q) "options" with
  | Ok (Some (JArr os)) => os
  | _ => []
  end.

(** The dependency recorded by the view is the id of its current lesson. *)
Definition consistent (s : UI.t) : Prop :=
  UI.depId s = lesson_dep (UI.course s).


(** No lesson of the course has a question cached. *)
Definition quiz_free (c : Course.t) : Prop :=
  ∀ m l x, lesson_at (Course.modules c) m l = Some x →
    default [] (Lesson.quiz x) = [].

(** A view that cannot submit a quiz: it shows no question, nothing is
    submitted, no lesson has a question cached, and the lessons singled out
    by [P] are locked and not current. *)
Definition stuck (P : nat → nat → Prop) (s : UI.t) : Prop :=
  View.quiz (UI.view s) = []
  ∧ View.quizSubmitted (UI.view s) = false
  ∧ quiz_free (UI.course s)
  ∧ ∀ m l, P m l →
      status_at (Course.modules (UI.course s)) m l = Some locked
      ∧ ¬ (Course.currentModuleIndex (UI.course s) = m
           ∧ Course.currentLessonIndex (UI.course s) = l).

(** What the user (or a timer) can do to the mounted view. *)
Inductive Event : Type :=
  | SelectLesson (mIdx lIdx : nat)  (* a lesson button of the sidebar *)
  | SkipToPractice                  (* READING: skip and mark completed *)
  | GoToPractice                    (* READING: on to the challenges *)
  | BackToTheory                    (* CHALLENGE: back to the text *)
  | GoToQuiz                        (* CHALLENGE without challenges: on to the quiz *)
  | LabComplete                     (* the timer CodingLab sets once all challenges passed *)
  | AnswerQuiz (qIdx optIdx : nat)  (* QUIZ: an option button *)
  | BackToChallenges                (* QUIZ: back to the challenges *)
  | SubmitQuiz                      (* QUIZ: the submit button *)
  | NextLesson                      (* QUIZ after submission: next lesson *)
  | ExpandCourse (r : Response).    (* expansion from the profile, then back *)

(** One event on the mounted view.  An event whose button is not rendered
    or is disabled leaves the state as it is; so does a handler that throws
    before its first state update. *)
Definition ui_step (gw : Gateway) (s : UI.t) (e : Event) : UI.t :=
  let v := UI.view s in
  let c := UI.course s in
  match e with
  | SelectLesson mIdx lIdx =>
      match handleLessonSelect c mIdx lIdx with
      | Ok (Some c') => rerender gw (UI.set_course c' s)
      | _ => s
      end
  | SkipToPractice =>
      if decide (View.viewStage v = READING) then
        match markLessonCompleted c with
        | Ok c' =>
            rerender gw (UI.set_view (View.set_viewStage CHALLENGE v)
                           (UI.set_course c' s))
        | Throw _ => s
        end
      else s
  | GoToPractice =>
      if decide (View.viewStage v = READING)
      then UI.set_view (View.set_viewStage CHALLENGE v) s else s
  | BackToTheory =>
      if decide (View.viewStage v = CHALLENGE)
      then UI.set_view (View.set_viewStage READING v) s else s
  | GoToQuiz =>
      if decide (View.viewStage v = CHALLENGE ∧ View.challenges v = [])
      then UI.set_view (View.set_viewStage QUIZ v) s else s
  | LabComplete => UI.set_view (View.set_viewStage QUIZ v) s
  | AnswerQuiz qIdx optIdx =>
      match View.quiz v !! qIdx with
      | Some q =>
          if bool_decide (View.viewStage v = QUIZ)
             && negb (View.quizSubmitted v)
             && Nat.ltb optIdx (length (options_of q))
          then UI.set_view (handleQuizAnswer v qIdx optIdx) s
          else s
      | None => s
      end
  | BackToChallenges =>
      if decide (View.viewStage v = QUIZ)
      then UI.set_view (View.set_viewStage CHALLENGE v) s else s
  | SubmitQuiz =>
      if bool_decide (View.viewStage v = QUIZ)
         && negb (View.quizSubmitted v)
         && isAllAnswered v
      then
        let s' := UI.set_view (View.set_quizSubmitted true v) s in
        match submitQuiz c with
        | Ok c' => rerender gw (UI.set_course c' s')
        | Throw _ => s'
        end
      else s
  | NextLesson =>
      if bool_decide (View.viewStage v = QUIZ) && View.quizSubmitted v then
        match moveToNextLesson c with
        | Ok (Some c') => rerender gw (UI.set_course c' s)
        | _ => s
        end
      else s
  | ExpandCourse r =>
      match handleConfirmExpand c r with
      | Some c' => mount gw c' (UI.calls s)
      | None => s
      end
  end.

(** A run of events, oldest first. *)
Definition ui_run (gw : Gateway) (s : UI.t) (es : list Event) : UI.t :=
  foldl (ui_step gw) s es.

(** The responses [generateRoadmap] maps without a throw
    ([generateRoadmap_is_ok]): a decoded array, or an object holding one
    under [modules] (or under [data] when [modules] is falsy), whose entries
    are objects with an array [lessons] of entries other than [null].  This
    is what the two calls of [map] need and no check of a shape: an empty
    array passes, and so do modules without [title] and lessons that are
    numbers, strings, booleans or arrays. *)
Definition lesson_entry_ok (l : json) : bool :=
  match l with JNull => false | _ => true end.

Definition module_entry_ok (m : json) : bool :=
  match m with
  | JObj fields =>
      match assoc_last "lessons" fields with
      | Some (JArr ls) => forallb lesson_entry_ok ls
      | _ => false
      end
  | _ => false
  end.

Definition envelope (parsed : json) : jsval :=
  match parsed with
  | JArr _ => Some parsed
  | JObj fields => js_or (assoc_last "modules" fields) (assoc_last "data" fields)
  | _ => None
  end.

Definition roadmap_mappable (r : Response) : bool :=
  match r with
  | Parsed v =>
      match envelope v with
      | Some (JArr ms) => forallb module_entry_ok ms
      | _ => false
      end
  | _ => false
  end.

(** The module entries of a response, where the generator looks for them,
    and the lesson entries of a module entry. *)
Definition roadmap_entries (r : Response) : list json :=
  match r with
  | Parsed v =>
      match envelope v with
      | Some (JArr ms) => ms
      | _ => []
      end
  | _ => []
  end.

Definition lesson_entries (m : json) : list json :=
  match m with
  | JObj fields =>
      match assoc_last "lessons" fields with
      | Some (JArr ls) => ls
      | _ => []
      end
  | _ => []
  end.

(** The module shape the specification expects of a roadmap response, in
    its words: a sequence of Module-shaped records, each with a title, a
    description (texts) and a sequence of lessons, each lesson a record
    with a title and a description.  (Ids and statuses are given by the
    generator; the sequence is looked for where the generator looks.) *)
Definition is_text (v : jsval) : bool :=
  match v with Some (JStr _) => true | _ => false end.

Definition lesson_shaped (l : json) : bool :=
  match l with
  | JObj fields =>
      is_text (assoc_last "title" fields)
      && is_text (assoc_last "description" fields)
  | _ => false
  end.

Definition module_shaped (m : json) : bool :=
  match m with
  | JObj fields =>
      is_text (assoc_last "title" fields)
      && is_text (assoc_last "description" fields)
      && match assoc_last "lessons" fields with
         | Some (JArr ls) => forallb lesson_shaped ls
         | _ => false
         end
  | _ => false
  end.

Definition expected_module_shape (r : Response) : bool :=
  match r with
  | Parsed v =>
      match envelope v with
      | Some (JArr ms) => forallb module_shaped ms
      | _ => false
      end
  | _ => false
  end.

(** ** More of the course repository (App.tsx) *)

(** [handleStartTopic] once the questions have arrived.  [is_blank t] stands
    for [!t.trim()], a builtin of the host; [generateClarifyingQuestions]
    does not throw, so that the [catch] of the handler is never entered. *)
Definition handleStartTopic (is_blank : string → bool) (app : App.t)
    (questions : list string) : App.t :=
  if is_blank (App.topic app) then app
  else
    App.mk CLARIFYING (App.activeTab app) (App.topic app) (App.courses app)
      (App.activeCourseId app)
      {| questions := questions; answers := []; currentQuestionIndex := 0 |}.

(** [handleDeleteCourse] *)
Definition handleDeleteCourse (app : App.t) (id : string) : App.t :=
  let courses := filter (λ c, Course.id c ≠ id) (App.courses app) in
  if decide (App.activeCourseId app = Some id) then
    App.mk PROFILE (App.activeTab app) (App.topic app) courses None
      (App.clarification app)
  else
    App.mk (App.appState app) (App.activeTab app) (App.topic app) courses
      (App.activeCourseId app) (App.clarification app).

(** The [onSelectCourse] handed to the profile. *)
Definition onSelectCourse (app : App.t) (c : Course.t) : App.t :=
  App.mk LEARNING learn (App.topic app) (App.courses app) (Some (Course.id c))
    (App.clarification app).

(** The [onCreateNew] handed to the profile. *)
Definition onCreateNew (app : App.t) : App.t :=
  App.mk INITIAL learn "" (App.courses app) None (App.clarification app).

(** The [onTabChange] handed to the layout. *)
Definition onTabChange (app : App.t) (tab : Tab) : App.t :=
  App.mk (match tab with profile => PROFILE | _ => App.appState app end) tab
    (App.topic app) (App.courses app) (App.activeCourseId app)
    (App.clarification app).

(** [handleUpdateActiveCourse] on the application state. *)
Definition updateCourse (app : App.t) (updated : Course.t) : App.t :=
  App.mk (App.appState app) (App.activeTab app) (App.topic app)
    (handleUpdateActiveCourse updated (App.courses app))
    (App.activeCourseId app) (App.clarification app).

(** [activeCourse] of the render. *)
Definition activeCourse (app : App.t) : option Course.t :=
  i ← App.activeCourseId app; find_course i (App.courses app).

(** What can happen to the application state.  The profile hands
    [onSelectCourse] a course of the list, given here by its index. *)
Inductive AppEvent : Type :=
  | StartTopic (is_blank : string → bool) (questions : list string)
  | TypeTopic (t : string)
  | Answer (answer : string) (r : Response) (now1 now2 : nat)
  | UpdateCourse (updated : Course.t)
  | DeleteCourse (id : string)
  | SelectCourse (i : nat)
  | CreateNew
  | TabChange (tab : Tab).

Definition app_step (app : App.t) (e : AppEvent) : App.t :=
  match e with
  | StartTopic is_blank questions => handleStartTopic is_blank app questions
  | TypeTopic t =>
      App.mk (App.appState app) (App.activeTab app) t (App.courses app)
        (App.activeCourseId app) (App.clarification app)
  | Answer answer r now1 now2 => handleClarificationAnswer app answer r now1 now2
  | UpdateCourse updated => updateCourse app updated
  | DeleteCourse id => handleDeleteCourse app id
  | SelectCourse i =>
      match App.courses app !! i with
      | Some c => onSelectCourse app c
      | None => app
      end
  | CreateNew => onCreateNew app
  | TabChange tab => onTabChange app tab
  end.

Definition app_run (app : App.t) (es : list AppEvent) : App.t :=
  foldl app_step app es.

(** The state [App] starts in. *)
Definition app_initial : App.t :=
  App.mk INITIAL learn "" [] None
    {| questions := []; answers := []; currentQuestionIndex := 0 |}.

(** The answers of a clarification given one after the other, each with
    what the roadmap request would come to. *)
Definition answer_all (app : App.t) (r : Response) (now1 now2 : nat)
    (given : list string) : App.t :=
  foldl (λ a answer, handleClarificationAnswer a answer r now1 now2) app given.

(** The number of lessons of each module, which assignments into lessons
    leave as it is. *)
Definition shape (ms : list Mod.t) (k : nat) : option nat :=
  (λ md, length (Mod.lessons md)) <$> ms !! k.

(** The pointer to the active course is unset or designates a course of the
    list. *)
Definition active_valid (app : App.t) : Prop :=
  App.activeCourseId app = None ∨ is_Some (activeCourse app).

(** ** More of the generation service (geminiService.ts) *)

(** The questions [generateClarifyingQuestions] falls back on. *)
Definition default_questions : json :=
  JArr [JStr "Каков ваш текущий уровень знаний в этой области?";
        JStr "Какова ваша основная цель изучения этой темы?";
        JStr "Как вы предпочитаете учиться (теория или практика)?"].

(** [generateClarifyingQuestions]: [parsed.questions || parsed], or the
    three questions above when anything throws. *)
Definition generateClarifyingQuestions (r : Response) : result json :=
  try_catch
    (text ← callMistral r;
     parsed ← JSON_parse text;
     qs ← get_prop (Some parsed) "questions";
     Ok (default parsed (js_or qs (Some parsed))))
    (λ _, Ok default_questions).

(** [validateUserCode]: the decoded value as it is, or a failed verdict. *)
Definition validateUserCode (r : Response) : result json :=
  try_catch
    (text ← callMistral r;
     JSON_parse text)
    (λ _, Ok (JObj [("passed", JBool false);
                    ("feedback", JStr "Ошибка проверки.")])).

Module Service.
(** [{ ...item, id }]: the decoded item and the id that overrides its own. *)
Record Challenge : Type := mk {
  item : json;
  id : string
}.

(** [`challenge-${i}`] *)
Definition challenge_id (i : nat) : string := "challenge-" +:+ pretty i.

(** [generateCodingChallenges] over the decoded response. *)
Definition generateCodingChallenges (r : Response) : result (list Challenge) :=
  try_catch
    (text ← callMistral r;
     parsed ← JSON_parse text;
     items ← (if isArray parsed then Ok (Some parsed)
              else
                cs ← get_prop (Some parsed) "challenges";
                Ok (js_or cs (Some (JArr []))));
     js_map items (λ item i, Ok (mk item (challenge_id i))))
    (λ _, Ok []).
End Service.

(** ** The coding lab (CourseView.tsx, [CodingLab]) *)

Module Lab.
Record t : Type := mk {
  activeIdx : nat;
  userCode : string;
  feedback : option (jsval * jsval);   (* [{ passed, msg }] *)
  completedIds : gset string
}.
End Lab.

(** The state of a lab after its first render over a list of challenges. *)
Definition lab_initial (challenges : list CodingChallenge) : Lab.t :=
  Lab.mk 0 (default "" (starterCode <$> challenges !! 0)) None ∅.

(** [setActiveIdx(i)] and the effect on the active challenge that follows:
    a change of challenge resets the editor and the feedback. *)
Definition setActiveIdx (challenges : list CodingChallenge) (i : nat)
    (lab : Lab.t) : Lab.t :=
  if decide (i = Lab.activeIdx lab) then lab
  else
    Lab.mk i (default (Lab.userCode lab) (starterCode <$> challenges !! i)) None
      (Lab.completedIds lab).

(** [handleRun] of the lab: the state after the validation request [r] has
    come back, and whether the timer for [onComplete] was set. *)
Definition lab_handleRun (challenges : list CodingChallenge) (lab : Lab.t)
    (r : Response) : Lab.t * bool :=
  let failed :=
    (Lab.mk (Lab.activeIdx lab) (Lab.userCode lab)
       (Some (Some (JBool false), Some (JStr "Ошибка проверки кода.")))
       (Lab.completedIds lab), false) in
  match challenges !! Lab.activeIdx lab with
  | None => failed
  | Some activeChallenge =>
      match (result ← validateUserCode r;
             passed ← get_prop (Some result) "passed";
             msg ← get_prop (Some result) "feedback";
             Ok (passed, msg)) with
      | Throw _ => failed
      | Ok (passed, msg) =>
          if truthy passed then
            let newCompleted := Lab.completedIds lab ∪ {[ch_id activeChallenge]} in
            (Lab.mk (Lab.activeIdx lab) (Lab.userCode lab) (Some (passed, msg))
               newCompleted,
             bool_decide (size newCompleted = length challenges))
          else
            (Lab.mk (Lab.activeIdx lab) (Lab.userCode lab) (Some (passed, msg))
               (Lab.completedIds lab), false)
      end
  end.

(** What the user can do in the lab. *)
Inductive LabEvent : Type :=
  | LabRun (r : Response)      (* the check button *)
  | LabDot (i : nat)           (* a dot of the header *)
  | LabNext                    (* next task, shown after a pass *)
  | LabResetCode               (* back to the starter code *)
  | LabEdit (code : string).   (* typing in the editor *)

Definition lab_step (challenges : list CodingChallenge) (lab : Lab.t)
    (e : LabEvent) : Lab.t :=
  match e with
  | LabRun r => (lab_handleRun challenges lab r).1
  | LabDot i =>
      if decide (i < length challenges) then setActiveIdx challenges i lab
      else lab
  | LabNext =>
      match Lab.feedback lab with
      | Some (passed, _) =>
          if truthy passed
             && Nat.ltb (size (Lab.completedIds lab)) (length challenges)
          then setActiveIdx challenges
                 (Nat.min (Lab.activeIdx lab + 1) (length challenges - 1)) lab
          else lab
      | None => lab
      end
  | LabResetCode =>
      match challenges !! Lab.activeIdx lab with
      | Some activeChallenge =>
          Lab.mk (Lab.activeIdx lab) (starterCode activeChallenge)
            (Lab.feedback lab) (Lab.completedIds lab)
      | None => lab
      end
  | LabEdit code =>
      Lab.mk (Lab.activeIdx lab) code (Lab.feedback lab) (Lab.completedIds lab)
  end.

Definition lab_run (challenges : list CodingChallenge) (es : list LabEvent)
  : Lab.t :=
  foldl (lab_step challenges) (lab_initial challenges) es.

(** The ids of a list of challenges, as a set. *)
Definition challenge_ids (challenges : list CodingChallenge) : gset string :=
  list_to_set (ch_id <$> challenges).

(** The active index is in range and only ids of the challenges are marked. *)
Definition lab_inv (challenges : list CodingChallenge) (lab : Lab.t) : Prop :=
  Lab.activeIdx lab < length challenges
  ∧ Lab.completedIds lab ⊆ challenge_ids challenges.

(** ** More of the lesson view (CourseView.tsx) *)

(** [totalLessons] and [completedLessons] of the progress bar (and of
    [calculateProgress] of the profile). *)
Definition totalLessons (course : Course.t) : nat :=
  foldl (λ acc m, acc + length (Mod.lessons m)) 0 (Course.modules course).

Definition completedLessons (course : Course.t) : nat :=
  foldl (λ acc m,
           acc + length (filter (λ l, Lesson.status l = completed) (Mod.lessons m)))
    0 (Course.modules course).

(** The sum of a measure over all lessons of a module list. *)
Definition lessons_sum (μ : Lesson.t → nat) (ms : list Mod.t) : nat :=
  sum_list ((λ m, sum_list (μ <$> Mod.lessons m)) <$> ms).

Definition is_completed (l : Lesson.t) : nat :=
  if decide (Lesson.status l = completed) then 1 else 0.

Definition set_videoUrl (u : option string) (l : Lesson.t) : Lesson.t :=
  Lesson.mk (Lesson.id l) (Lesson.title l) (Lesson.description l)
    (Lesson.status l) (Lesson.content l) (Lesson.imageUrl l) u (Lesson.quiz l)
    (Lesson.codingChallenges l).

(** [toggleModule] on the set of unfolded modules of the sidebar. *)
Definition toggleModule (modId : string) (expandedModules : gset string)
  : gset string :=
  if decide (modId ∈ expandedModules) then expandedModules ∖ {[modId]}
  else expandedModules ∪ {[modId]}.

(** The call of [setExpandedModules] in [submitQuiz]: the module of the
    lesson that is unlocked is unfolded when it is another module.  (The
    call comes after the assignment into the current lesson, which throws
    when there is none; the assignment changes neither the number of
    lessons nor the ids of the modules, so that the course as it was is
    read here.) *)
Definition submitQuiz_expanded (course : Course.t) (expandedModules : gset string)
  : gset string :=
  let m := Course.currentModuleIndex course in
  let l := Course.currentLessonIndex course in
  match activeLesson course, next_position (Course.modules course) m l with
  | Some _, Ok next =>
      if position_exists (Course.modules course) next
         && negb (Nat.eqb next.1 m)
      then
        match Course.modules course !! next.1 with
        | Some md => expandedModules ∪ {[Mod.id md]}
        | None => expandedModules
        end
      else expandedModules
  | _, _ => expandedModules
  end.

(** ** Courses as the generators make them *)

(** Every module has a lesson. *)
Definition populated (ms : list Mod.t) : Prop :=
  Forall (λ md, 0 < length (Mod.lessons md)) ms.

(** The id of every lesson is the one the generators give at its
    position. *)
Definition positional (ms : list Mod.t) : Prop :=
  ∀ m l x, lesson_at ms m l = Some x → Lesson.id x = lesson_id m l.




(** An expansion whose response gives every new module a lesson. *)
Definition populated_expansion (e : Event) : Prop :=
  match e with
  | ExpandCourse r => ∀ c ms, expandCourse c r = Ok ms → populated ms
  | _ => True
  end.

(** A text without the character [-], as the decimal numerals are. *)
Fixpoint dashless (s : string) : Prop :=
  match s with
  | EmptyString => True
  | String a s' => a ≠ "-"%char ∧ dashless s'
  end.

(** ** [cleanJson] (geminiService.ts)

    A JavaScript string is a list of UTF-16 code units. *)

Definition text : Type := list N.

(** The characters matched by [\s] and removed by [trim]: white space and
    line terminators. *)
Definition is_space (c : N) : bool :=
  bool_decide (c ∈ [9; 10; 11; 12; 13; 32; 160; 5760; 8232; 8233; 8239; 8287;
                    12288; 65279]%N)
  || (N.leb 8192 c && N.leb c 8202).

(** What a greedy [\s*] leaves of a text. *)
Fixpoint skip_spaces (l : text) : text :=
  match l with
  | c :: r => if is_space c then skip_spaces r else l
  | [] => []
  end.

Fixpoint starts_with (pat l : text) : bool :=
  match pat, l with
  | [], _ => true
  | p :: ps, c :: r => N.eqb p c && starts_with ps r
  | _ :: _, [] => false
  end.

(** [l.replace(/pat\s*/g, '')] for a literal [pat] that is not empty.  The
    text is read from left to right; a match is left out together with the
    white space behind it, and the next match is looked for behind that.
    Every step shortens the text, so the length of the text is fuel
    enough. *)
Fixpoint strip_fuel (fuel : nat) (pat l : text) : text :=
  match fuel, l with
  | S n, c :: r =>
      if starts_with pat l
      then strip_fuel n pat (skip_spaces (drop (length pat) l))
      else c :: strip_fuel n pat r
  | _, _ => []
  end.

Definition strip (pat l : text) : text := strip_fuel (length l) pat l.

(** [String.prototype.trim] *)
Definition trim (l : text) : text :=
  reverse (skip_spaces (reverse (skip_spaces l))).

Definition backtick : N := 96.

(** Three backticks, and three backticks followed by [json]. *)
Definition fence : text := [backtick; backtick; backtick].

Definition fence_json : text := fence ++ [106; 115; 111; 110]%N.

(** [cleanJson]; [None] is a text that is [undefined] or [null]. *)
Definition cleanJson (t : option text) : text :=
  match t with
  | None | Some [] => []
  | Some l => trim (strip fence (strip fence_json l))
  end.

(** A course after a series of expansion dialogs; a dialog whose expansion
    fails leaves the course as it is. *)
Definition expand_all (c : Course.t) (rs : list Response) : Course.t :=
  foldl (λ c r, default c (handleConfirmExpand c r)) c rs.

(** ** Persistence (App.tsx)

    What the application keeps in [localStorage] under its three keys, as
    it writes them itself: the course list (what [JSON.stringify] writes of
    it [JSON.parse] gives back: the courses hold texts, numbers and decoded
    values only), the id of the active course and the state.  A key that
    was never written is [None].  The key of the former single course and
    stored texts that do not parse are not part of this store. *)
Module Store.
Record t : Type := mk {
  neuroLearnCourses : option (list Course.t);
  neuroLearnActiveId : option string;
  neuroLearnState : option AppState
}.

Definition empty : t := mk None None None.
End Store.

(** The save effect: the courses are written, the active id when it is
    truthy (it is never removed), the state when it is one of the four
    stable ones. *)
Definition save (app : App.t) (st : Store.t) : Store.t :=
  Store.mk (Some (App.courses app))
    (if truthy_str (App.activeCourseId app) then App.activeCourseId app
     else Store.neuroLearnActiveId st)
    (match App.appState app with
     | INITIAL | LEARNING | PROFILE | CREATIVE => Some (App.appState app)
     | CLARIFYING | GENERATING => Store.neuroLearnState st
     end).

(** The load effect on a store: the state of the application once the
    updates of the effect are applied to the state [App] starts in. *)
Definition restore (st : Store.t) : App.t :=
  let courses := default [] (Store.neuroLearnCourses st) in
  let activeCourseId :=
    if truthy_str (Store.neuroLearnActiveId st) then Store.neuroLearnActiveId st
    else None in
  match Store.neuroLearnState st with
  | Some LEARNING =>
      App.mk LEARNING learn "" courses activeCourseId (App.clarification app_initial)
  | Some PROFILE =>
      App.mk PROFILE profile "" courses activeCourseId (App.clarification app_initial)
  | Some CREATIVE =>
      App.mk CREATIVE create "" courses activeCourseId (App.clarification app_initial)
  | _ =>
      App.mk INITIAL learn "" courses activeCourseId (App.clarification app_initial)
  end.

(** The application with its store.  After an event of the application the
    save effect runs (when nothing it depends on has changed it would write
    what is there).  On a start of the page both effects run on the first
    render, the load effect first, the save effect on the state [App]
    starts in, and the save effect again once the state is restored. *)
Record Session : Type := {
  app : App.t;
  store : Store.t
}.

Inductive SessionEvent : Type :=
  | Handle (e : AppEvent)
  | Reload.

Definition session_step (x : Session) (ev : SessionEvent) : Session :=
  match ev with
  | Handle e =>
      let app' := app_step (app x) e in
      {| app := app'; store := save app' (store x) |}
  | Reload =>
      let app' := restore (store x) in
      {| app := app'; store := save app' (save app_initial (store x)) |}
  end.

(** The first visit, with nothing stored, and what follows it. *)
Definition session_start : Session :=
  session_step {| app := app_initial; store := Store.empty |} Reload.

Definition session_run (evs : list SessionEvent) : Session :=
  foldl session_step session_start evs.

(** The store holds the id of the active course whenever there is one. *)
Definition id_stored (x : Session) : Prop :=
  truthy_str (App.activeCourseId (app x)) = true →
  Store.neuroLearnActiveId (store x) = App.activeCourseId (app x).

(** The application is in a state that a handler enters, and in the state
    LEARNING the pointer to the active course is set. *)
Definition app_inv (app : App.t) : Prop :=
  App.appState app ∈ [INITIAL; CLARIFYING; GENERATING; LEARNING; PROFILE]
  ∧ (App.appState app = LEARNING → is_Some (App.activeCourseId app)).

(** ** Shared lesson objects and late answers (CourseView.tsx, ProfileView.tsx)

    Every copy of a course that a render or a request in flight holds
    shares the lesson objects: the handlers copy the module array
    ([[...course.modules]]) and assign into the objects, and they hand
    [updateCourse] a copy of the course of their own render
    ([{...course, modules: updatedModules}]).  A request that is answered
    late therefore writes back the course of the render that started it.
    To follow that, the lesson objects are kept in a store, a course refers
    to them by their place in the store, and the requests in flight are
    kept with the course they captured.  The module objects and their
    arrays of lessons are never assigned to.  The stage and the answers of
    the view are left out, and so is what is on the screen: every click and
    every answer is taken to be possible at any time, in any order. *)
Module Shared.

Record module : Type := mk_module {
  id : string;
  title : jsval;
  description : jsval;
  lessons : list nat
}.

(** A course object: every render and every request holds one of its own. *)
Record copy : Type := mk_course {
  course_id : string;
  topic : string;
  modules : list module;
  currentModuleIndex : nat;
  currentLessonIndex : nat;
  createdAt : nat
}.

Definition set_current (m l : nat) (c : copy) : copy :=
  mk_course (course_id c) (topic c) (modules c) m l (createdAt c).

Definition set_modules (ms : list module) (c : copy) : copy :=
  mk_course (course_id c) (topic c) ms (currentModuleIndex c)
    (currentLessonIndex c) (createdAt c).

(** The place in the store of [modules[m].lessons[l]], and the object. *)
Definition ref_at (c : copy) (m l : nat) : option nat :=
  md ← modules c !! m; lessons md !! l.

Definition lesson_of (σ : list Lesson.t) (c : copy) (m l : nat)
  : option Lesson.t :=
  r ← ref_at c m l; σ !! r.

Definition activeLesson (σ : list Lesson.t) (c : copy) : option Lesson.t :=
  lesson_of σ c (currentModuleIndex c) (currentLessonIndex c).

(** The course as a render reads it. *)
Definition read_module (σ : list Lesson.t) (md : module) : Mod.t :=
  Mod.mk (id md) (title md) (description md) (omap (λ r, σ !! r) (lessons md)).

Definition read (σ : list Lesson.t) (c : copy) : Course.t :=
  Course.mk (course_id c) (topic c) (read_module σ <$> modules c)
    (currentModuleIndex c) (currentLessonIndex c) (createdAt c).

(** [modules[m].lessons[l].field = ...]: the object is changed in the store;
    a TypeError when the module or the lesson is not there. *)
Definition assign (f : Lesson.t → Lesson.t) (c : copy) (m l : nat)
    (σ : list Lesson.t) : result (list Lesson.t) :=
  match ref_at c m l with
  | Some r =>
      match σ !! r with
      | Some _ => Ok (alter f r σ)
      | None => Throw TypeError
      end
  | None => Throw TypeError
  end.

(** The handlers that run to their end at the click, on the course of the
    render: the store they leave and the course they hand to [updateCourse]
    ([None]: no call). *)
Definition handleLessonSelect (σ : list Lesson.t) (c : copy)
    (modIdx lessIdx : nat) : result (option copy) :=
  match lesson_of σ c modIdx lessIdx with
  | None => Throw TypeError
  | Some targetLesson =>
      if decide (Lesson.status targetLesson = locked) then Ok None
      else Ok (Some (set_current modIdx lessIdx c))
  end.

Definition markLessonCompleted (σ : list Lesson.t) (c : copy)
  : result (list Lesson.t) :=
  assign (Lesson.set_status completed) c (currentModuleIndex c)
    (currentLessonIndex c) σ.

Definition next_position (c : copy) : result (nat * nat) :=
  match modules c !! currentModuleIndex c with
  | None => Throw TypeError
  | Some md =>
      if Nat.leb (length (lessons md)) (currentLessonIndex c + 1)
      then Ok (currentModuleIndex c + 1, 0)
      else Ok (currentModuleIndex c, currentLessonIndex c + 1)
  end.

Definition submitQuiz (σ : list Lesson.t) (c : copy) : result (list Lesson.t) :=
  σ1 ← assign (Lesson.set_status completed) c (currentModuleIndex c)
         (currentLessonIndex c) σ;
  next ← next_position c;
  match ref_at c next.1 next.2 with
  | Some _ => assign (Lesson.set_status unlocked) c next.1 next.2 σ1
  | None => Ok σ1
  end.

Definition moveToNextLesson (c : copy) : result (option copy) :=
  next ← next_position c;
  if Nat.ltb next.1 (length (modules c))
  then Ok (Some (set_current next.1 next.2 c))
  else Ok None.

(** The write-backs of the requests, [course] the course of the render that
    started the request: the store they leave and the course they hand to
    [updateCourse], if they come to that. *)
Definition handleGenerateVideo (σ : list Lesson.t) (course : copy)
    (video : option string) : option (list Lesson.t * copy) :=
  match video with
  | Some videoUrl =>
      match assign (set_videoUrl (Some videoUrl)) course
              (currentModuleIndex course) (currentLessonIndex course) σ with
      | Ok σ' => Some (σ', course)
      | Throw _ => None
      end
  | None => None
  end.

Definition illustration_arrived (σ : list Lesson.t) (course : copy)
    (img : option string) : option (list Lesson.t * copy) :=
  if truthy_str img then
    match assign (Lesson.set_imageUrl img) course
            (currentModuleIndex course) (currentLessonIndex course) σ with
    | Ok σ' => Some (σ', course)
    | Throw _ => None
    end
  else None.

Definition lesson_arrived (σ : list Lesson.t) (course : copy)
    (text : string) (quizData : list json)
    (challengeData : list CodingChallenge) (imgData : option string)
  : option (list Lesson.t * copy) :=
  match assign (Lesson.set_generated text quizData challengeData
                  (or_absent imgData)) course
          (currentModuleIndex course) (currentLessonIndex course) σ with
  | Ok σ' => Some (σ', course)
  | Throw _ => None
  end.

(** New modules get lesson objects of their own, at the end of the store. *)
Fixpoint alloc (σ : list Lesson.t) (ms : list Mod.t)
  : list Lesson.t * list module :=
  match ms with
  | [] => (σ, [])
  | md :: rest =>
      let refs := seq (length σ) (length (Mod.lessons md)) in
      let '(σ', mds) := alloc (σ ++ Mod.lessons md) rest in
      (σ', mk_module (Mod.id md) (Mod.title md) (Mod.description md) refs :: mds)
  end.

(** [handleConfirmExpand] once [expandCourse] is answered, over the course
    the dialog was opened on.  ([expandCourse] takes from the course its
    topic and the titles and the number of its modules, which no assignment
    changes.) *)
Definition handleConfirmExpand (σ : list Lesson.t) (expandDialogCourse : copy)
    (r : Response) : option (list Lesson.t * copy) :=
  match expandCourse (read σ expandDialogCourse) r with
  | Ok newModules =>
      let '(σ', mds) := alloc σ newModules in
      Some (σ', set_modules (modules expandDialogCourse ++ mds) expandDialogCourse)
  | Throw _ => None
  end.

(** A request in flight, with the course of the render that started it. *)
Inductive Pending : Type :=
  | AwaitVideo (course : copy)
  | AwaitIllustration (course : copy)
  | AwaitLesson (course : copy)
  | AwaitExpansion (expandDialogCourse : copy).

(** What a request is answered. *)
Inductive Answer : Type :=
  | VideoAnswer (video : option string)
  | IllustrationAnswer (img : option string)
  | LessonAnswer (text : string) (quizData : list json)
      (challengeData : list CodingChallenge) (imgData : option string)
  | ExpansionAnswer (r : Response).

Record world : Type := mk_world {
  objects : list Lesson.t;            (* the lesson objects *)
  current : copy;                     (* the course the repository holds and renders *)
  expandDialogCourse : option copy;   (* the course the expansion dialog is open on *)
  pending : list (option Pending)     (* the requests sent, [None] once answered *)
}.

Inductive Act : Type :=
  | ClickLesson (modIdx lessIdx : nat)
  | ClickSkip
  | ClickSubmit
  | ClickNext
  | ClickVideo               (* [handleGenerateVideo] sends its request *)
  | RunEffect                (* the lesson effect calls [loadLesson] *)
  | OpenExpandDialog
  | CloseExpandDialog
  | ConfirmExpand            (* [handleConfirmExpand] sends its request *)
  | Answered (k : nat) (a : Answer).   (* the request at place [k] is answered *)

Definition send (p : Pending) (w : world) : world :=
  mk_world (objects w) (current w) (expandDialogCourse w) (pending w ++ [Some p]).

(** The end of a request: what it wrote back, if anything, is the store and
    the course from now on. *)
Definition write_back (w : world) (k : nat)
    (res : option (list Lesson.t * copy)) : world :=
  match res with
  | Some (σ', c') =>
      mk_world σ' c' (expandDialogCourse w) (<[k := None]> (pending w))
  | None =>
      mk_world (objects w) (current w) (expandDialogCourse w)
        (<[k := None]> (pending w))
  end.

Definition close_dialog (w : world) : world :=
  mk_world (objects w) (current w) None (pending w).

Definition step (w : world) (a : Act) : world :=
  let σ := objects w in
  let c := current w in
  match a with
  | ClickLesson modIdx lessIdx =>
      match handleLessonSelect σ c modIdx lessIdx with
      | Ok (Some c') => mk_world σ c' (expandDialogCourse w) (pending w)
      | _ => w
      end
  | ClickSkip =>
      match markLessonCompleted σ c with
      | Ok σ' => mk_world σ' c (expandDialogCourse w) (pending w)
      | Throw _ => w
      end
  | ClickSubmit =>
      match submitQuiz σ c with
      | Ok σ' => mk_world σ' c (expandDialogCourse w) (pending w)
      | Throw _ => w
      end
  | ClickNext =>
      match moveToNextLesson c with
      | Ok (Some c') => mk_world σ c' (expandDialogCourse w) (pending w)
      | _ => w
      end
  | ClickVideo =>
      match activeLesson σ c with
      | Some _ => send (AwaitVideo c) w
      | None => w
      end
  | RunEffect =>
      match activeLesson σ c with
      | Some lesson =>
          if decide (Lesson.status lesson = locked) then w
          else if truthy_str (Lesson.content lesson) then
            if negb (truthy_str (Lesson.imageUrl lesson))
               && negb (truthy_str (Lesson.videoUrl lesson))
            then send (AwaitIllustration c) w
            else w
          else send (AwaitLesson c) w
      | None => w
      end
  | OpenExpandDialog => mk_world σ c (Some c) (pending w)
  | CloseExpandDialog => close_dialog w
  | ConfirmExpand =>
      match expandDialogCourse w with
      | Some course => send (AwaitExpansion course) w
      | None => w
      end
  | Answered k a =>
      match pending w !! k, a with
      | Some (Some (AwaitVideo course)), VideoAnswer video =>
          write_back w k (handleGenerateVideo σ course video)
      | Some (Some (AwaitIllustration course)), IllustrationAnswer img =>
          write_back w k (illustration_arrived σ course img)
      | Some (Some (AwaitLesson course)),
        LessonAnswer text quizData challengeData imgData =>
          write_back w k
            (lesson_arrived σ course text quizData challengeData imgData)
      | Some (Some (AwaitExpansion course)), ExpansionAnswer r =>
          match handleConfirmExpand σ course r with
          | Some res => close_dialog (write_back w k (Some res))
          | None => write_back w k None
          end
      | _, _ => w
      end
  end.

Definition run (w : world) (acts : list Act) : world := foldl step w acts.

(** Every act but the answer to the request at place [k]. *)
Definition leaves (k : nat) (a : Act) : Prop :=
  match a with
  | Answered k' _ => k' ≠ k
  | _ => True
  end.

(** A course with lesson objects of its own, no dialog, nothing sent. *)
Definition share (c : Course.t) : world :=
  let '(σ, mds) := alloc [] (Course.modules c) in
  mk_world σ
    (mk_course (Course.id c) (Course.topic c) mds (Course.currentModuleIndex c)
       (Course.currentLessonIndex c) (Course.createdAt c))
    None [].

End Shared.

(** [σ'] has every object of [σ], with its id, and none of them newly
    locked. *)
Definition keeps (σ σ' : list Lesson.t) : Prop :=
  ∀ r x, σ !! r = Some x →
    ∃ x', σ' !! r = Some x'
        ∧ Lesson.id x' = Lesson.id x
        ∧ (Lesson.status x ≠ locked → Lesson.status x' ≠ locked).

(** A course object all of whose lessons are in the store, each of whose
    modules has a lesson, and at whose current position there is a
    lesson. *)
Definition sound (σ : list Lesson.t) (c : Shared.copy) : Prop :=
  Forall (λ md, Shared.lessons md ≠ []
                ∧ Forall (λ r, r < length σ) (Shared.lessons md))
    (Shared.modules c)
  ∧ is_Some (Shared.ref_at c (Shared.currentModuleIndex c)
               (Shared.currentLessonIndex c)).

Definition captured (p : Shared.Pending) : Shared.copy :=
  match p with
  | Shared.AwaitVideo c | Shared.AwaitIllustration c | Shared.AwaitLesson c
  | Shared.AwaitExpansion c => c
  end.

(** The course that is rendered, the course of the dialog and the courses
    the requests hold are all [sound]. *)
Definition all_sound (w : Shared.world) : Prop :=
  sound (Shared.objects w) (Shared.current w)
  ∧ (∀ c, Shared.expandDialogCourse w = Some c → sound (Shared.objects w) c)
  ∧ (∀ k p, Shared.pending w !! k = Some (Some p) →
       sound (Shared.objects w) (captured p)).

(** An answer to an expansion request that gives every new module a
    lesson. *)
Definition populated_answer (a : Shared.Act) : Prop :=
  match a with
  | Shared.Answered _ (Shared.ExpansionAnswer r) =>
      ∀ c ms, expandCourse c r = Ok ms → populated ms
  | _ => True
  end.

(** ** Sample data

    The scenario of the specification: the topic "Linear Algebra", one
    module, two lessons. *)

Definition lesson_json (t : string) : json :=
  JObj [("title", JStr t); ("description", JStr "")].

Definition module_json (t : string) (ls : list json) : json :=
  JObj [("title", JStr t); ("description", JStr ""); ("lessons", JArr ls)].

Definition sample_roadmap : Response :=
  Parsed (JArr [module_json "Vectors" [lesson_json "Vector spaces";
                                          lesson_json "Bases"]]).

Definition sample_expansion : Response :=
  Parsed (JObj [("modules",
                 JArr [module_json "Spectra" [lesson_json "Eigenvalues"];
                       module_json "Forms" [lesson_json "Quadratic forms"]])]).

(** A response that is JSON but holds no module list. *)
Definition sample_bad_roadmap : Response :=
  Parsed (JObj [("error", JStr "rate limit")]).

Definition sample_modules : list Mod.t :=
  Eval vm_compute in
    match generateRoadmap sample_roadmap with Ok ms => ms | Throw _ => [] end.

Definition sample_course : Course.t :=
  Course.mk "course-1" "Linear Algebra" sample_modules 0 0 1.

Definition sample_expanded : Course.t :=
  Eval vm_compute in
    match handleConfirmExpand sample_course sample_expansion with
    | Some c => c
    | None => sample_course
    end.

Definition sample_app : App.t :=
  App.mk CLARIFYING learn "Linear Algebra" [] None
    {| questions := ["Level?"]; answers := []; currentQuestionIndex := 0 |}.

Definition sample_question : json :=
  JObj [("question", JStr "dim R^2?");
        ("options", JArr [JStr "2"; JStr "3"]);
        ("correctAnswerIndex", JNum 0)].

(** A gateway that answers every request: a text, a quiz of one question,
    no coding challenge, an illustration. *)
Definition sample_gateway : Gateway := {|
  generateLessonContent := λ _ _ _ _, "# Lesson";
  quizResponse := λ _ _, Parsed (JArr [sample_question]);
  generateCodingChallenges := λ _ _, [];
  generateLessonIllustration := λ _ _ _, Some "data:image/png;base64,AAAA"
|}.

(** A gateway whose quiz request is always rejected. *)
Definition quizless_gateway : Gateway := {|
  generateLessonContent := λ _ _ _ _, "# Lesson";
  quizResponse := λ _ _, Rejected;
  generateCodingChallenges := λ _ _, [];
  generateLessonIllustration := λ _ _ _, Some "data:image/png;base64,AAAA"
|}.

(** The view over the fresh course, its first lesson generated. *)
Definition sample_mounted : UI.t :=
  Eval vm_compute in mount sample_gateway sample_course [].

Definition sample_loaded_lesson : Lesson.t :=
  Eval vm_compute in
    match activeLesson (UI.course sample_mounted) with
    | Some x => x
    | None => Lesson.mk "" None None locked None None None None None
    end.

(** Through a lesson by the buttons: on to the challenges (there are none),
    on to the quiz, the first option of the one question, submit. *)
Definition pass_lesson : list Event :=
  [GoToPractice; GoToQuiz; AnswerQuiz 0 0; SubmitQuiz].

(** Both lessons passed in turn, the view on the second. *)
Definition both_passed : UI.t :=
  Eval vm_compute in
    ui_run sample_gateway sample_mounted (pass_lesson ++ [NextLesson] ++ pass_lesson).

(** The course with both lessons completed, back on the first lesson. *)
Definition revisited_course : Course.t :=
  Eval vm_compute in
    UI.course (ui_step sample_gateway both_passed (SelectLesson 0 0)).

(** The view on the last lesson of the sample course, the quiz of both
    lessons passed. *)
Definition last_lesson_course : Course.t :=
  Eval vm_compute in UI.course both_passed.

Definition last_lesson : Lesson.t :=
  Eval vm_compute in
    match activeLesson last_lesson_course with
    | Some x => x
    | None => sample_loaded_lesson
    end.

Definition last_module : Mod.t :=
  Eval vm_compute in
    match Course.modules last_lesson_course !! 0 with
    | Some md => md
    | None => Mod.mk "" None None []
    end.

(** A second question for the sample clarification, and a test for blank
    topics that reads the empty topic as blank. *)
Definition sample_questions : list string := ["Level?"; "Goal?"].

Definition empty_topic (t : string) : bool := String.eqb t "".

(** Two challenges as [generateCodingChallenges] numbers them, and
    validation responses that pass and fail. *)
Definition sample_challenges : list CodingChallenge :=
  [ {| ch_id := "challenge-0"; ch_title := "Sum"; ch_description := "";
       starterCode := "// sum"; solutionReference := ""; hint := "" |};
    {| ch_id := "challenge-1"; ch_title := "Dot"; ch_description := "";
       starterCode := "// dot"; solutionReference := ""; hint := "" |} ].

Definition passing : Response :=
  Parsed (JObj [("passed", JBool true); ("feedback", JStr "ok")]).

Definition failing : Response :=
  Parsed (JObj [("passed", JBool false); ("feedback", JStr "no")]).

(** A gateway like the sample one that draws no illustration, and the
    view over the sample course it leaves: the first lesson cached without
    illustration. *)
Definition imageless_gateway : Gateway := {|
  generateLessonContent := λ _ _ _ _, "# Lesson";
  quizResponse := λ _ _, Parsed (JArr [sample_question]);
  generateCodingChallenges := λ _ _, [];
  generateLessonIllustration := λ _ _ _, None
|}.

Definition imageless_mounted : UI.t :=
  Eval vm_compute in mount imageless_gateway sample_course [].

Definition imageless_lesson : Lesson.t :=
  Eval vm_compute in
    match activeLesson (UI.course imageless_mounted) with
    | Some x => x
    | None => sample_loaded_lesson
    end.

(** The expanded sample course on the last lesson of its first module, that
    lesson, and the module that follows. *)
Definition boundary_course : Course.t :=
  Eval vm_compute in Course.set_current 0 1 sample_expanded.

Definition boundary_lesson : Lesson.t :=
  Eval vm_compute in
    match activeLesson boundary_course with
    | Some x => x
    | None => sample_loaded_lesson
    end.

Definition spectra_module : Mod.t :=
  Eval vm_compute in
    match Course.modules boundary_course !! 1 with
    | Some md => md
    | None => Mod.mk "" None None []
    end.

(** A course whose second module is empty: one lesson, no lesson, one
    lesson; and the events that pass the first lesson and press the button
    to the next lesson twice. *)
Definition hollow_roadmap : Response :=
  Parsed (JArr [module_json "Vectors" [lesson_json "Vector spaces"];
                module_json "Matrices" [];
                module_json "Spectra" [lesson_json "Eigenvalues"]]).

Definition hollow_course : Course.t :=
  Eval vm_compute in
    Course.mk "course-2" "Linear Algebra"
      (match generateRoadmap hollow_roadmap with Ok ms => ms | Throw _ => [] end)
      0 0 2.

(** The code units of [{"a":1}]. *)
Definition sample_body : text := [123; 34; 97; 34; 58; 49; 125]%N.

(** A roadmap whose first module has no lesson, and a response that is not
    of the expected module shape: one module without title and description,
    its lessons a number, a string, a boolean and an array. *)
Definition headless_roadmap : Response :=
  Parsed (JArr [module_json "Preface" [];
                module_json "Vectors" [lesson_json "Vector spaces"]]).

Definition malformed_roadmap : Response :=
  Parsed (JArr [JObj [("lessons",
                       JArr [JNum 1; JStr "x"; JBool true; JArr []])]]).

(** The second lesson of the sample course when the view is mounted, still
    locked; and the first lesson once both are passed, which a click in the
    sidebar comes back to. *)
Definition sample_locked_lesson : Lesson.t :=
  Eval vm_compute in
    match lesson_at (Course.modules (UI.course sample_mounted)) 0 1 with
    | Some x => x
    | None => sample_loaded_lesson
    end.

Definition revisited_lesson : Lesson.t :=
  Eval vm_compute in
    match lesson_at (Course.modules (UI.course both_passed)) 0 0 with
    | Some x => x
    | None => sample_loaded_lesson
    end.

(** A session in which a course is made: the topic, one question, its
    answer, a roadmap that is generated at time 1. *)
Definition sample_session : list SessionEvent :=
  [Handle (TypeTopic "Linear Algebra");
   Handle (StartTopic empty_topic ["Level?"]);
   Handle (Answer "beginner" sample_roadmap 1 2)].

(** The sample course with lesson objects of its own, its first lesson
    generated. *)
Definition sample_world : Shared.world :=
  Eval vm_compute in Shared.share (UI.course sample_mounted).

#[global] Arguments get_prop : simpl never.
#[global] Arguments js_map : simpl never.
#[global] Arguments lesson_at : simpl never.
#[global] Arguments assign_lesson : simpl never.

(** * Properties *)

(** ** Lookups and assignments *)

Lemma lesson_at_alter (g : Lesson.t → Lesson.t) (ms : list Mod.t) (m l m' l' : nat) :
  lesson_at (alter (λ md, Mod.set_lessons (alter g l (Mod.lessons md)) md) m ms) m' l'
  = if decide (m = m' ∧ l = l') then g <$> lesson_at ms m l else lesson_at ms m' l'.
Proof.
  unfold lesson_at. rewrite list_lookup_alter.
  destruct (decide (m = m')) as [->|Hm].
  - destruct (ms !! m') as [md|] eqn:E; simpl.
    + rewrite list_lookup_alter.
      destruct (decide (l = l')) as [->|Hl].
      * rewrite decide_True by done. done.
      * rewrite decide_False by (intros [_ ?]; done). done.
    + case_decide; done.
  - rewrite decide_False by (intros [? _]; done). done.
Qed.

Lemma lesson_at_assign f m l ms ms' m' l' :
  assign_lesson f m l ms = Ok ms' →
  lesson_at ms' m' l'
  = if decide (m = m' ∧ l = l') then f <$> lesson_at ms m l else lesson_at ms m' l'.
Proof.
  unfold assign_lesson. destruct (lesson_at ms m l) eqn:E; [|done].
  intros [= <-]. rewrite lesson_at_alter, E. done.
Qed.

Lemma assign_lesson_ok f m l ms x :
  lesson_at ms m l = Some x → ∃ ms', assign_lesson f m l ms = Ok ms'.
Proof. unfold assign_lesson. intros ->. eauto. Qed.

Lemma assign_lesson_throw f m l ms :
  lesson_at ms m l = None → assign_lesson f m l ms = Throw TypeError.
Proof. unfold assign_lesson. intros ->. done. Qed.

Lemma imapM_from_lookup {A B} (f : A → nat → result B) l : ∀ i ys,
  imapM_from f i l = Ok ys →
  length ys = length l ∧
  ∀ k y, ys !! k = Some y → ∃ x, l !! k = Some x ∧ f x (i + k) = Ok y.
Proof.
  induction l as [|x l IH]; intros i ys; simpl.
  - intros [= <-]. split; [done|]. intros k y. rewrite lookup_nil. done.
  - destruct (f x i) as [y0|] eqn:Ef; simpl; [|done].
    destruct (imapM_from f (S i) l) as [ys0|] eqn:Er; simpl; [|done].
    intros [= <-]. destruct (IH _ _ Er) as [Hlen Hk]. split; [simpl; lia|].
    intros [|k] y; simpl.
    + intros [= <-]. exists x. rewrite Nat.add_0_r. done.
    + intros Hy. destruct (Hk _ _ Hy) as (x' & ? & ?). exists x'.
      replace (i + S k) with (S i + k) by lia. done.
Qed.

Lemma js_map_lookup {B} (v : jsval) (f : json → nat → result B) ys :
  js_map v f = Ok ys →
  ∃ items, v = Some (JArr items) ∧ length ys = length items ∧
    ∀ k y, ys !! k = Some y → ∃ x, items !! k = Some x ∧ f x k = Ok y.
Proof.
  destruct v as [[| | | |items|]|]; unfold js_map; try done.
  intros H. exists items. split; [done|].
  destruct (imapM_from_lookup _ _ _ _ H) as [Hlen Hk]. split; [done|].
  intros k y Hy. destruct (Hk _ _ Hy) as (x & ? & ?). eauto.
Qed.

Lemma imapM_from_is_ok {A B} (f : A → nat → result B) (p : A → bool) l :
  (∀ x i, is_ok (f x i) = p x) →
  ∀ i, is_ok (imapM_from f i l) = forallb p l.
Proof.
  intros Hf. induction l as [|x l IH]; intros i; simpl; [done|].
  rewrite <- (Hf x i), <- (IH (S i)).
  destruct (f x i); simpl; [|done].
  destruct (imapM_from f (S i) l); done.
Qed.

(** ** The generators *)

Lemma make_lesson_fields mIdx st l lIdx x :
  make_lesson mIdx st l lIdx = Ok x →
  Lesson.id x = lesson_id mIdx lIdx ∧ Lesson.status x = st lIdx ∧
  Lesson.content x = None ∧ Lesson.imageUrl x = None ∧
  Lesson.videoUrl x = None ∧ Lesson.quiz x = None ∧
  Lesson.codingChallenges x = None.
Proof.
  unfold make_lesson.
  destruct (get_prop (Some l) "title"); simpl; [|done].
  destruct (get_prop (Some l) "description"); simpl; [|done].
  intros [= <-]. done.
Qed.

Lemma make_module_lessons offset st m mIdx md :
  make_module offset st m mIdx = Ok md →
  Mod.id md = module_id (offset + mIdx) ∧
  ∀ l x, Mod.lessons md !! l = Some x →
    Lesson.id x = lesson_id (offset + mIdx) l ∧ Lesson.status x = st mIdx l ∧
    Lesson.content x = None ∧ Lesson.quiz x = None.
Proof.
  unfold make_module.
  destruct (get_prop (Some m) "title"); simpl; [|done].
  destruct (get_prop (Some m) "description"); simpl; [|done].
  destruct (get_prop (Some m) "lessons") as [ls|]; simpl; [|done].
  destruct (js_map ls _) as [lessons|] eqn:E; simpl; [|done].
  intros [= <-]. split; [done|]. simpl. intros l x Hx.
  destruct (js_map_lookup _ _ _ E) as (items & _ & _ & Hk).
  destruct (Hk _ _ Hx) as (y & _ & Hy).
  apply make_lesson_fields in Hy as (? & ? & ? & _ & _ & ? & _). done.
Qed.

Lemma generated_lessons raw offset st ms :
  js_map raw (make_module offset st) = Ok ms →
  ∀ m l x, lesson_at ms m l = Some x →
    Lesson.id x = lesson_id (offset + m) l ∧ Lesson.status x = st m l ∧
    Lesson.content x = None ∧ Lesson.quiz x = None.
Proof.
  intros E m l x. unfold lesson_at.
  destruct (ms !! m) as [md|] eqn:Em; simpl; [|done]. intros Hx.
  destruct (js_map_lookup _ _ _ E) as (items & _ & _ & Hk).
  destruct (Hk _ _ Em) as (y & _ & Hy).
  apply make_module_lessons in Hy as [_ Hy]. by apply Hy.
Qed.

Lemma generateRoadmap_raw r ms :
  generateRoadmap r = Ok ms →
  ∃ raw, js_map raw (make_module 0 roadmap_status) = Ok ms.
Proof.
  unfold generateRoadmap.
  destruct (callMistral r); simpl; [|done].
  destruct (try_catch _ _) as [raw|]; simpl; [|done]. eauto.
Qed.

Lemma expandCourse_raw c r ms :
  expandCourse c r = Ok ms →
  ∃ raw, js_map raw (make_module (length (Course.modules c)) (λ _ _, locked)) = Ok ms.
Proof.
  unfold expandCourse.
  destruct (callMistral r); simpl; [|done].
  destruct (try_catch _ _) as [raw|]; simpl; [|done]. eauto.
Qed.

Lemma make_lesson_is_ok mIdx st l lIdx :
  is_ok (make_lesson mIdx st l lIdx) = lesson_entry_ok l.
Proof. by destruct l. Qed.

Lemma make_module_is_ok offset st m mIdx :
  is_ok (make_module offset st m mIdx) = module_entry_ok m.
Proof.
  unfold make_module, get_prop, js_map.
  destruct m as [| | | | |fields]; simpl; try done.
  destruct (assoc_last "lessons" fields) as [[| | | |ls|]|]; simpl; try done.
  rewrite <- (imapM_from_is_ok (make_lesson (offset + mIdx) (st mIdx))
                lesson_entry_ok ls (make_lesson_is_ok _ _) 0).
  by destruct (imapM_from _ 0 ls).
Qed.

Lemma js_map_modules_is_ok offset st raw :
  is_ok (js_map raw (make_module offset st))
  = match raw with
    | Some (JArr ms) => forallb module_entry_ok ms
    | _ => false
    end.
Proof.
  destruct raw as [[| | | |ms|]|]; unfold js_map; try done.
  apply imapM_from_is_ok. intros. apply make_module_is_ok.
Qed.

(** [generateRoadmap] returns exactly on the responses it can map. *)
Lemma generateRoadmap_is_ok r : is_ok (generateRoadmap r) = roadmap_mappable r.
Proof.
  destruct r as [| |v]; try done.
  unfold generateRoadmap, roadmap_mappable; simpl.
  destruct v as [| | | |items|fields]; unfold unwrap_modules, get_prop; simpl;
    try done.
  - apply js_map_modules_is_ok.
  - unfold js_or. destruct (truthy (assoc_last "modules" fields)); simpl;
      apply js_map_modules_is_ok.
Qed.

(** ** Course creation *)

Lemma generateRoadmap_entries r ms :
  generateRoadmap r = Ok ms →
  js_map (Some (JArr (roadmap_entries r))) (make_module 0 roadmap_status) = Ok ms.
Proof.
  destruct r as [| |v]; try done.
  unfold generateRoadmap, roadmap_entries; simpl.
  destruct v as [| | | |items|fields]; unfold unwrap_modules, get_prop; simpl;
    try done.
  unfold js_or.
  destruct (truthy (assoc_last "modules" fields)); simpl;
    by destruct (assoc_last _ fields) as [[]|].
Qed.

Lemma make_module_entries offset st m mIdx md :
  make_module offset st m mIdx = Ok md →
  length (Mod.lessons md) = length (lesson_entries m).
Proof.
  unfold make_module, lesson_entries, get_prop.
  destruct m as [| | | | |fields]; simpl; try done.
  destruct (assoc_last "title" fields), (assoc_last "description" fields);
    simpl;
    (destruct (assoc_last "lessons" fields) as [ls|]; simpl; [|done]);
    (destruct (js_map (Some ls) _) as [lessons|] eqn:E; simpl; [|done]);
    intros [= <-]; simpl;
    destruct (js_map_lookup _ _ _ E) as (items & [= ->] & Hlen & _); done.
Qed.

Lemma roadmap_mappable_shaped r :
  expected_module_shape r = true → roadmap_mappable r = true.
Proof.
  unfold expected_module_shape, roadmap_mappable.
  destruct r as [| |v]; try done.
  destruct (envelope v) as [[| | | |ms|]|]; try done.
  rewrite !forallb_forall. intros H m Hm. specialize (H m Hm).
  unfold module_shaped, module_entry_ok in *.
  destruct m as [| | | | |fields]; try done.
  apply andb_true_iff in H as [_ H].
  destruct (assoc_last "lessons" fields) as [[| | | |ls|]|]; try done.
  rewrite forallb_forall in *. intros l Hl. specialize (H l Hl).
  by destruct l.
Qed.

(** C6, as the code has it.  The course made when the roadmap generation
    completes is the active one and starts at position (0, 0); it has one
    module for each module entry of the response and in each one lesson for
    each lesson entry; every lesson other than the first of the first
    module is [locked]; and when the first module entry has a lesson, the
    first lesson of the first module is there, is the current lesson and is
    [unlocked]. *)
Theorem fresh_course_statuses (app : App.t) (answer : string) (r : Response)
    (now1 now2 : nat) :
  length (questions (App.clarification app))
    ≤ currentQuestionIndex (App.clarification app) + 1 →
  roadmap_mappable r = true →
  ∃ c : Course.t,
    App.courses (handleClarificationAnswer app answer r now1 now2)
      = App.courses app ++ [c]
    ∧ App.activeCourseId (handleClarificationAnswer app answer r now1 now2)
      = Some (Course.id c)
    ∧ generateRoadmap r = Ok (Course.modules c)
    ∧ Course.currentModuleIndex c = 0 ∧ Course.currentLessonIndex c = 0
    ∧ length (Course.modules c) = length (roadmap_entries r)
    ∧ (∀ k m, roadmap_entries r !! k = Some m →
         shape (Course.modules c) k = Some (length (lesson_entries m)))
    ∧ (∀ m l x, lesson_at (Course.modules c) m l = Some x →
         Lesson.status x = if decide (m = 0 ∧ l = 0) then unlocked else locked)
    ∧ (∀ m0, roadmap_entries r !! 0 = Some m0 → lesson_entries m0 ≠ [] →
         ∃ x, activeLesson c = Some x ∧ Lesson.status x = unlocked).
Proof.
  intros Hlast Hmap. rewrite <- generateRoadmap_is_ok in Hmap.
  destruct (generateRoadmap r) as [ms|] eqn:Hgen; [clear Hmap|done].
  unfold handleClarificationAnswer.
  rewrite (proj2 (Nat.leb_le _ _) Hlast), Hgen.
  eexists. split; [reflexivity|]. simpl.
  pose proof (generateRoadmap_entries _ _ Hgen) as Hraw.
  destruct (js_map_lookup _ _ _ Hraw) as (items & [= <-] & Hlen & Hk).
  assert (Hshape : ∀ k m, roadmap_entries r !! k = Some m →
            shape ms k = Some (length (lesson_entries m))).
  { intros k m Hm. unfold shape.
    destruct (lookup_lt_is_Some_2 ms k) as [md Hmd].
    { rewrite Hlen. by eapply lookup_lt_Some. }
    rewrite Hmd. simpl. destruct (Hk _ _ Hmd) as (m' & Hm' & Hmk).
    rewrite Hm in Hm'. injection Hm' as <-.
    f_equal. by eapply make_module_entries. }
  assert (Hst : ∀ m l x, lesson_at ms m l = Some x →
            Lesson.status x = if decide (m = 0 ∧ l = 0) then unlocked else locked).
  { intros m l x Hx.
    destruct (generated_lessons _ _ _ _ Hraw _ _ _ Hx) as (_ & -> & _).
    unfold roadmap_status. destruct m, l; done. }
  repeat split; try done.
  intros m0 Hm0 Hne. pose proof (Hshape 0 m0 Hm0) as H0.
  unfold shape in H0. unfold activeLesson, lesson_at. simpl.
  destruct (ms !! 0) as [md|] eqn:Emd; [|done]. simpl in *.
  injection H0 as H0.
  destruct (Mod.lessons md) as [|x ls] eqn:Els.
  { destruct (lesson_entries m0); [done|simpl in H0; lia]. }
  exists x. split; [done|].
  rewrite (Hst 0 0 x); [done|]. unfold lesson_at. rewrite Emd. simpl.
  by rewrite Els.
Qed.

Lemma fresh_course_statuses_witness :
  ∃ c : Course.t,
    App.courses (handleClarificationAnswer sample_app "beginner" sample_roadmap 1 2)
      = App.courses sample_app ++ [c]
    ∧ App.activeCourseId
        (handleClarificationAnswer sample_app "beginner" sample_roadmap 1 2)
      = Some (Course.id c)
    ∧ generateRoadmap sample_roadmap = Ok (Course.modules c)
    ∧ Course.currentModuleIndex c = 0 ∧ Course.currentLessonIndex c = 0
    ∧ length (Course.modules c) = length (roadmap_entries sample_roadmap)
    ∧ (∀ k m, roadmap_entries sample_roadmap !! k = Some m →
         shape (Course.modules c) k = Some (length (lesson_entries m)))
    ∧ (∀ m l x, lesson_at (Course.modules c) m l = Some x →
         Lesson.status x = if decide (m = 0 ∧ l = 0) then unlocked else locked)
    ∧ (∀ m0, roadmap_entries sample_roadmap !! 0 = Some m0 →
         lesson_entries m0 ≠ [] →
         ∃ x, activeLesson c = Some x ∧ Lesson.status x = unlocked).
Proof.
  apply (fresh_course_statuses sample_app "beginner" sample_roadmap 1 2);
    [simpl; lia | reflexivity].
Defined.

(** C6, as the specification states it, fails: nothing is checked of what
    the generator is answered, and from a roadmap whose first module has no
    lesson a course is made all the same; it has no first lesson of the
    first module, its only lesson is [locked] and no lesson is current. *)
Lemma course_without_first_lesson :
  ∃ c : Course.t,
    App.courses (handleClarificationAnswer sample_app "beginner" headless_roadmap 1 2)
      = [c]
    ∧ App.activeCourseId
        (handleClarificationAnswer sample_app "beginner" headless_roadmap 1 2)
      = Some (Course.id c)
    ∧ App.appState
        (handleClarificationAnswer sample_app "beginner" headless_roadmap 1 2)
      = LEARNING
    ∧ lesson_at (Course.modules c) 0 0 = None
    ∧ activeLesson c = None
    ∧ status_at (Course.modules c) 1 0 = Some locked
    ∧ ∀ m l, status_at (Course.modules c) m l ≠ Some unlocked.
Proof.
  eexists. split; [reflexivity|]. repeat split; try reflexivity.
  intros [|[|m]] [|l]; done.
Qed.

(** C7, as the code has it.  When the response to the roadmap request is one
    the generator cannot map (the request is rejected, the text is no JSON,
    no array is found in it, a module entry is no object with an array of
    lessons, or a lesson entry is [null]), answering a clarifying question
    adds no course and leaves the active course id as it was, and when the
    answer was the last one (the one that starts the generation) the
    application is back in its [INITIAL] state.  A response of the module
    shape the specification expects can be mapped; and on every response
    that can be mapped the last answer makes a course and activates it. *)
Theorem failed_roadmap_creates_no_course (app : App.t) (answer : string)
    (r : Response) (now1 now2 : nat) :
  (roadmap_mappable r = false →
   App.courses (handleClarificationAnswer app answer r now1 now2)
     = App.courses app
   ∧ App.activeCourseId (handleClarificationAnswer app answer r now1 now2)
     = App.activeCourseId app
   ∧ (length (questions (App.clarification app))
        ≤ currentQuestionIndex (App.clarification app) + 1 →
      App.appState (handleClarificationAnswer app answer r now1 now2) = INITIAL))
  ∧ (expected_module_shape r = true → roadmap_mappable r = true)
  ∧ (roadmap_mappable r = true →
     length (questions (App.clarification app))
       ≤ currentQuestionIndex (App.clarification app) + 1 →
     ∃ c, App.courses (handleClarificationAnswer app answer r now1 now2)
          = App.courses app ++ [c]
        ∧ App.activeCourseId (handleClarificationAnswer app answer r now1 now2)
          = Some (Course.id c)
        ∧ App.appState (handleClarificationAnswer app answer r now1 now2)
          = LEARNING).
Proof.
  split; [|split].
  - intros Hshape. rewrite <- generateRoadmap_is_ok in Hshape.
    unfold handleClarificationAnswer.
    destruct (generateRoadmap r) as [ms|e]; [done|].
    destruct (Nat.leb_spec (length (questions (App.clarification app)))
                (currentQuestionIndex (App.clarification app) + 1));
      simpl; repeat split; try done. lia.
  - apply roadmap_mappable_shaped.
  - intros Hmap Hlast. rewrite <- generateRoadmap_is_ok in Hmap.
    unfold handleClarificationAnswer.
    rewrite (proj2 (Nat.leb_le _ _) Hlast).
    destruct (generateRoadmap r) as [ms|e]; [|done].
    eexists. by repeat split.
Qed.

Lemma failed_roadmap_creates_no_course_witness :
  (App.courses (handleClarificationAnswer sample_app "beginner" sample_bad_roadmap 1 2)
     = App.courses sample_app
   ∧ App.activeCourseId
       (handleClarificationAnswer sample_app "beginner" sample_bad_roadmap 1 2)
     = App.activeCourseId sample_app
   ∧ App.appState
       (handleClarificationAnswer sample_app "beginner" sample_bad_roadmap 1 2)
     = INITIAL)
  ∧ roadmap_mappable sample_roadmap = true
  ∧ ∃ c, App.courses (handleClarificationAnswer sample_app "beginner" sample_roadmap 1 2)
         = App.courses sample_app ++ [c]
       ∧ App.activeCourseId
           (handleClarificationAnswer sample_app "beginner" sample_roadmap 1 2)
         = Some (Course.id c)
       ∧ App.appState
           (handleClarificationAnswer sample_app "beginner" sample_roadmap 1 2)
         = LEARNING.
Proof.
  destruct (failed_roadmap_creates_no_course sample_app "beginner"
              sample_bad_roadmap 1 2) as (Hfail & _ & _).
  destruct (failed_roadmap_creates_no_course sample_app "beginner"
              sample_roadmap 1 2) as (_ & Hshaped & Hmade).
  destruct (Hfail eq_refl) as (Hcs & Hid & Hst).
  split; [|split].
  - split; [exact Hcs|]. split; [exact Hid|]. apply Hst. simpl. lia.
  - apply Hshaped. reflexivity.
  - apply Hmade; [reflexivity|simpl; lia].
Defined.

(** C7, as the specification states it, fails: a response that is not of
    the expected module shape (a module without title and description whose
    lessons are a number, a string, a boolean and an array) is mapped all
    the same, and the last answer makes a course of four lessons from it
    and activates it. *)
Lemma malformed_roadmap_makes_a_course :
  expected_module_shape malformed_roadmap = false
  ∧ ∃ c : Course.t,
      App.courses (handleClarificationAnswer sample_app "beginner" malformed_roadmap 1 2)
        = [c]
      ∧ shape (Course.modules c) 0 = Some 4
      ∧ App.activeCourseId
          (handleClarificationAnswer sample_app "beginner" malformed_roadmap 1 2)
        = Some (Course.id c)
      ∧ App.appState
          (handleClarificationAnswer sample_app "beginner" malformed_roadmap 1 2)
        = LEARNING.
Proof. split; [reflexivity|]. eexists. by repeat split. Qed.

(** The course the view is handed after [updateCourse]: the updated one,
    when the course it replaces is the one the repository finds under that
    id. *)
Lemma find_course_updated updated cs c :
  find_course (Course.id updated) cs = Some c →
  find_course (Course.id updated) (handleUpdateActiveCourse updated cs)
  = Some updated.
Proof.
  unfold find_course, handleUpdateActiveCourse.
  induction cs as [|c0 cs IH]; simpl; [done|].
  destruct (decide (Course.id c0 = Course.id updated)) as [E|E].
  - intros _. rewrite (proj2 (String.eqb_eq _ _) E).
    by rewrite decide_True.
  - rewrite (proj2 (String.eqb_neq _ _) E). rewrite decide_False by done.
    rewrite <- !option_fmap_compose. simpl. apply IH.
Qed.

(** The texts are not part of the shape: a module and a lesson without
    [title] and [description] make a course, the fields [undefined]. *)
Example untitled_modules_are_accepted :
  generateRoadmap (Parsed (JArr [JObj [("lessons", JArr [JObj []])]]))
  = Ok [Mod.mk "mod-0" None None
          [Lesson.mk "mod-0-less-0" None None unlocked None None None None None]].
Proof. reflexivity. Qed.

(** ** Course expansion *)

Lemma handleConfirmExpand_inv c r c' :
  handleConfirmExpand c r = Some c' →
  ∃ newModules, expandCourse c r = Ok newModules
    ∧ c' = Course.set_modules (Course.modules c ++ newModules) c.
Proof.
  unfold handleConfirmExpand.
  destruct (expandCourse c r) as [newModules|]; [|done].
  intros [= <-]. eauto.
Qed.

Lemma expanded_old_lesson (ms new : list Mod.t) m l :
  m < length ms → lesson_at (ms ++ new) m l = lesson_at ms m l.
Proof. intros Hm. unfold lesson_at. by rewrite lookup_app_l. Qed.

Lemma expanded_new_lesson c r new m l x :
  expandCourse c r = Ok new →
  length (Course.modules c) ≤ m →
  lesson_at (Course.modules c ++ new) m l = Some x →
  Lesson.status x = locked ∧ Lesson.quiz x = None.
Proof.
  intros E Hm. unfold lesson_at. rewrite lookup_app_r by done. intros Hx.
  destruct (expandCourse_raw _ _ _ E) as [raw Hraw].
  by destruct (generated_lessons _ _ _ _ Hraw (m - length (Course.modules c)) l x Hx)
    as (_ & ? & _ & ?).
Qed.

(** C8: the course handed to the repository by a successful expansion has
    the old module list followed by the new modules: the old modules are a
    prefix of the new list, lesson for lesson, all other fields of the course
    are as before, the module count grows by the number of modules in the
    response, and every lesson of a new module is [locked]. *)
Theorem expansion_appends_locked_modules (c c' : Course.t) (r : Response) :
  handleConfirmExpand c r = Some c' →
  ∃ newModules : list Mod.t,
    expandCourse c r = Ok newModules
    ∧ Course.modules c' = Course.modules c ++ newModules
    ∧ take (length (Course.modules c)) (Course.modules c') = Course.modules c
    ∧ (∀ m l, m < length (Course.modules c) →
         lesson_at (Course.modules c') m l = lesson_at (Course.modules c) m l)
    ∧ length (Course.modules c')
      = length (Course.modules c) + length newModules
    ∧ (∀ m l x, length (Course.modules c) ≤ m →
         lesson_at (Course.modules c') m l = Some x → Lesson.status x = locked)
    ∧ Course.currentModuleIndex c' = Course.currentModuleIndex c
    ∧ Course.currentLessonIndex c' = Course.currentLessonIndex c
    ∧ Course.id c' = Course.id c ∧ Course.topic c' = Course.topic c.
Proof.
  intros H. destruct (handleConfirmExpand_inv _ _ _ H) as (newModules & E & ->).
  exists newModules. simpl.
  split; [done|]. split; [done|]. split; [by rewrite take_app_length|].
  split; [intros m l Hm; by apply expanded_old_lesson|].
  split; [by rewrite length_app|].
  split; [|done].
  intros m l x Hm Hx. by destruct (expanded_new_lesson _ _ _ _ _ _ E Hm Hx).
Qed.

Lemma expansion_appends_locked_modules_witness :
  ∃ newModules : list Mod.t,
    expandCourse sample_course sample_expansion = Ok newModules
    ∧ Course.modules sample_expanded = Course.modules sample_course ++ newModules
    ∧ take (length (Course.modules sample_course)) (Course.modules sample_expanded)
      = Course.modules sample_course
    ∧ (∀ m l, m < length (Course.modules sample_course) →
         lesson_at (Course.modules sample_expanded) m l
         = lesson_at (Course.modules sample_course) m l)
    ∧ length (Course.modules sample_expanded)
      = length (Course.modules sample_course) + length newModules
    ∧ (∀ m l x, length (Course.modules sample_course) ≤ m →
         lesson_at (Course.modules sample_expanded) m l = Some x →
         Lesson.status x = locked)
    ∧ Course.currentModuleIndex sample_expanded
      = Course.currentModuleIndex sample_course
    ∧ Course.currentLessonIndex sample_expanded
      = Course.currentLessonIndex sample_course
    ∧ Course.id sample_expanded = Course.id sample_course
    ∧ Course.topic sample_expanded = Course.topic sample_course.
Proof.
  apply (expansion_appends_locked_modules sample_course sample_expanded
           sample_expansion). reflexivity.
Defined.

(** ** The lesson handlers *)

Lemma assign_lesson_lookup f m l ms ms' m' :
  assign_lesson f m l ms = Ok ms' →
  ms' !! m'
  = if decide (m = m')
    then (λ md, Mod.set_lessons (alter f l (Mod.lessons md)) md) <$> ms !! m'
    else ms !! m'.
Proof.
  unfold assign_lesson. destruct (lesson_at ms m l); [|done].
  intros [= <-]. rewrite list_lookup_alter. by case_decide; subst.
Qed.

Lemma assign_lesson_length f m l ms ms' :
  assign_lesson f m l ms = Ok ms' → length ms' = length ms.
Proof.
  unfold assign_lesson. destruct (lesson_at ms m l); [|done].
  intros [= <-]. apply length_alter.
Qed.

Lemma next_position_assign f m l ms ms' m0 l0 :
  assign_lesson f m l ms = Ok ms' →
  next_position ms' m0 l0 = next_position ms m0 l0.
Proof.
  intros H. unfold next_position. rewrite (assign_lesson_lookup _ _ _ _ _ m0 H).
  case_decide; [|done]. destruct (ms !! m0); [|done]. simpl.
  by rewrite length_alter.
Qed.

Lemma position_exists_lesson_at ms p :
  position_exists ms p = true ↔ is_Some (lesson_at ms p.1 p.2).
Proof.
  unfold position_exists, lesson_at. destruct (ms !! p.1) as [md|]; simpl.
  - rewrite Nat.ltb_lt. symmetry. apply lookup_lt_is_Some.
  - split; [done|]. by intros [? ?].
Qed.

Lemma next_position_neq ms m l p : next_position ms m l = Ok p → p ≠ (m, l).
Proof.
  unfold next_position. destruct (ms !! m); [|done].
  case_match; intros [= <-] Heq; inversion Heq; lia.
Qed.

(** What [markLessonCompleted] returns on a course whose current lesson is
    there: the current lesson with status [completed], every other lesson
    and the current position as they were. *)
Lemma markLessonCompleted_spec c x :
  activeLesson c = Some x →
  ∃ c', markLessonCompleted c = Ok c'
    ∧ Course.currentModuleIndex c' = Course.currentModuleIndex c
    ∧ Course.currentLessonIndex c' = Course.currentLessonIndex c
    ∧ Course.id c' = Course.id c
    ∧ length (Course.modules c') = length (Course.modules c)
    ∧ ∀ m l, lesson_at (Course.modules c') m l
        = if decide (Course.currentModuleIndex c = m ∧ Course.currentLessonIndex c = l)
          then Some (Lesson.set_status completed x)
          else lesson_at (Course.modules c) m l.
Proof.
  unfold activeLesson, markLessonCompleted. intros Hx.
  destruct (assign_lesson_ok (Lesson.set_status completed) _ _ _ _ Hx) as [ms' E].
  rewrite E. simpl. eexists. split; [reflexivity|]. simpl.
  repeat split; [by eapply assign_lesson_length|].
  intros m l. rewrite (lesson_at_assign _ _ _ _ _ _ _ E), Hx. done.
Qed.

Lemma markLessonCompleted_throw c :
  activeLesson c = None → markLessonCompleted c = Throw TypeError.
Proof.
  unfold activeLesson, markLessonCompleted. intros Hx.
  by rewrite (assign_lesson_throw _ _ _ _ Hx).
Qed.

(** What [submitQuiz] returns on a course whose current lesson is there. *)
Lemma submitQuiz_spec c x :
  activeLesson c = Some x →
  ∃ c' next,
    submitQuiz c = Ok c'
    ∧ next_position (Course.modules c) (Course.currentModuleIndex c)
        (Course.currentLessonIndex c) = Ok next
    ∧ Course.currentModuleIndex c' = Course.currentModuleIndex c
    ∧ Course.currentLessonIndex c' = Course.currentLessonIndex c
    ∧ Course.id c' = Course.id c
    ∧ length (Course.modules c') = length (Course.modules c)
    ∧ ∀ m l, lesson_at (Course.modules c') m l
        = if decide (Course.currentModuleIndex c = m ∧ Course.currentLessonIndex c = l)
          then Some (Lesson.set_status completed x)
          else if decide (next.1 = m ∧ next.2 = l)
          then Lesson.set_status unlocked <$> lesson_at (Course.modules c) m l
          else lesson_at (Course.modules c) m l.
Proof.
  unfold activeLesson, submitQuiz. intros Hx.
  set (cm := Course.currentModuleIndex c) in *.
  set (cl := Course.currentLessonIndex c) in *.
  destruct (assign_lesson_ok (Lesson.set_status completed) _ _ _ _ Hx) as [ms1 E1].
  rewrite E1. simpl.
  rewrite (next_position_assign _ _ _ _ _ cm cl E1).
  destruct (next_position (Course.modules c) cm cl) as [next|] eqn:En.
  2:{ unfold next_position, lesson_at in *.
      destruct (Course.modules c !! cm); [by case_match|by simplify_eq/=]. }
  simpl. pose proof (next_position_neq _ _ _ _ En) as Hne.
  assert (Hcur : ∀ m l, lesson_at ms1 m l
            = if decide (cm = m ∧ cl = l)
              then Some (Lesson.set_status completed x)
              else lesson_at (Course.modules c) m l).
  { intros m l. rewrite (lesson_at_assign _ _ _ _ _ _ _ E1), Hx. done. }
  destruct (position_exists ms1 next) eqn:Ep.
  - apply position_exists_lesson_at in Ep as [y Hy].
    destruct (assign_lesson_ok (Lesson.set_status unlocked) _ _ _ _ Hy) as [ms2 E2].
    rewrite E2. simpl. exists (Course.set_modules ms2 c), next.
    split; [done|]. split; [done|]. simpl.
    repeat split.
    { rewrite (assign_lesson_length _ _ _ _ _ E2). by eapply assign_lesson_length. }
    intros m l. rewrite (lesson_at_assign _ _ _ _ _ _ _ E2).
    destruct (decide (cm = m ∧ cl = l)) as [[<- <-]|Hn1].
    + rewrite decide_False; [|intros [? ?]; apply Hne; by destruct next; simplify_eq/=].
      rewrite Hcur. by rewrite decide_True.
    + destruct (decide (next.1 = m ∧ next.2 = l)) as [[<- <-]|Hn2].
      * rewrite Hcur. rewrite decide_False; [done|].
        intros [? ?]; apply Hne; by destruct next; simplify_eq/=.
      * rewrite Hcur. by rewrite decide_False.
  - simpl. exists (Course.set_modules ms1 c), next.
    split; [done|]. split; [done|]. simpl.
    repeat split; [by eapply assign_lesson_length|].
    intros m l. rewrite Hcur. case_decide; [done|].
    destruct (decide (next.1 = m ∧ next.2 = l)) as [[<- <-]|Hn2]; [|done].
    assert (lesson_at ms1 next.1 next.2 = None) as Hnone.
    { destruct (lesson_at ms1 next.1 next.2) eqn:E; [|done].
      assert (position_exists ms1 next = true) by (apply position_exists_lesson_at; eauto).
      congruence. }
    rewrite Hcur in Hnone. rewrite decide_False in Hnone by done.
    by rewrite Hnone.
Qed.

Lemma submitQuiz_throw c : activeLesson c = None → submitQuiz c = Throw TypeError.
Proof.
  unfold activeLesson, submitQuiz. intros Hx.
  by rewrite (assign_lesson_throw _ _ _ _ Hx).
Qed.

(** ** The lesson effect leaves the progression as it is *)

Lemma update_active_position f c :
  Course.currentModuleIndex (update_active f c) = Course.currentModuleIndex c
  ∧ Course.currentLessonIndex (update_active f c) = Course.currentLessonIndex c
  ∧ Course.id (update_active f c) = Course.id c
  ∧ Course.topic (update_active f c) = Course.topic c.
Proof. unfold update_active. by destruct (assign_lesson _ _ _ _). Qed.

Lemma update_active_lesson_at f c m l :
  lesson_at (Course.modules (update_active f c)) m l
  = if decide (Course.currentModuleIndex c = m ∧ Course.currentLessonIndex c = l)
    then f <$> lesson_at (Course.modules c) m l
    else lesson_at (Course.modules c) m l.
Proof.
  unfold update_active.
  destruct (assign_lesson _ _ _ _) as [ms|] eqn:E; simpl.
  - rewrite (lesson_at_assign _ _ _ _ _ _ _ E). by case_decide as H; [destruct H as [<- <-]|].
  - unfold assign_lesson in E.
    destruct (lesson_at _ _ _) eqn:E'; [done|].
    case_decide as H; [destruct H as [<- <-]; by rewrite E'|done].
Qed.

Section frame.
Context {A : Type} (g : Lesson.t → A).
Hypothesis g_imageUrl : ∀ u x, g (Lesson.set_imageUrl u x) = g x.
Hypothesis g_generated : ∀ t q cs i x, g (Lesson.set_generated t q cs i x) = g x.

Lemma update_active_frame f c m l :
  (∀ x, g (f x) = g x) →
  g <$> lesson_at (Course.modules (update_active f c)) m l
  = g <$> lesson_at (Course.modules c) m l.
Proof.
  intros Hf. rewrite update_active_lesson_at. case_decide; [|done].
  destruct (lesson_at _ m l); simpl; [by rewrite Hf|done].
Qed.

Lemma loadLesson_frame gw s m l :
  g <$> lesson_at (Course.modules (UI.course (loadLesson gw s))) m l
  = g <$> lesson_at (Course.modules (UI.course s)) m l.
Proof.
  unfold loadLesson. destruct (activeLesson (UI.course s)); [|done].
  repeat case_match; simpl; try done; by apply update_active_frame.
Qed.

Lemma run_effect_frame gw s m l :
  g <$> lesson_at (Course.modules (UI.course (run_effect gw s))) m l
  = g <$> lesson_at (Course.modules (UI.course s)) m l.
Proof.
  unfold run_effect. repeat case_match; try done. apply loadLesson_frame.
Qed.

Lemma rerender_frame gw s m l :
  g <$> lesson_at (Course.modules (UI.course (rerender gw s))) m l
  = g <$> lesson_at (Course.modules (UI.course s)) m l.
Proof.
  unfold rerender. case_decide; [done|]. by rewrite run_effect_frame.
Qed.

Lemma mount_frame gw c calls m l :
  g <$> lesson_at (Course.modules (UI.course (mount gw c calls))) m l
  = g <$> lesson_at (Course.modules c) m l.
Proof. unfold mount. by rewrite run_effect_frame. Qed.
End frame.

Lemma loadLesson_position gw s :
  Course.currentModuleIndex (UI.course (loadLesson gw s))
    = Course.currentModuleIndex (UI.course s)
  ∧ Course.currentLessonIndex (UI.course (loadLesson gw s))
    = Course.currentLessonIndex (UI.course s).
Proof.
  unfold loadLesson. destruct (activeLesson (UI.course s)); [|done].
  repeat case_match; simpl; try done;
    match goal with
    | |- context [update_active ?f ?c] =>
        by destruct (update_active_position f c) as (-> & -> & _)
    end.
Qed.

(** All fields of a lesson other than the current one are as they were. *)
Lemma loadLesson_other gw s m l :
  ¬ (Course.currentModuleIndex (UI.course s) = m
     ∧ Course.currentLessonIndex (UI.course s) = l) →
  lesson_at (Course.modules (UI.course (loadLesson gw s))) m l
  = lesson_at (Course.modules (UI.course s)) m l.
Proof.
  intros Hne. unfold loadLesson. destruct (activeLesson (UI.course s)); [|done].
  repeat case_match; simpl; try done;
    by rewrite update_active_lesson_at, decide_False.
Qed.

Lemma run_effect_position gw s :
  Course.currentModuleIndex (UI.course (run_effect gw s))
    = Course.currentModuleIndex (UI.course s)
  ∧ Course.currentLessonIndex (UI.course (run_effect gw s))
    = Course.currentLessonIndex (UI.course s).
Proof.
  unfold run_effect. repeat case_match; try done. apply loadLesson_position.
Qed.

Lemma run_effect_other gw s m l :
  ¬ (Course.currentModuleIndex (UI.course s) = m
     ∧ Course.currentLessonIndex (UI.course s) = l) →
  lesson_at (Course.modules (UI.course (run_effect gw s))) m l
  = lesson_at (Course.modules (UI.course s)) m l.
Proof.
  intros. unfold run_effect. repeat case_match; try done. by apply loadLesson_other.
Qed.

Lemma rerender_position gw s :
  Course.currentModuleIndex (UI.course (rerender gw s))
    = Course.currentModuleIndex (UI.course s)
  ∧ Course.currentLessonIndex (UI.course (rerender gw s))
    = Course.currentLessonIndex (UI.course s).
Proof.
  unfold rerender. case_decide; [done|].
  by destruct (run_effect_position gw
                 (UI.set_depId (lesson_dep (UI.course s)) s)) as [-> ->].
Qed.

Lemma rerender_other gw s m l :
  ¬ (Course.currentModuleIndex (UI.course s) = m
     ∧ Course.currentLessonIndex (UI.course s) = l) →
  lesson_at (Course.modules (UI.course (rerender gw s))) m l
  = lesson_at (Course.modules (UI.course s)) m l.
Proof.
  intros. unfold rerender. case_decide; [done|]. by rewrite run_effect_other.
Qed.

Lemma rerender_status gw s m l :
  status_at (Course.modules (UI.course (rerender gw s))) m l
  = status_at (Course.modules (UI.course s)) m l.
Proof. by apply (rerender_frame Lesson.status). Qed.

Lemma mount_status gw c calls m l :
  status_at (Course.modules (UI.course (mount gw c calls))) m l
  = status_at (Course.modules c) m l.
Proof. by apply (mount_frame Lesson.status). Qed.

Lemma loadLesson_dep gw s :
  UI.depId (loadLesson gw s) = UI.depId s
  ∧ lesson_dep (UI.course (loadLesson gw s)) = lesson_dep (UI.course s).
Proof.
  split.
  - unfold loadLesson. by repeat case_match.
  - unfold lesson_dep, activeLesson.
    destruct (loadLesson_position gw s) as [-> ->].
    by apply (loadLesson_frame Lesson.id).
Qed.

Lemma run_effect_dep gw s :
  UI.depId (run_effect gw s) = UI.depId s
  ∧ lesson_dep (UI.course (run_effect gw s)) = lesson_dep (UI.course s).
Proof. unfold run_effect. repeat case_match; try done. apply loadLesson_dep. Qed.

Lemma rerender_consistent gw s : consistent (rerender gw s).
Proof.
  unfold consistent, rerender. case_decide; [done|].
  by destruct (run_effect_dep gw (UI.set_depId (lesson_dep (UI.course s)) s))
    as [-> ->].
Qed.

Lemma mount_consistent gw c calls : consistent (mount gw c calls).
Proof.
  unfold consistent, mount.
  by destruct (run_effect_dep gw (UI.mk c View.initial (lesson_dep c) calls))
    as [-> ->].
Qed.

Lemma rerender_same_dep gw s :
  lesson_dep (UI.course s) = UI.depId s → rerender gw s = s.
Proof. intros H. unfold rerender. by rewrite decide_True. Qed.

(** ** One event of the view *)

Lemma ui_step_consistent gw s e : consistent s → consistent (ui_step gw s e).
Proof.
  intros Hs. destruct e; simpl; repeat case_match;
    try done; try apply rerender_consistent; apply mount_consistent.
Qed.

Lemma ui_run_consistent gw es : ∀ s, consistent s → consistent (ui_run gw s es).
Proof.
  unfold ui_run. induction es as [|e es IH]; intros s Hs; simpl; [done|].
  by apply IH, ui_step_consistent.
Qed.

Lemma markLessonCompleted_ok_active c c' :
  markLessonCompleted c = Ok c' → is_Some (activeLesson c).
Proof.
  destruct (activeLesson c) eqn:E; [eauto|].
  by rewrite (markLessonCompleted_throw _ E).
Qed.

Lemma submitQuiz_ok_active c c' :
  submitQuiz c = Ok c' → is_Some (activeLesson c).
Proof.
  destruct (activeLesson c) eqn:E; [eauto|].
  by rewrite (submitQuiz_throw _ E).
Qed.

(** What one event can do to the status of the lesson at a position: leave
    it, make it [completed], make it [unlocked] (the submission of a quiz
    only, and only for a lesson that is there), or bring a new lesson,
    [locked] (an expansion). *)
Lemma ui_step_statuses gw s e m l :
  let before := status_at (Course.modules (UI.course s)) m l in
  let after := status_at (Course.modules (UI.course (ui_step gw s e))) m l in
  after = before
  ∨ (is_Some before ∧ after = Some completed)
  ∨ (e = SubmitQuiz ∧ is_Some before ∧ after = Some unlocked)
  ∨ (before = None ∧ after = Some locked).
Proof.
  simpl. destruct e; simpl.
  - (* SelectLesson *)
    unfold handleLessonSelect. repeat case_match; simplify_eq; auto.
    rewrite rerender_status. auto.
  - (* SkipToPractice *)
    case_decide; [|auto].
    destruct (markLessonCompleted (UI.course s)) as [c'|] eqn:E; [|auto].
    destruct (markLessonCompleted_ok_active _ _ E) as [x Hx].
    destruct (markLessonCompleted_spec _ _ Hx) as (c2 & E2 & _ & _ & _ & _ & Hat).
    rewrite E in E2. injection E2 as <-.
    rewrite rerender_status. simpl. unfold status_at. rewrite Hat.
    destruct (decide _) as [[<- <-]|Hc]; [|auto].
    right; left. unfold activeLesson in Hx. rewrite Hx. eauto.
  - repeat case_match; auto.
  - repeat case_match; auto.
  - repeat case_match; auto.
  - auto.
  - repeat case_match; auto.
  - repeat case_match; auto.
  - (* SubmitQuiz *)
    case_match; [|auto].
    destruct (submitQuiz (UI.course s)) as [c'|] eqn:E; [|auto].
    destruct (submitQuiz_ok_active _ _ E) as [x Hx].
    destruct (submitQuiz_spec _ _ Hx) as (c2 & next & E2 & _ & _ & _ & _ & _ & Hat).
    rewrite E in E2. injection E2 as <-.
    rewrite rerender_status. simpl. unfold status_at. rewrite Hat.
    destruct (decide _) as [[<- <-]|Hc].
    { right; left. unfold activeLesson in Hx. rewrite Hx. eauto. }
    destruct (decide (next.1 = m ∧ next.2 = l)); [|auto].
    destruct (lesson_at (Course.modules (UI.course s)) m l); simpl; [|auto].
    right; right; left. eauto.
  - (* NextLesson *)
    unfold moveToNextLesson. repeat case_match; simplify_eq/=; auto;
      destruct (next_position _ _ _); simplify_eq/=; auto;
      case_match; simplify_eq/=; auto.
    rewrite rerender_status. auto.
  - (* ExpandCourse *)
    destruct (handleConfirmExpand (UI.course s) r) as [c'|] eqn:E; [|auto].
    destruct (handleConfirmExpand_inv _ _ _ E) as (new & Hexp & ->).
    rewrite mount_status. unfold status_at. simpl.
    destruct (decide (m < length (Course.modules (UI.course s)))) as [Hm|Hm].
    + rewrite expanded_old_lesson by done. auto.
    + assert (lesson_at (Course.modules (UI.course s)) m l = None) as ->.
      { unfold lesson_at. rewrite lookup_ge_None_2 by lia. done. }
      destruct (lesson_at (Course.modules (UI.course s) ++ new) m l)
        as [x|] eqn:Ex; [|auto].
      right; right; right. simpl. split; [done|].
      f_equal. eapply expanded_new_lesson; [done| |done]. lia.
Qed.

(** ** Skipping a lesson *)

(** C10: the skip button of the READING stage sets the status of the current
    lesson to [completed] and leaves everything else of the course as it
    is: the current position, every field of every other lesson (the next
    lesson among them, which stays [locked] if it was), the other fields of
    the current lesson; the stage becomes CHALLENGE.  And whatever the state
    of the view, an event other than the submission of the quiz gives no
    lesson the status [unlocked]. *)
Theorem skip_completes_only_current_lesson (gw : Gateway) (s : UI.t)
    (x : Lesson.t) :
  consistent s →
  View.viewStage (UI.view s) = READING →
  activeLesson (UI.course s) = Some x →
  Course.currentModuleIndex (UI.course (ui_step gw s SkipToPractice))
    = Course.currentModuleIndex (UI.course s)
  ∧ Course.currentLessonIndex (UI.course (ui_step gw s SkipToPractice))
    = Course.currentLessonIndex (UI.course s)
  ∧ activeLesson (UI.course (ui_step gw s SkipToPractice))
    = Some (Lesson.set_status completed x)
  ∧ (∀ m l,
       ¬ (Course.currentModuleIndex (UI.course s) = m
          ∧ Course.currentLessonIndex (UI.course s) = l) →
       lesson_at (Course.modules (UI.course (ui_step gw s SkipToPractice))) m l
       = lesson_at (Course.modules (UI.course s)) m l)
  ∧ View.viewStage (UI.view (ui_step gw s SkipToPractice)) = CHALLENGE
  ∧ (∀ s0 e m l, e ≠ SubmitQuiz →
       status_at (Course.modules (UI.course (ui_step gw s0 e))) m l = Some unlocked →
       status_at (Course.modules (UI.course s0)) m l = Some unlocked).
Proof.
  intros Hdep Hstage Hx.
  destruct (markLessonCompleted_spec _ _ Hx) as (c' & E & Hm & Hl & _ & _ & Hat).
  assert (ui_step gw s SkipToPractice
          = UI.set_view (View.set_viewStage CHALLENGE (UI.view s))
              (UI.set_course c' s)) as ->.
  { simpl. rewrite decide_True by done. rewrite E.
    apply rerender_same_dep. simpl. rewrite Hdep.
    unfold lesson_dep, activeLesson. rewrite Hm, Hl, Hat.
    rewrite decide_True by done. unfold activeLesson in Hx. by rewrite Hx. }
  simpl. split; [done|]. split; [done|]. split.
  { unfold activeLesson. rewrite Hm, Hl, Hat. by rewrite decide_True. }
  split.
  { intros m l Hne. rewrite Hat. by rewrite decide_False. }
  split; [done|].
  intros s0 e m l He Hu.
  destruct (ui_step_statuses gw s0 e m l) as [H|[[_ H]|[[H _]|[_ H]]]]; simpl in H;
    congruence.
Qed.

Lemma skip_completes_only_current_lesson_witness :
  Course.currentModuleIndex (UI.course (ui_step sample_gateway sample_mounted SkipToPractice))
    = Course.currentModuleIndex (UI.course sample_mounted)
  ∧ Course.currentLessonIndex (UI.course (ui_step sample_gateway sample_mounted SkipToPractice))
    = Course.currentLessonIndex (UI.course sample_mounted)
  ∧ activeLesson (UI.course (ui_step sample_gateway sample_mounted SkipToPractice))
    = Some (Lesson.set_status completed sample_loaded_lesson)
  ∧ (∀ m l,
       ¬ (Course.currentModuleIndex (UI.course sample_mounted) = m
          ∧ Course.currentLessonIndex (UI.course sample_mounted) = l) →
       lesson_at (Course.modules (UI.course (ui_step sample_gateway sample_mounted SkipToPractice))) m l
       = lesson_at (Course.modules (UI.course sample_mounted)) m l)
  ∧ View.viewStage (UI.view (ui_step sample_gateway sample_mounted SkipToPractice)) = CHALLENGE
  ∧ (∀ s0 e m l, e ≠ SubmitQuiz →
       status_at (Course.modules (UI.course (ui_step sample_gateway s0 e))) m l = Some unlocked →
       status_at (Course.modules (UI.course s0)) m l = Some unlocked).
Proof.
  apply (skip_completes_only_current_lesson sample_gateway sample_mounted
           sample_loaded_lesson); reflexivity.
Defined.

(** ** Statuses along a run *)

(** A lesson that is [unlocked] or [completed] is never [locked] again, and
    never disappears. *)
Lemma ui_step_never_locks gw s e m l :
  status_at (Course.modules (UI.course s)) m l = Some unlocked
  ∨ status_at (Course.modules (UI.course s)) m l = Some completed →
  status_at (Course.modules (UI.course (ui_step gw s e))) m l = Some unlocked
  ∨ status_at (Course.modules (UI.course (ui_step gw s e))) m l = Some completed.
Proof.
  intros H.
  destruct (ui_step_statuses gw s e m l) as [H'|[[_ H']|[(_ & _ & H')|[H' _]]]];
    simpl in H'; rewrite H' in *; auto.
  destruct H; done.
Qed.

Lemma ui_run_never_locks gw es : ∀ s m l,
  status_at (Course.modules (UI.course s)) m l = Some unlocked
  ∨ status_at (Course.modules (UI.course s)) m l = Some completed →
  status_at (Course.modules (UI.course (ui_run gw s es))) m l = Some unlocked
  ∨ status_at (Course.modules (UI.course (ui_run gw s es))) m l = Some completed.
Proof.
  unfold ui_run. induction es as [|e es IH]; intros s m l H; simpl; [done|].
  by apply IH, ui_step_never_locks.
Qed.

(** C1, on the code: the view over the fresh sample course, both lessons
    passed in turn, has the second lesson [completed]; the first lesson
    selected again and its quiz submitted again, the second lesson is
    [unlocked]. *)
Theorem completed_lesson_reverts_to_unlocked :
  status_at (Course.modules (UI.course both_passed)) 0 1 = Some completed
  ∧ both_passed
    = ui_run sample_gateway (mount sample_gateway sample_course [])
        (pass_lesson ++ [NextLesson] ++ pass_lesson)
  ∧ status_at
      (Course.modules
         (UI.course (ui_run sample_gateway both_passed
                       (SelectLesson 0 0 :: pass_lesson)))) 0 1
    = Some unlocked.
Proof. repeat split; vm_compute; reflexivity. Qed.

(** The scenario of the specification: lesson 1 starts [unlocked] and lesson
    2 [locked]; after the quiz of lesson 1 is submitted lesson 1 is
    [completed] and lesson 2 [unlocked], the first lesson still current. *)
Example linear_algebra_scenario :
  status_at (Course.modules sample_course) 0 0 = Some unlocked
  ∧ status_at (Course.modules sample_course) 0 1 = Some locked
  ∧ status_at
      (Course.modules (UI.course (ui_run sample_gateway sample_mounted pass_lesson)))
      0 0 = Some completed
  ∧ status_at
      (Course.modules (UI.course (ui_run sample_gateway sample_mounted pass_lesson)))
      0 1 = Some unlocked
  ∧ Course.currentLessonIndex
      (UI.course (ui_run sample_gateway sample_mounted pass_lesson)) = 0.
Proof. repeat split; vm_compute; reflexivity. Qed.

(** C2, on the code: on the course with both lessons [completed] and the
    first one current, [submitQuiz] returns a course whose next lesson, at
    (0, 1), is [unlocked]. *)
Theorem submitQuiz_unlocks_completed_next :
  Course.currentModuleIndex revisited_course = 0
  ∧ Course.currentLessonIndex revisited_course = 0
  ∧ status_at (Course.modules revisited_course) 0 1 = Some completed
  ∧ ∃ c', submitQuiz revisited_course = Ok c'
      ∧ status_at (Course.modules c') 0 1 = Some unlocked.
Proof.
  repeat split; try reflexivity.
  eexists. split; [vm_compute; reflexivity|reflexivity].
Qed.

(** ** Submitting a quiz *)














(** ** Selecting a lesson *)

Lemma loadLesson_view_reset gw s x :
  activeLesson (UI.course s) = Some x →
  View.viewStage (UI.view (loadLesson gw s)) = READING
  ∧ View.quizAnswers (UI.view (loadLesson gw s)) = []
  ∧ View.quizSubmitted (UI.view (loadLesson gw s)) = false.
Proof. unfold loadLesson. intros ->. by repeat case_match. Qed.

Lemma handleLessonSelect_unlocked c m l target :
  lesson_at (Course.modules c) m l = Some target →
  Lesson.status target ≠ locked →
  handleLessonSelect c m l = Ok (Some (Course.set_current m l c)).
Proof. unfold handleLessonSelect. intros -> ?. by rewrite decide_False. Qed.

(** ** The lesson cache *)

Lemma loadLesson_cached gw s x :
  activeLesson (UI.course s) = Some x →
  truthy_str (Lesson.content x) = true →
  truthy_str (Lesson.imageUrl x) || truthy_str (Lesson.videoUrl x) = true →
  loadLesson gw s = UI.mk (UI.course s) (cached_view x) (UI.depId s) (UI.calls s).
Proof.
  intros Hx Hc Hi. unfold loadLesson. rewrite Hx, Hc.
  destruct (truthy_str (Lesson.imageUrl x)), (truthy_str (Lesson.videoUrl x));
    done.
Qed.

Lemma loadLesson_fresh gw s x :
  activeLesson (UI.course s) = Some x →
  truthy_str (Lesson.content x) = false →
  let n := length (UI.calls s) in
  let text := generateLessonContent gw n (Course.topic (UI.course s))
                (Lesson.title x) (activeModule (UI.course s) ≫= Mod.title) in
  let quizData := quiz_items (generateQuiz (quizResponse gw (n + 1) text)) in
  let challengeData := generateCodingChallenges gw (n + 2) text in
  let imgData := generateLessonIllustration gw (n + 3)
                   (Course.topic (UI.course s)) (Lesson.title x) in
  loadLesson gw s
  = UI.mk
      (update_active
         (Lesson.set_generated text quizData challengeData (or_absent imgData))
         (UI.course s))
      (View.mk text imgData quizData challengeData READING [] false)
      (UI.depId s)
      (UI.calls s ++ [CallLessonContent; CallQuiz; CallCodingChallenges;
                      CallIllustration]).
Proof. intros Hx Hc. unfold loadLesson. by rewrite Hx, Hc. Qed.

Lemma activeLesson_update_active f c x :
  activeLesson c = Some x → activeLesson (update_active f c) = Some (f x).
Proof.
  intros Hx. unfold activeLesson in *.
  destruct (update_active_position f c) as (-> & -> & _).
  rewrite update_active_lesson_at, decide_True by done. by rewrite Hx.
Qed.

Lemma or_absent_truthy u : truthy_str u = true → or_absent u = u.
Proof. unfold or_absent. by intros ->. Qed.

(** C5: a lesson whose text and illustration (or video) are cached is loaded
    without any gateway call: the call log and the course are as they were
    and the view shows the cached text, quiz, challenges and illustration.
    So a lesson that is loaded for the first time, with a gateway that
    answers a text and an illustration, costs one call of each of the four
    generators, and loading it again changes nothing at all. *)
Theorem cached_lesson_is_not_regenerated (gw : Gateway) (s : UI.t)
    (x : Lesson.t) :
  activeLesson (UI.course s) = Some x →
  truthy_str (Lesson.content x) = true →
  truthy_str (Lesson.imageUrl x) || truthy_str (Lesson.videoUrl x) = true →
  UI.calls (loadLesson gw s) = UI.calls s
  ∧ UI.course (loadLesson gw s) = UI.course s
  ∧ UI.view (loadLesson gw s) = cached_view x
  ∧ ∀ (s0 : UI.t) (x0 : Lesson.t),
      activeLesson (UI.course s0) = Some x0 →
      truthy_str (Lesson.content x0) = false →
      generateLessonContent gw (length (UI.calls s0)) (Course.topic (UI.course s0))
        (Lesson.title x0) (activeModule (UI.course s0) ≫= Mod.title) ≠ "" →
      truthy_str (generateLessonIllustration gw (length (UI.calls s0) + 3)
                    (Course.topic (UI.course s0)) (Lesson.title x0)) = true →
      UI.calls (loadLesson gw s0)
        = UI.calls s0 ++ [CallLessonContent; CallQuiz; CallCodingChallenges;
                          CallIllustration]
      ∧ loadLesson gw (loadLesson gw s0) = loadLesson gw s0.
Proof.
  intros Hx Hc Hi. rewrite (loadLesson_cached gw s x Hx Hc Hi). simpl.
  repeat split.
  - by rewrite (loadLesson_fresh gw s0 x0).
  - rename H into Hx0, H0 into Hc0, H1 into Htext, H2 into Himg.
    rewrite (loadLesson_fresh gw s0 x0 Hx0 Hc0).
    set (text := generateLessonContent gw _ _ _ _) in *.
    set (img := generateLessonIllustration gw _ _ _) in *.
    set (q := quiz_items _). set (cs := generateCodingChallenges gw _ _).
    set (c1 := update_active _ _).
    assert (Hx1 : activeLesson c1
                  = Some (Lesson.set_generated text q cs (or_absent img) x0))
      by by apply activeLesson_update_active.
    match goal with
    | |- loadLesson gw ?s1 = _ => rewrite (loadLesson_cached gw s1 _ Hx1); simpl
    end.
    + unfold cached_view. simpl. by rewrite !(or_absent_truthy img Himg).
    + apply negb_true_iff, String.eqb_neq. done.
    + by rewrite (or_absent_truthy img Himg), Himg.
Qed.

Lemma cached_lesson_is_not_regenerated_witness :
  UI.calls (loadLesson sample_gateway sample_mounted) = UI.calls sample_mounted
  ∧ UI.course (loadLesson sample_gateway sample_mounted) = UI.course sample_mounted
  ∧ UI.view (loadLesson sample_gateway sample_mounted)
    = cached_view sample_loaded_lesson
  ∧ ∀ (s0 : UI.t) (x0 : Lesson.t),
      activeLesson (UI.course s0) = Some x0 →
      truthy_str (Lesson.content x0) = false →
      generateLessonContent sample_gateway (length (UI.calls s0))
        (Course.topic (UI.course s0))
        (Lesson.title x0) (activeModule (UI.course s0) ≫= Mod.title) ≠ "" →
      truthy_str (generateLessonIllustration sample_gateway
                    (length (UI.calls s0) + 3)
                    (Course.topic (UI.course s0)) (Lesson.title x0)) = true →
      UI.calls (loadLesson sample_gateway s0)
        = UI.calls s0 ++ [CallLessonContent; CallQuiz; CallCodingChallenges;
                          CallIllustration]
      ∧ loadLesson sample_gateway (loadLesson sample_gateway s0)
        = loadLesson sample_gateway s0.
Proof.
  apply (cached_lesson_is_not_regenerated sample_gateway sample_mounted
           sample_loaded_lesson); reflexivity.
Defined.

(** Coming to a cached lesson through the sidebar issues no gateway call. *)
Lemma select_cached_lesson_calls gw s m l x :
  lesson_at (Course.modules (UI.course s)) m l = Some x →
  truthy_str (Lesson.content x) = true →
  truthy_str (Lesson.imageUrl x) || truthy_str (Lesson.videoUrl x) = true →
  UI.calls (ui_step gw s (SelectLesson m l)) = UI.calls s.
Proof.
  intros Hx Hc Hi. simpl. unfold handleLessonSelect. rewrite Hx.
  case_decide; [done|]. unfold rerender. case_decide; [done|].
  unfold run_effect. simpl.
  change (activeLesson (Course.set_current m l (UI.course s)))
    with (lesson_at (Course.modules (UI.course s)) m l).
  rewrite Hx. rewrite decide_False by done.
  by rewrite (loadLesson_cached gw _ x).
Qed.

(** The test of the cache is the truthiness of the text: a lesson whose
    cached text is empty is generated again. *)
Example empty_text_is_generated_again :
  UI.calls
    (loadLesson sample_gateway
       (UI.mk (update_active (Lesson.set_generated "" [] [] None) sample_course)
          View.initial (Some "mod-0-less-0") []))
  = [CallLessonContent; CallQuiz; CallCodingChallenges; CallIllustration].
Proof. reflexivity. Qed.

(** The first visit of the first lesson of the sample course costs one call
    of each generator; a second load adds none. *)
Example sample_lesson_loaded_once :
  UI.calls sample_mounted
    = [CallLessonContent; CallQuiz; CallCodingChallenges; CallIllustration]
  ∧ UI.calls (loadLesson sample_gateway sample_mounted) = UI.calls sample_mounted
  ∧ UI.calls (ui_run sample_gateway sample_mounted
                (pass_lesson ++ [NextLesson; SelectLesson 0 0]))
    = UI.calls (ui_run sample_gateway sample_mounted (pass_lesson ++ [NextLesson])).
Proof. repeat split; vm_compute; reflexivity. Qed.

(** ** A lesson without quiz *)

(** [generateQuiz] raises nothing, and on a rejected request, on a text
    that is no JSON and on [null] it returns the empty array. *)
Lemma generateQuiz_total r : ∃ q, generateQuiz r = Ok q.
Proof.
  unfold generateQuiz. destruct r as [| |v]; simpl; eauto.
  destruct v; unfold get_prop; simpl; eauto.
Qed.

Lemma generateQuiz_failure :
  generateQuiz Rejected = Ok (JArr [])
  ∧ generateQuiz NotJson = Ok (JArr [])
  ∧ generateQuiz (Parsed JNull) = Ok (JArr []).
Proof. done. Qed.

Section quizless.
Variable gw : Gateway.
Hypothesis gw_quizless :
  ∀ n text, quiz_items (generateQuiz (quizResponse gw n text)) = [].

Variable P : nat → nat → Prop.

Lemma quiz_free_update_active f c :
  (∀ x, default [] (Lesson.quiz x) = [] → default [] (Lesson.quiz (f x)) = []) →
  quiz_free c → quiz_free (update_active f c).
Proof.
  intros Hf Hc m l x. rewrite update_active_lesson_at.
  case_decide; [|apply Hc].
  destruct (lesson_at (Course.modules c) m l) as [y|] eqn:Hy; simpl; [|done].
  intros [= <-]. apply Hf. by eapply Hc.
Qed.

Lemma loadLesson_quiz_free s :
  View.quiz (UI.view s) = [] → quiz_free (UI.course s) →
  View.quiz (UI.view (loadLesson gw s)) = []
  ∧ quiz_free (UI.course (loadLesson gw s)).
Proof.
  intros Hq Hfree. unfold loadLesson.
  destruct (activeLesson (UI.course s)) as [x|] eqn:Hx; [|done].
  assert (Hxq : default [] (Lesson.quiz x) = []) by (by eapply Hfree).
  destruct (truthy_str (Lesson.content x)).
  - destruct (negb _ && negb _); [|done].
    destruct (truthy_str (generateLessonIllustration gw _ _ _)); [|done].
    simpl. split; [done|]. by apply quiz_free_update_active.
  - simpl. split; [apply gw_quizless|].
    apply quiz_free_update_active; [|done]. intros y _. simpl. apply gw_quizless.
Qed.

Lemma loadLesson_not_submitted s :
  View.quizSubmitted (UI.view s) = false →
  View.quizSubmitted (UI.view (loadLesson gw s)) = false.
Proof. intros H. unfold loadLesson. by repeat case_match. Qed.

Lemma stuck_loadLesson s : stuck P s → stuck P (loadLesson gw s).
Proof.
  intros (Hq & Hsub & Hfree & HP).
  destruct (loadLesson_position gw s) as [Hm Hl].
  destruct (loadLesson_quiz_free s Hq Hfree) as [Hq' Hfree'].
  unfold stuck. rewrite Hm, Hl.
  split; [done|]. split; [by apply loadLesson_not_submitted|]. split; [done|].
  intros m l Hml. unfold status_at.
  rewrite (loadLesson_frame Lesson.status) by done. by apply HP.
Qed.

Lemma stuck_rerender s : stuck P s → stuck P (rerender gw s).
Proof.
  intros Hs. unfold rerender. case_decide; [done|].
  unfold run_effect. simpl. repeat case_match; try done.
  by apply stuck_loadLesson.
Qed.

Lemma stuck_mount c calls :
  quiz_free c →
  (∀ m l, P m l →
     status_at (Course.modules c) m l = Some locked
     ∧ ¬ (Course.currentModuleIndex c = m ∧ Course.currentLessonIndex c = l)) →
  stuck P (mount gw c calls).
Proof.
  intros Hfree HP. unfold mount, run_effect. simpl.
  assert (stuck P (UI.mk c View.initial (lesson_dep c) calls)) by done.
  repeat case_match; try done. by apply stuck_loadLesson.
Qed.

Lemma stuck_step s e : stuck P s → stuck P (ui_step gw s e).
Proof.
  intros Hs. pose proof Hs as (Hq & Hsub & Hfree & HP).
  destruct e; simpl.
  - (* SelectLesson *)
    unfold handleLessonSelect.
    destruct (lesson_at _ mIdx lIdx) as [target|] eqn:Ht; [|done].
    case_decide as Hl; [done|]. apply stuck_rerender.
    repeat split; try done; try (by apply HP).
    intros [<- <-]. simpl in *. destruct (HP _ _ H) as [Hlk _].
    unfold status_at in Hlk. rewrite Ht in Hlk. by simplify_eq/=.
  - (* SkipToPractice *)
    case_decide; [|done].
    destruct (markLessonCompleted (UI.course s)) as [c'|] eqn:E; [|done].
    destruct (markLessonCompleted_ok_active _ _ E) as [x Hx].
    destruct (markLessonCompleted_spec _ _ Hx) as (c2 & E2 & Hm & Hl & _ & _ & Hat).
    rewrite E in E2. injection E2 as <-.
    apply stuck_rerender. repeat split; simpl; try done.
    + intros m l y. rewrite Hat. case_decide; [|apply Hfree].
      intros [= <-]. simpl. by eapply Hfree.
    + unfold status_at. rewrite Hat. destruct (HP _ _ H0) as [Hlk Hne].
      by rewrite decide_False.
    + rewrite Hm, Hl. by apply HP.
  - by case_decide.
  - by case_decide.
  - by case_decide.
  - done.
  - rewrite Hq. by rewrite lookup_nil.
  - by case_decide.
  - (* SubmitQuiz *)
    unfold isAllAnswered. rewrite Hq. simpl. by rewrite andb_false_r.
  - (* NextLesson *)
    rewrite Hsub. by rewrite andb_false_r.
  - (* ExpandCourse *)
    destruct (handleConfirmExpand (UI.course s) r) as [c'|] eqn:E; [|done].
    destruct (handleConfirmExpand_inv _ _ _ E) as (new & Hexp & ->).
    apply stuck_mount; simpl.
    + intros m l x. simpl.
      destruct (decide (m < length (Course.modules (UI.course s)))).
      * rewrite expanded_old_lesson by done. apply Hfree.
      * intros Hx.
        destruct (expanded_new_lesson _ _ _ m l x Hexp) as [_ ->]; [lia|done|done].
    + intros m l Hml. destruct (HP _ _ Hml) as [Hlk Hne].
      split; [|done]. unfold status_at in *.
      rewrite expanded_old_lesson; [done|].
      destruct (decide (m < length (Course.modules (UI.course s)))); [done|].
      unfold lesson_at in Hlk. rewrite lookup_ge_None_2 in Hlk by lia. done.
Qed.

Lemma stuck_run es : ∀ s, stuck P s → stuck P (ui_run gw s es).
Proof.
  unfold ui_run. induction es as [|e es IH]; intros s Hs; simpl; [done|].
  by apply IH, stuck_step.
Qed.
End quizless.

(** With a gateway that never delivers a question, a course without cached
    questions makes no progress: whatever the events, the submit button
    stays disabled and a lesson that is locked (and not the current one at
    the start) stays locked. *)
Lemma quizless_course_makes_no_progress gw c calls es m l :
  (∀ n text, quiz_items (generateQuiz (quizResponse gw n text)) = []) →
  quiz_free c →
  status_at (Course.modules c) m l = Some locked →
  ¬ (Course.currentModuleIndex c = m ∧ Course.currentLessonIndex c = l) →
  isAllAnswered (UI.view (ui_run gw (mount gw c calls) es)) = false
  ∧ status_at (Course.modules (UI.course (ui_run gw (mount gw c calls) es))) m l
    = Some locked.
Proof.
  intros Hgw Hfree Hlk Hne.
  set (P := λ m' l', status_at (Course.modules c) m' l' = Some locked
                     ∧ ¬ (Course.currentModuleIndex c = m'
                          ∧ Course.currentLessonIndex c = l')).
  assert (stuck P (ui_run gw (mount gw c calls) es)) as (Hq & _ & _ & HP).
  { apply stuck_run; [done|]. apply stuck_mount; [done..|]. by intros ?? [? ?]. }
  split; [|by apply HP].
  unfold isAllAnswered. by rewrite Hq.
Qed.

Lemma sample_course_quiz_free : quiz_free sample_course.
Proof.
  intros m l x Hx.
  assert (generateRoadmap sample_roadmap = Ok (Course.modules sample_course)) as E
    by reflexivity.
  destruct (generateRoadmap_raw _ _ E) as [raw Hraw].
  by destruct (generated_lessons _ _ _ _ Hraw _ _ _ Hx) as (_ & _ & _ & ->).
Qed.

(** C9, on the code: a rejected quiz request makes [generateQuiz] return the
    empty array; and on the sample course with a gateway whose quiz requests
    are all rejected, whatever the user does the submit button stays
    disabled, a click on it changes nothing, and the second lesson stays
    [locked]. *)
Theorem failed_quiz_blocks_progression (es : list Event) :
  generateQuiz Rejected = Ok (JArr [])
  ∧ isAllAnswered
      (UI.view (ui_run quizless_gateway (mount quizless_gateway sample_course []) es))
    = false
  ∧ ui_step quizless_gateway
      (ui_run quizless_gateway (mount quizless_gateway sample_course []) es)
      SubmitQuiz
    = ui_run quizless_gateway (mount quizless_gateway sample_course []) es
  ∧ status_at
      (Course.modules
         (UI.course
            (ui_run quizless_gateway (mount quizless_gateway sample_course []) es)))
      0 1
    = Some locked.
Proof.
  split; [done|].
  destruct (quizless_course_makes_no_progress quizless_gateway sample_course []
              es 0 1) as [Hall Hlk]; try done.
  - apply sample_course_quiz_free.
  - simpl. lia.
  - split; [done|]. split; [|done]. simpl. rewrite Hall. by rewrite andb_false_r.
Qed.

(** The lesson itself can still be marked by the skip button, which leaves
    the second lesson locked. *)
Example quizless_lesson_skipped :
  status_at
    (Course.modules
       (UI.course (ui_run quizless_gateway
                     (mount quizless_gateway sample_course [])
                     [SkipToPractice; GoToQuiz; SubmitQuiz; NextLesson])))
    0 0 = Some completed
  ∧ Course.currentLessonIndex
      (UI.course (ui_run quizless_gateway
                    (mount quizless_gateway sample_course [])
                    [SkipToPractice; GoToQuiz; SubmitQuiz; NextLesson])) = 0.
Proof. split; vm_compute; reflexivity. Qed.

(** * Further properties *)

(** ** The answers of a quiz *)

Lemma array_assign_lookup_eq {A} i (x : A) a :
  array_assign i x a !! i = Some (Some x).
Proof.
  unfold array_assign. case_decide.
  - by apply list_lookup_insert_eq.
  - rewrite lookup_app_r by lia. rewrite lookup_app_r; rewrite length_replicate; [|lia].
    by replace (i - length a - (i - length a)) with 0 by lia.
Qed.

Lemma array_assign_lookup_ne {A} i j (x : A) a :
  i ≠ j → array_assign i x a !! j ≫= id = a !! j ≫= id.
Proof.
  intros Hne. unfold array_assign. case_decide.
  - by rewrite list_lookup_insert_ne.
  - destruct (decide (j < length a)).
    + by rewrite lookup_app_l.
    + rewrite (lookup_ge_None_2 a j) by lia. rewrite lookup_app_r by lia.
      destruct (decide (j - length a < i - length a)).
      * rewrite lookup_app_l by (by rewrite length_replicate).
        by rewrite lookup_replicate_2.
      * rewrite lookup_app_r by (rewrite length_replicate; lia).
        rewrite length_replicate.
        destruct (j - length a - (i - length a)) as [|k] eqn:E; [lia|done].
Qed.

(** X1: An answer is recorded under its question and replaces the one given
    before; the answers of the other questions stay, and so does the rest
    of the view.  Once the quiz is submitted nothing is recorded. *)
Theorem quiz_answer_is_recorded (v : View.t) (q o : nat) :
  (View.quizSubmitted v = true → handleQuizAnswer v q o = v)
  ∧ (View.quizSubmitted v = false →
     answer_of (handleQuizAnswer v q o) q = Some o
     ∧ (∀ i, i ≠ q → answer_of (handleQuizAnswer v q o) i = answer_of v i)
     ∧ View.quiz (handleQuizAnswer v q o) = View.quiz v
     ∧ View.viewStage (handleQuizAnswer v q o) = View.viewStage v
     ∧ View.quizSubmitted (handleQuizAnswer v q o) = false).
Proof.
  unfold handleQuizAnswer, answer_of. split; intros H; rewrite H; [done|]. simpl.
  split; [by rewrite array_assign_lookup_eq|].
  split; [|by repeat split]. intros i Hi. by apply array_assign_lookup_ne.
Qed.



(** ** The end of the course and the next lesson *)

(** X3: On the last lesson of the last module, submitting the quiz changes the
    status of that lesson only, no lesson is unlocked, and the button to
    the next lesson then does nothing. *)
Theorem last_lesson_is_terminal (c : Course.t) (x : Lesson.t) (md : Mod.t) :
  activeLesson c = Some x →
  Course.modules c !! Course.currentModuleIndex c = Some md →
  Course.currentModuleIndex c + 1 = length (Course.modules c) →
  Course.currentLessonIndex c + 1 = length (Mod.lessons md) →
  ∃ c', submitQuiz c = Ok c'
    ∧ activeLesson c' = Some (Lesson.set_status completed x)
    ∧ (∀ m l, ¬ (Course.currentModuleIndex c = m ∧ Course.currentLessonIndex c = l) →
         lesson_at (Course.modules c') m l = lesson_at (Course.modules c) m l)
    ∧ moveToNextLesson c' = Ok None.
Proof.
  intros Hx Hmd Hm Hl.
  destruct (submitQuiz_spec c x Hx) as (c' & next & E & Hn & Hcm & Hcl & _ & Hlen & Hat).
  assert (next = (Course.currentModuleIndex c + 1, 0)) as ->.
  { unfold next_position in Hn. rewrite Hmd in Hn.
    rewrite (proj2 (Nat.leb_le _ _)) in Hn by lia. by injection Hn. }
  exists c'. split; [done|]. split.
  { unfold activeLesson. rewrite Hcm, Hcl, Hat. by rewrite decide_True. }
  split.
  { intros m l Hne. rewrite Hat. rewrite decide_False by done. simpl.
    case_decide as Hnx; [|done]. destruct Hnx as [<- <-].
    unfold lesson_at. by rewrite lookup_ge_None_2 by lia. }
  unfold moveToNextLesson. rewrite Hcm, Hcl.
  assert (∃ md', Course.modules c' !! Course.currentModuleIndex c = Some md'
                 ∧ length (Mod.lessons md') = length (Mod.lessons md))
    as (md' & Hmd' & Hlen').
  { pose proof (Hat (Course.currentModuleIndex c) (Course.currentLessonIndex c)) as H.
    rewrite decide_True in H by done. unfold lesson_at in H.
    destruct (Course.modules c' !! Course.currentModuleIndex c) as [md'|] eqn:E';
      [|done].
    exists md'. split; [done|]. simpl in H.
    apply lookup_lt_Some in H.
    destruct (decide (length (Mod.lessons md') ≤ length (Mod.lessons md))); [lia|].
    pose proof (Hat (Course.currentModuleIndex c) (length (Mod.lessons md))) as H2.
    rewrite decide_False in H2 by lia. simpl in H2.
    rewrite decide_False in H2 by lia. unfold lesson_at in H2.
    rewrite Hmd, E' in H2. simpl in H2.
    rewrite (lookup_ge_None_2 (Mod.lessons md)) in H2 by lia.
    apply lookup_ge_None in H2. lia. }
  unfold next_position. rewrite Hmd'. rewrite Hlen'.
  rewrite (proj2 (Nat.leb_le _ _)) by lia. simpl.
  rewrite (proj2 (Nat.ltb_ge _ _)); [done|]. lia.
Qed.

Lemma last_lesson_is_terminal_witness :
  ∃ c', submitQuiz last_lesson_course = Ok c'
    ∧ activeLesson c' = Some (Lesson.set_status completed last_lesson)
    ∧ (∀ m l, ¬ (Course.currentModuleIndex last_lesson_course = m
                 ∧ Course.currentLessonIndex last_lesson_course = l) →
         lesson_at (Course.modules c') m l
         = lesson_at (Course.modules last_lesson_course) m l)
    ∧ moveToNextLesson c' = Ok None.
Proof.
  apply (last_lesson_is_terminal last_lesson_course last_lesson last_module);
    reflexivity.
Defined.

Lemma assign_lesson_shape f m l ms ms' k :
  assign_lesson f m l ms = Ok ms' → shape ms' k = shape ms k.
Proof.
  intros E. unfold shape. rewrite (assign_lesson_lookup _ _ _ _ _ k E).
  case_decide; [|done]. destruct (ms !! k); [|done]. simpl.
  by rewrite length_alter.
Qed.

Lemma submitQuiz_shape c c' k :
  submitQuiz c = Ok c' → shape (Course.modules c') k = shape (Course.modules c) k.
Proof.
  unfold submitQuiz.
  destruct (assign_lesson _ _ _ (Course.modules c)) as [ms1|] eqn:E1; [|done].
  simpl. destruct (next_position ms1 _ _) as [next|]; [|done]. simpl.
  destruct (position_exists ms1 next).
  - destruct (assign_lesson _ _ _ ms1) as [ms2|] eqn:E2; [|done].
    intros [= <-]. simpl.
    by rewrite (assign_lesson_shape _ _ _ _ _ k E2), (assign_lesson_shape _ _ _ _ _ k E1).
  - intros [= <-]. simpl. by rewrite (assign_lesson_shape _ _ _ _ _ k E1).
Qed.

Lemma next_position_shape ms ms' m l :
  (∀ k, shape ms' k = shape ms k) →
  next_position ms' m l = next_position ms m l.
Proof.
  intros H. specialize (H m). unfold shape, next_position in *.
  destruct (ms' !! m), (ms !! m); simplify_eq/=; [|done]. by rewrite H.
Qed.

Lemma position_exists_shape ms ms' p :
  (∀ k, shape ms' k = shape ms k) →
  position_exists ms' p = position_exists ms p.
Proof.
  intros H. specialize (H p.1). unfold shape, position_exists in *.
  destruct (ms' !! p.1), (ms !! p.1); simplify_eq/=; [|done]. by rewrite H.
Qed.

(** X4: After the quiz of a lesson is submitted, the button to the next lesson
    leads to the next lesson of the module, or else to the first lesson of
    the next module, when there is such a lesson; that lesson is then the
    current one and its status is [unlocked]. *)
Theorem next_lesson_after_quiz_is_unlocked (c c' : Course.t) (x : Lesson.t)
    (next : nat * nat) :
  activeLesson c = Some x →
  submitQuiz c = Ok c' →
  next_position (Course.modules c) (Course.currentModuleIndex c)
    (Course.currentLessonIndex c) = Ok next →
  position_exists (Course.modules c) next = true →
  moveToNextLesson c' = Ok (Some (Course.set_current next.1 next.2 c'))
  ∧ Lesson.status <$> activeLesson (Course.set_current next.1 next.2 c')
    = Some unlocked.
Proof.
  intros Hx E Hn Hp.
  destruct (submitQuiz_spec c x Hx) as (c2 & next2 & E2 & Hn2 & Hcm & Hcl & _ & Hlen & Hat).
  rewrite E in E2. injection E2 as <-. rewrite Hn in Hn2. injection Hn2 as <-.
  pose proof (next_position_neq _ _ _ _ Hn) as Hne.
  split.
  - unfold moveToNextLesson. rewrite Hcm, Hcl.
    rewrite (next_position_shape (Course.modules c)) by (intros; by eapply submitQuiz_shape).
    rewrite Hn. simpl. rewrite Hlen.
    unfold position_exists in Hp.
    destruct (Course.modules c !! next.1) eqn:E1; [|done].
    apply lookup_lt_Some in E1. by rewrite (proj2 (Nat.ltb_lt _ _)).
  - unfold activeLesson. simpl. rewrite Hat.
    rewrite decide_False by (intros [? ?]; apply Hne; by destruct next; simplify_eq/=).
    rewrite decide_True by done.
    apply position_exists_lesson_at in Hp as [y Hy]. by rewrite Hy.
Qed.

Lemma next_lesson_after_quiz_is_unlocked_witness :
  moveToNextLesson (UI.course (ui_run sample_gateway sample_mounted pass_lesson))
  = Ok (Some (Course.set_current (0, 1).1 (0, 1).2
                (UI.course (ui_run sample_gateway sample_mounted pass_lesson))))
  ∧ Lesson.status <$> activeLesson
      (Course.set_current (0, 1).1 (0, 1).2
         (UI.course (ui_run sample_gateway sample_mounted pass_lesson)))
    = Some unlocked.
Proof.
  apply (next_lesson_after_quiz_is_unlocked (UI.course sample_mounted)
           (UI.course (ui_run sample_gateway sample_mounted pass_lesson))
           sample_loaded_lesson (0, 1)); reflexivity.
Defined.

(** ** The course repository *)

Lemma find_course_cons i c cs :
  find_course i (c :: cs)
  = if decide (Course.id c = i) then Some c else find_course i cs.
Proof.
  unfold find_course. simpl. case_decide; [done|].
  rewrite <- option_fmap_compose. done.
Qed.

Lemma find_course_app i cs cs' :
  find_course i (cs ++ cs')
  = match find_course i cs with Some c => Some c | None => find_course i cs' end.
Proof.
  induction cs as [|c cs IH]; simpl; [done|].
  rewrite !find_course_cons. by case_decide.
Qed.

Lemma find_course_Some i cs c :
  find_course i cs = Some c → c ∈ cs ∧ Course.id c = i.
Proof.
  induction cs as [|c0 cs IH]; [done|]. rewrite find_course_cons.
  case_decide.
  - intros [= <-]. split; [left|done].
  - intros H'. destruct (IH H') as [? ?]. split; [by right|done].
Qed.

Lemma find_course_elem i cs c :
  c ∈ cs → Course.id c = i → is_Some (find_course i cs).
Proof.
  induction cs as [|c0 cs IH]; [by intros ?%elem_of_nil|].
  rewrite find_course_cons. intros [->|Hin]%elem_of_cons Hid.
  - by rewrite decide_True.
  - case_decide; [eauto|]. by apply IH.
Qed.

Lemma find_course_filter i id cs :
  i ≠ id →
  find_course i (filter (λ c, Course.id c ≠ id) cs) = find_course i cs.
Proof.
  intros Hne. induction cs as [|c cs IH]; [done|].
  rewrite filter_cons. case_decide.
  - rewrite !find_course_cons. by case_decide.
  - rewrite find_course_cons. rewrite decide_False; [done|]. congruence.
Qed.

Lemma find_course_update_ne i updated cs :
  i ≠ Course.id updated →
  find_course i (handleUpdateActiveCourse updated cs) = find_course i cs.
Proof.
  intros Hne. unfold handleUpdateActiveCourse.
  induction cs as [|c cs IH]; [done|]. rewrite fmap_cons, !find_course_cons.
  destruct (String.eqb_spec (Course.id c) (Course.id updated)) as [E|E].
  - rewrite !decide_False by congruence. done.
  - by case_decide.
Qed.

(** X5: [handleUpdateActiveCourse] replaces by id and never adds: the ids of the
    list, in order, are as before; a course is found under every other id
    as before; under the id of the update the update is found, when a
    course was; and with no course of that id the list is left as it is. *)
Theorem update_replaces_by_id (updated : Course.t) (cs : list Course.t) :
  Course.id <$> handleUpdateActiveCourse updated cs = Course.id <$> cs
  ∧ (∀ i, i ≠ Course.id updated →
       find_course i (handleUpdateActiveCourse updated cs) = find_course i cs)
  ∧ (is_Some (find_course (Course.id updated) cs) →
       find_course (Course.id updated) (handleUpdateActiveCourse updated cs)
       = Some updated)
  ∧ (find_course (Course.id updated) cs = None →
       handleUpdateActiveCourse updated cs = cs).
Proof.
  split; [|split; [|split]].
  - unfold handleUpdateActiveCourse. rewrite <- list_fmap_compose.
    apply list_fmap_ext. intros _ c _. simpl.
    by destruct (String.eqb_spec (Course.id c) (Course.id updated)).
  - intros i Hi. by apply find_course_update_ne.
  - intros [c Hc]. by eapply find_course_updated.
  - unfold handleUpdateActiveCourse. induction cs as [|c cs IH]; [done|].
    rewrite find_course_cons. case_decide; [done|]. intros Hnone.
    rewrite fmap_cons, (IH Hnone).
    destruct (String.eqb_spec (Course.id c) (Course.id updated)); [done|done].
Qed.

(** X6: [handleDeleteCourse] removes every course of the given id and no other
    (the others stay in their order); when the deleted course was the active
    one the pointer is cleared and the application goes to the profile,
    whether or not other courses remain; otherwise pointer and state stay. *)
Theorem delete_course_clears_active_pointer (app : App.t) (id : string) :
  (∀ c, c ∈ App.courses (handleDeleteCourse app id)
        ↔ c ∈ App.courses app ∧ Course.id c ≠ id)
  ∧ App.courses (handleDeleteCourse app id) `sublist_of` App.courses app
  ∧ find_course id (App.courses (handleDeleteCourse app id)) = None
  ∧ (∀ i, i ≠ id →
       find_course i (App.courses (handleDeleteCourse app id))
       = find_course i (App.courses app))
  ∧ (App.activeCourseId app = Some id →
       App.activeCourseId (handleDeleteCourse app id) = None
       ∧ App.appState (handleDeleteCourse app id) = PROFILE)
  ∧ (App.activeCourseId app ≠ Some id →
       App.activeCourseId (handleDeleteCourse app id) = App.activeCourseId app
       ∧ App.appState (handleDeleteCourse app id) = App.appState app).
Proof.
  assert (App.courses (handleDeleteCourse app id)
          = filter (λ c, Course.id c ≠ id) (App.courses app)) as ->.
  { unfold handleDeleteCourse. by case_decide. }
  split; [|split; [|split; [|split; [|split]]]].
  - intros c. by rewrite list_elem_of_filter, (comm and).
  - apply sublist_filter.
  - destruct (find_course id _) as [c|] eqn:E; [|done].
    apply find_course_Some in E as [Hin Hid].
    apply list_elem_of_filter in Hin as [Hne _]. done.
  - intros i Hi. by apply find_course_filter.
  - intros H. unfold handleDeleteCourse. by rewrite decide_True.
  - intros H. unfold handleDeleteCourse. by rewrite decide_False.
Qed.

Lemma active_valid_step app e : active_valid app → active_valid (app_step app e).
Proof.
  unfold active_valid, activeCourse. intros Hv.
  destruct e as [blank qs|t|a r n1 n2|updated|id|i| |tab]; simpl.
  - unfold handleStartTopic. case_match; exact Hv.
  - exact Hv.
  - unfold handleClarificationAnswer. case_match; [|exact Hv].
    destruct (generateRoadmap r); simpl; [|exact Hv]. right.
    eapply find_course_elem; [apply elem_of_app; right; by left|done].
  - destruct Hv as [Hv|Hv]; [by left|right].
    destruct (App.activeCourseId app) as [i|]; simpl in *; [|done].
    destruct (decide (i = Course.id updated)) as [->|Hne].
    + destruct Hv as [c Hc]. erewrite find_course_updated; eauto.
    + by rewrite find_course_update_ne.
  - unfold handleDeleteCourse. case_decide; simpl; [by left|].
    destruct Hv as [Hv|Hv]; [by left|right].
    destruct (App.activeCourseId app) as [i|]; simpl in *; [|done].
    rewrite find_course_filter; [done|congruence].
  - destruct (App.courses app !! i) as [c|] eqn:E; [|done]. simpl. right.
    eapply find_course_elem; [by eapply list_elem_of_lookup_2|done].
  - by left.
  - exact Hv.
Qed.

Lemma id_stored_step x ev : id_stored (session_step x ev).
Proof.
  unfold id_stored. destruct ev as [e|]; simpl; by intros ->.
Qed.

Lemma id_stored_run evs : id_stored (session_run evs).
Proof.
  unfold session_run.
  induction evs as [|ev evs IH] using rev_ind.
  - apply id_stored_step.
  - rewrite foldl_app. simpl. apply id_stored_step.
Qed.

(** X7: Every handler keeps the pointer to the active course valid: unset or
    designating a course of the list before the event, it is so after it.
    A start of the page does not: the save effect writes the active id
    when there is one and never removes it, so that, in any session, once
    the active course is deleted a reload brings back the id of the
    deleted course, which designates no course of the list; the
    application is then on the profile. *)
Theorem active_pointer_dangles_after_reload (evs : list SessionEvent)
    (e : AppEvent) (i : string) :
  (active_valid (app (session_run evs)) →
   active_valid (app (session_step (session_run evs) (Handle e))))
  ∧ (App.activeCourseId (app (session_run evs)) = Some i →
     i ≠ "" →
     App.activeCourseId
       (app (session_step (session_run evs) (Handle (DeleteCourse i)))) = None
     ∧ App.activeCourseId
         (app (session_run (evs ++ [Handle (DeleteCourse i); Reload]))) = Some i
     ∧ activeCourse (app (session_run (evs ++ [Handle (DeleteCourse i); Reload])))
       = None
     ∧ App.courses (app (session_run (evs ++ [Handle (DeleteCourse i); Reload])))
       = filter (λ c, Course.id c ≠ i) (App.courses (app (session_run evs)))
     ∧ App.appState (app (session_run (evs ++ [Handle (DeleteCourse i); Reload])))
       = PROFILE).
Proof.
  split; [apply active_valid_step|].
  intros Hact Hne.
  assert (Htr : truthy_str (Some i) = true).
  { simpl. by apply negb_true_iff, String.eqb_neq. }
  pose proof (id_stored_run evs) as Hid. unfold id_stored in Hid.
  rewrite Hact in Hid. specialize (Hid Htr).
  unfold session_run in *. rewrite foldl_app.
  set (x := foldl session_step session_start evs) in *.
  simpl. unfold handleDeleteCourse. rewrite Hact.
  rewrite decide_True by done. simpl.
  split; [done|]. unfold restore. simpl. rewrite Hid, Htr. simpl.
  repeat split; try done.
  unfold activeCourse. simpl.
  destruct (find_course i _) as [c|] eqn:E; [|done].
  apply find_course_Some in E as [Hin Hc].
  apply list_elem_of_filter in Hin as [Hin _]. done.
Qed.

Lemma active_pointer_dangles_after_reload_witness :
  App.activeCourseId (app (session_run sample_session)) = Some "course-1"
  ∧ active_valid (app (session_step (session_run sample_session) (Handle CreateNew)))
  ∧ App.activeCourseId
      (app (session_step (session_run sample_session)
              (Handle (DeleteCourse "course-1")))) = None
  ∧ App.activeCourseId
      (app (session_run (sample_session
                           ++ [Handle (DeleteCourse "course-1"); Reload])))
    = Some "course-1"
  ∧ activeCourse
      (app (session_run (sample_session
                           ++ [Handle (DeleteCourse "course-1"); Reload])))
    = None
  ∧ App.courses
      (app (session_run (sample_session
                           ++ [Handle (DeleteCourse "course-1"); Reload])))
    = filter (λ c, Course.id c ≠ "course-1")
        (App.courses (app (session_run sample_session)))
  ∧ App.appState
      (app (session_run (sample_session
                           ++ [Handle (DeleteCourse "course-1"); Reload])))
    = PROFILE.
Proof.
  destruct (active_pointer_dangles_after_reload sample_session CreateNew "course-1")
    as [Hkeep Hdangle].
  split; [reflexivity|]. split.
  - apply Hkeep. right. by eexists.
  - apply Hdangle; [reflexivity|done].
Defined.

(** ** The clarification *)

Lemma answer_all_recorded r now1 now2 given : ∀ app,
  currentQuestionIndex (App.clarification app) + length given
    < length (questions (App.clarification app)) →
  answer_all app r now1 now2 given
  = App.mk (App.appState app) (App.activeTab app) (App.topic app)
      (App.courses app) (App.activeCourseId app)
      {| questions := questions (App.clarification app);
         answers := answers (App.clarification app) ++ given;
         currentQuestionIndex :=
           currentQuestionIndex (App.clarification app) + length given |}.
Proof.
  unfold answer_all. induction given as [|a given IH]; intros app Hlt; simpl.
  - rewrite app_nil_r, Nat.add_0_r. by destruct app as [? ? ? ? ? []].
  - simpl in Hlt. rewrite IH.
    + unfold handleClarificationAnswer.
      rewrite (proj2 (Nat.leb_gt _ _)) by lia. simpl.
      rewrite <- app_assoc. simpl. do 2 f_equal. lia.
    + unfold handleClarificationAnswer.
      rewrite (proj2 (Nat.leb_gt _ _)) by lia. simpl. lia.
Qed.

(** X9: A clarification runs through its questions in order: after a topic that
    is not blank is submitted, the answers to all questions but the last are
    only recorded, one per question, whatever the gateway would answer (the
    state stays CLARIFYING, the next question is there, no course is made);
    the answer to the last question starts the generation, and with a
    roadmap the new course is appended, made active and shown. *)
Theorem clarification_runs_in_order (is_blank : string → bool) (app : App.t)
    (qs given : list string) (last : string) (r r' : Response)
    (now1 now2 : nat) (ms : list Mod.t) :
  is_blank (App.topic app) = false →
  length given + 1 = length qs →
  generateRoadmap r = Ok ms →
  answer_all (handleStartTopic is_blank app qs) r' now1 now2 given
  = App.mk CLARIFYING (App.activeTab app) (App.topic app) (App.courses app)
      (App.activeCourseId app)
      {| questions := qs; answers := given;
         currentQuestionIndex := length given |}
  ∧ is_Some (qs !! length given)
  ∧ handleClarificationAnswer
      (answer_all (handleStartTopic is_blank app qs) r' now1 now2 given)
      last r now1 now2
    = App.mk LEARNING learn (App.topic app)
        (App.courses app
         ++ [Course.mk (course_id now1) (App.topic app) ms 0 0 now2])
        (Some (course_id now1))
        {| questions := qs; answers := given ++ [last];
           currentQuestionIndex := length qs |}.
Proof.
  intros Hb Hlen Hgen.
  assert (answer_all (handleStartTopic is_blank app qs) r' now1 now2 given
          = App.mk CLARIFYING (App.activeTab app) (App.topic app) (App.courses app)
              (App.activeCourseId app)
              {| questions := qs; answers := given;
                 currentQuestionIndex := length given |}) as ->.
  { unfold handleStartTopic. rewrite Hb. rewrite answer_all_recorded; simpl; [done|lia]. }
  split; [done|]. split; [apply lookup_lt_is_Some; lia|].
  unfold handleClarificationAnswer. simpl.
  rewrite (proj2 (Nat.leb_le _ _)) by lia. rewrite Hgen. simpl.
  do 2 f_equal. lia.
Qed.

Lemma clarification_runs_in_order_witness :
  answer_all (handleStartTopic empty_topic
                (app_step app_initial (TypeTopic "Linear Algebra")) sample_questions)
    sample_bad_roadmap 1 2 ["beginner"]
  = App.mk CLARIFYING learn "Linear Algebra" [] None
      {| questions := sample_questions; answers := ["beginner"];
         currentQuestionIndex := length ["beginner"] |}
  ∧ is_Some (sample_questions !! length ["beginner"])
  ∧ handleClarificationAnswer
      (answer_all (handleStartTopic empty_topic
                     (app_step app_initial (TypeTopic "Linear Algebra"))
                     sample_questions)
         sample_bad_roadmap 1 2 ["beginner"])
      "exams" sample_roadmap 1 2
    = App.mk LEARNING learn "Linear Algebra"
        ([] ++ [Course.mk (course_id 1) "Linear Algebra" sample_modules 0 0 2])
        (Some (course_id 1))
        {| questions := sample_questions; answers := ["beginner"] ++ ["exams"];
           currentQuestionIndex := length sample_questions |}.
Proof.
  apply (clarification_runs_in_order empty_topic
           (app_step app_initial (TypeTopic "Linear Algebra")) sample_questions
           ["beginner"] "exams" sample_roadmap sample_bad_roadmap 1 2
           sample_modules); reflexivity.
Defined.

(** ** The text generators *)

(** X10: [generateClarifyingQuestions] raises nothing.  On a rejected request,
    on a text that is no JSON and on [null] it answers the three default
    questions; a decoded array is returned as it is, and of an object the
    value under [questions] when it is truthy, the object itself otherwise. *)
Theorem clarifying_questions_fall_back (r : Response) :
  ∃ v, generateClarifyingQuestions r = Ok v
    ∧ (r = Rejected ∨ r = NotJson ∨ r = Parsed JNull →
       v = default_questions ∧ ∃ q1 q2 q3, v = JArr [JStr q1; JStr q2; JStr q3])
    ∧ (∀ items, r = Parsed (JArr items) → v = JArr items)
    ∧ (∀ fields, r = Parsed (JObj fields) →
       v = match assoc_last "questions" fields with
           | Some qs => if truthy (Some qs) then qs else JObj fields
           | None => JObj fields
           end).
Proof.
  unfold generateClarifyingQuestions.
  destruct r as [| |[| | | |items|fields]]; unfold get_prop; simpl;
    eexists; (split; [reflexivity|]);
    (split; [intros [?|[?|?]]; simplify_eq; eauto|]);
    (split; [intros ? ?; by simplify_eq|]);
    intros fs Hfs; simplify_eq.
  unfold js_or. destruct (assoc_last "questions" fs) as [qs|]; [|done].
  change (match qs with
          | JNull => false
          | JBool b => b
          | JNum n => negb (n =? 0)%Z
          | JStr s => negb (s =? "")%string
          | _ => true
          end) with (truthy (Some qs)).
  by destruct (truthy (Some qs)).
Qed.

Lemma challenge_id_inj i j :
  Service.challenge_id i = Service.challenge_id j → i = j.
Proof.
  unfold Service.challenge_id. intros H.
  apply (inj (String.app "challenge-")) in H. by apply (inj pretty) in H.
Qed.

Lemma imapM_from_ok_fmap {A B} (g : A → nat → B) l : ∀ i,
  imapM_from (λ x k, Ok (g x k)) i l = Ok (imap (λ k x, g x (i + k)) l).
Proof.
  induction l as [|x l IH]; intros i; simpl; [done|].
  rewrite IH. simpl. rewrite Nat.add_0_r. do 2 f_equal.
  apply imap_ext. intros k y _. simpl. f_equal. lia.
Qed.

(** X11: [generateCodingChallenges] raises nothing; the challenges it returns are
    the decoded items in their order, numbered [challenge-0], [challenge-1],
    ... whatever id an item brought, so that no two share an id; a rejected
    request and a text that is no JSON give no challenge. *)
Theorem coding_challenges_are_numbered (r : Response) :
  ∃ cs, Service.generateCodingChallenges r = Ok cs
    ∧ (∀ i c, cs !! i = Some c → Service.id c = Service.challenge_id i)
    ∧ NoDup (Service.id <$> cs)
    ∧ (∀ items, r = Parsed (JArr items) → Service.item <$> cs = items)
    ∧ (r = Rejected ∨ r = NotJson → cs = []).
Proof.
  assert (∀ items : list json,
    let cs := imap (λ k x, Service.mk x (Service.challenge_id (0 + k))) items in
    (∀ i c, cs !! i = Some c → Service.id c = Service.challenge_id i)
    ∧ NoDup (Service.id <$> cs) ∧ Service.item <$> cs = items) as Himap.
  { intros items cs. split; [|split].
    - intros i c. unfold cs. rewrite list_lookup_imap.
      destruct (items !! i); simpl; [|done]. by intros [= <-].
    - unfold cs. apply NoDup_alt. intros i j x.
      rewrite !list_lookup_fmap, !list_lookup_imap.
      destruct (items !! i), (items !! j); simpl; try done.
      intros H1 H2.
      assert (Service.challenge_id i = Service.challenge_id j) as H by congruence.
      by apply challenge_id_inj in H.
    - unfold cs. apply list_eq. intros i.
      rewrite list_lookup_fmap, list_lookup_imap. by destruct (items !! i). }
  assert (∀ r' : Response, (∀ items, r' ≠ Parsed (JArr items)) →
    (∀ i c, @nil Service.Challenge !! i = Some c →
       Service.id c = Service.challenge_id i)
    ∧ NoDup (Service.id <$> @nil Service.Challenge)
    ∧ (∀ items, r' = Parsed (JArr items) → Service.item <$> [] = items)
    ∧ (r' = Rejected ∨ r' = NotJson → @nil Service.Challenge = [])) as Hnil.
  { intros r' Hr'. split; [by intros ??; rewrite lookup_nil|].
    split; [apply NoDup_nil_2|]. split; [|done]. intros items ->.
    by destruct (Hr' items). }
  unfold Service.generateCodingChallenges.
  destruct r as [| |v]; simpl.
  - exists []. split; [done|]. by apply Hnil.
  - exists []. split; [done|]. by apply Hnil.
  - destruct v as [| | | |items|fields]; unfold get_prop, js_map, js_or; simpl;
      try (exists []; split; [done|]; by apply Hnil).
    + rewrite imapM_from_ok_fmap. simpl. eexists. split; [reflexivity|].
      destruct (Himap items) as (H1 & H2 & H3).
      split; [done|]. split; [done|]. split; [by intros ? [= <-]|by intros [?|?]].
    + destruct (truthy (assoc_last "challenges" fields)).
      * destruct (assoc_last "challenges" fields) as [[| | | |items|]|]; simpl;
          try (exists []; split; [done|]; by apply Hnil).
        rewrite imapM_from_ok_fmap. simpl. eexists. split; [reflexivity|].
        destruct (Himap items) as (H1 & H2 & H3).
        split; [done|]. split; [done|]. split; [done|by intros [?|?]].
      * simpl. exists []. split; [done|]. by apply Hnil.
Qed.

(** ** The coding lab *)

Lemma setActiveIdx_inv challenges i lab :
  i < length challenges → lab_inv challenges lab →
  lab_inv challenges (setActiveIdx challenges i lab).
Proof. intros Hi [? ?]. unfold setActiveIdx. by case_decide. Qed.

Lemma challenge_id_elem challenges i ch :
  challenges !! i = Some ch → ch_id ch ∈ challenge_ids challenges.
Proof.
  intros H. unfold challenge_ids. apply elem_of_list_to_set, list_elem_of_fmap.
  exists ch. split; [done|]. by eapply list_elem_of_lookup_2.
Qed.

Lemma lab_handleRun_inv challenges lab r :
  lab_inv challenges lab → lab_inv challenges (lab_handleRun challenges lab r).1.
Proof.
  intros [Hi Hs]. unfold lab_handleRun.
  destruct (challenges !! Lab.activeIdx lab) as [ch|] eqn:E; [|done].
  destruct (_ ≫= _) as [[passed msg]|]; [|done].
  destruct (truthy passed); [|done]. split; [done|]. simpl.
  apply union_subseteq. split; [done|].
  apply singleton_subseteq_l. by eapply challenge_id_elem.
Qed.

Lemma lab_step_inv challenges lab e :
  lab_inv challenges lab → lab_inv challenges (lab_step challenges lab e).
Proof.
  intros Hinv. pose proof Hinv as [Hi Hs]. destruct e; simpl.
  - by apply lab_handleRun_inv.
  - case_decide; [|done]. by apply setActiveIdx_inv.
  - destruct (Lab.feedback lab) as [[passed msg]|]; [|done].
    case_match; [|done]. apply setActiveIdx_inv; [lia|done].
  - by destruct (challenges !! Lab.activeIdx lab).
  - done.
Qed.

Lemma lab_run_inv challenges es :
  challenges ≠ [] → lab_inv challenges (lab_run challenges es).
Proof.
  intros Hne. unfold lab_run.
  assert (lab_inv challenges (lab_initial challenges)) as H0.
  { split; simpl; [destruct challenges; simpl; [done|lia]|set_solver]. }
  revert H0. generalize (lab_initial challenges).
  induction es as [|e es IH]; intros lab Hinv; simpl; [done|].
  by apply IH, lab_step_inv.
Qed.

(** X12: In a lab over challenges with distinct ids, however the user got there:
    after a check the active index is in range and only ids of the
    challenges are marked; the move to the quiz is scheduled exactly when
    the check passed and every challenge is then marked; and a check that
    passes on a challenge already marked leaves the marks as they are. *)
Theorem lab_completes_when_all_passed (challenges : list CodingChallenge)
    (es : list LabEvent) (r : Response) :
  challenges ≠ [] →
  NoDup (ch_id <$> challenges) →
  Lab.activeIdx (lab_handleRun challenges (lab_run challenges es) r).1
    < length challenges
  ∧ Lab.completedIds (lab_handleRun challenges (lab_run challenges es) r).1
    ⊆ challenge_ids challenges
  ∧ ((lab_handleRun challenges (lab_run challenges es) r).2 = true
     ↔ (∃ passed msg,
          Lab.feedback (lab_handleRun challenges (lab_run challenges es) r).1
          = Some (passed, msg) ∧ truthy passed = true)
       ∧ Lab.completedIds (lab_handleRun challenges (lab_run challenges es) r).1
         = challenge_ids challenges)
  ∧ (∀ ch, challenges !! Lab.activeIdx (lab_run challenges es) = Some ch →
       ch_id ch ∈ Lab.completedIds (lab_run challenges es) →
       Lab.completedIds (lab_handleRun challenges (lab_run challenges es) r).1
       = Lab.completedIds (lab_run challenges es)).
Proof.
  intros Hne Hnd.
  pose proof (lab_run_inv challenges es Hne) as Hinv.
  destruct (lab_handleRun_inv challenges _ r Hinv) as [Hi Hs].
  split; [done|]. split; [done|].
  assert (Hsize : ∀ X : gset string, X ⊆ challenge_ids challenges →
            size X = length challenges ↔ X = challenge_ids challenges).
  { intros X HX.
    assert (size (challenge_ids challenges) = length challenges) as Hsz.
    { unfold challenge_ids. rewrite size_list_to_set by done. by rewrite length_fmap. }
    split; [|by intros ->].
    intros HX'. apply set_subseteq_size_eq; [done|]. lia. }
  set (lab := lab_run challenges es) in *.
  unfold lab_handleRun in *.
  destruct (challenges !! Lab.activeIdx lab) as [ch|] eqn:E.
  2:{ destruct Hinv as [Hlt _]. apply lookup_ge_None in E. lia. }
  destruct (_ ≫= _) as [[passed msg]|]; simpl in *.
  - destruct (truthy passed) eqn:Ep; simpl in *.
    + split.
      * rewrite bool_decide_eq_true, (Hsize _ Hs).
        split; [intros HX; split; [eauto|done]|by intros [_ HX]].
      * intros ch' [= <-] Hin. apply leibniz_equiv.
        rewrite (comm (∪)). by apply subseteq_union_1, singleton_subseteq_l.
    + split; [|done]. split; [done|]. intros [(p & m & [= <- <-] & Hp) _]. congruence.
  - split; [|done]. split; [done|]. by intros [(p & m & [= <- <-] & Hp) _].
Qed.

Lemma lab_completes_when_all_passed_witness :
  Lab.activeIdx
    (lab_handleRun sample_challenges
       (lab_run sample_challenges [LabRun failing; LabRun passing; LabNext]) passing).1
    < length sample_challenges
  ∧ Lab.completedIds
      (lab_handleRun sample_challenges
         (lab_run sample_challenges [LabRun failing; LabRun passing; LabNext]) passing).1
    ⊆ challenge_ids sample_challenges
  ∧ ((lab_handleRun sample_challenges
        (lab_run sample_challenges [LabRun failing; LabRun passing; LabNext]) passing).2
     = true
     ↔ (∃ passed msg,
          Lab.feedback
            (lab_handleRun sample_challenges
               (lab_run sample_challenges [LabRun failing; LabRun passing; LabNext])
               passing).1
          = Some (passed, msg) ∧ truthy passed = true)
       ∧ Lab.completedIds
           (lab_handleRun sample_challenges
              (lab_run sample_challenges [LabRun failing; LabRun passing; LabNext])
              passing).1
         = challenge_ids sample_challenges)
  ∧ (∀ ch,
       sample_challenges
         !! Lab.activeIdx
              (lab_run sample_challenges [LabRun failing; LabRun passing; LabNext])
       = Some ch →
       ch_id ch
         ∈ Lab.completedIds
             (lab_run sample_challenges [LabRun failing; LabRun passing; LabNext]) →
       Lab.completedIds
         (lab_handleRun sample_challenges
            (lab_run sample_challenges [LabRun failing; LabRun passing; LabNext])
            passing).1
       = Lab.completedIds
           (lab_run sample_challenges [LabRun failing; LabRun passing; LabNext])).
Proof.
  apply (lab_completes_when_all_passed sample_challenges
           [LabRun failing; LabRun passing; LabNext] passing); [done|].
  apply NoDup_cons. split; [by intros ?%list_elem_of_singleton|].
  apply NoDup_singleton.
Defined.

(** The sample lab: a failed check marks nothing, and the second of two
    passed checks schedules the move to the quiz. *)
Example sample_lab_run :
  (lab_handleRun sample_challenges
     (lab_run sample_challenges [LabRun failing]) passing).2 = false
  ∧ Lab.activeIdx (lab_run sample_challenges [LabRun passing; LabNext]) = 1
  ∧ (lab_handleRun sample_challenges
       (lab_run sample_challenges [LabRun failing; LabRun passing; LabNext])
       passing).2 = true.
Proof. repeat split; vm_compute; reflexivity. Qed.
(** ** The progress counters *)

Lemma sum_list_cons a l : sum_list (a :: l) = a + sum_list l.
Proof. done. Qed.

Lemma foldl_add_sum {A} (f : A → nat) l : ∀ a,
  foldl (λ acc x, acc + f x) a l = a + sum_list (f <$> l).
Proof.
  induction l as [|x l IH]; intros a; [simpl; lia|].
  rewrite fmap_cons, sum_list_cons. cbn [foldl]. rewrite IH. lia.
Qed.

Lemma length_filter_sum {A} (P : A → Prop) `{∀ x, Decision (P x)} (l : list A) :
  length (filter P l) = sum_list ((λ x, if decide (P x) then 1 else 0) <$> l).
Proof.
  induction l as [|x l IH]; [done|].
  rewrite filter_cons, fmap_cons, sum_list_cons, <- IH.
  by case_decide.
Qed.

Lemma sum_list_ones {A} (l : list A) : sum_list ((λ _, 1) <$> l) = length l.
Proof.
  induction l as [|x l IH]; [done|]. rewrite fmap_cons, sum_list_cons, IH. done.
Qed.

Lemma totalLessons_sum c :
  totalLessons c = lessons_sum (λ _, 1) (Course.modules c).
Proof.
  unfold totalLessons, lessons_sum. rewrite foldl_add_sum. simpl.
  f_equal. apply list_fmap_ext. intros _ m _. simpl. by rewrite sum_list_ones.
Qed.

Lemma completedLessons_sum c :
  completedLessons c = lessons_sum is_completed (Course.modules c).
Proof.
  unfold completedLessons, lessons_sum. rewrite foldl_add_sum. simpl.
  f_equal. apply list_fmap_ext. intros _ m _. simpl.
  by rewrite length_filter_sum.
Qed.

Lemma sum_list_alter {A} (f : A → nat) (g : A → A) l i x :
  l !! i = Some x →
  sum_list (f <$> alter g i l) + f x = sum_list (f <$> l) + f (g x).
Proof.
  revert i. induction l as [|y l IH]; intros [|i] H; [done|done| |].
  - injection H as ->. cbn [alter list_alter]. rewrite !fmap_cons, !sum_list_cons. lia.
  - cbn [alter list_alter]. rewrite !fmap_cons, !sum_list_cons.
    specialize (IH i H). cbn [alter] in IH. lia.
Qed.

Lemma lessons_sum_assign μ f m l ms ms' x :
  lesson_at ms m l = Some x →
  assign_lesson f m l ms = Ok ms' →
  lessons_sum μ ms' + μ x = lessons_sum μ ms + μ (f x).
Proof.
  unfold assign_lesson. intros Hx. rewrite Hx. intros [= <-].
  unfold lesson_at in Hx. destruct (ms !! m) as [md|] eqn:Em; [|done].
  simpl in Hx. unfold lessons_sum.
  pose proof (sum_list_alter (λ md, sum_list (μ <$> Mod.lessons md))
                (λ md, Mod.set_lessons (alter f l (Mod.lessons md)) md) ms m md Em)
    as H1.
  pose proof (sum_list_alter μ f (Mod.lessons md) l x Hx) as H2.
  cbn [Mod.lessons Mod.set_lessons] in H1. lia.
Qed.

Lemma sum_list_le {A} (μ ν : A → nat) l :
  (∀ x, μ x ≤ ν x) → sum_list (μ <$> l) ≤ sum_list (ν <$> l).
Proof.
  intros H. induction l as [|x l IH]; [done|].
  rewrite !fmap_cons, !sum_list_cons. specialize (H x). lia.
Qed.

Lemma lessons_sum_le μ ν ms :
  (∀ x, μ x ≤ ν x) → lessons_sum μ ms ≤ lessons_sum ν ms.
Proof.
  intros H. unfold lessons_sum. apply sum_list_le. intros m.
  by apply sum_list_le.
Qed.

Lemma lessons_sum_app μ ms ms' :
  lessons_sum μ (ms ++ ms') = lessons_sum μ ms + lessons_sum μ ms'.
Proof.
  unfold lessons_sum. induction ms as [|m ms IH]; [done|].
  rewrite <- app_comm_cons, !fmap_cons, !sum_list_cons, IH. lia.
Qed.

Lemma sum_list_zero {A} (μ : A → nat) l :
  (∀ i x, l !! i = Some x → μ x = 0) → sum_list (μ <$> l) = 0.
Proof.
  induction l as [|y l IH]; intros H; [done|].
  rewrite fmap_cons, sum_list_cons, (H 0 y) by done.
  apply IH. intros i x. apply (H (S i) x).
Qed.

Lemma lessons_sum_zero μ ms :
  (∀ m l x, lesson_at ms m l = Some x → μ x = 0) → lessons_sum μ ms = 0.
Proof.
  intros H. unfold lessons_sum. apply sum_list_zero. intros m md Hmd.
  apply sum_list_zero. intros l x Hx. apply (H m l x).
  unfold lesson_at. by rewrite Hmd.
Qed.

(** X13: The skip button counts the lesson once: the number of lessons stays,
    the number of completed lessons grows by one when the current lesson
    was not completed and stays otherwise; it never exceeds the number of
    lessons. *)
Theorem skip_counts_the_lesson_once (c c' : Course.t) (x : Lesson.t) :
  activeLesson c = Some x →
  markLessonCompleted c = Ok c' →
  totalLessons c' = totalLessons c
  ∧ completedLessons c'
    = completedLessons c + (if decide (Lesson.status x = completed) then 0 else 1)
  ∧ completedLessons c' ≤ totalLessons c'.
Proof.
  intros Hx. unfold markLessonCompleted.
  destruct (assign_lesson _ _ _ _) as [ms|] eqn:E; [|done]. simpl.
  intros [= <-]. rewrite !totalLessons_sum, !completedLessons_sum. simpl.
  pose proof (lessons_sum_assign (λ _, 1) _ _ _ _ _ _ Hx E) as H1.
  pose proof (lessons_sum_assign is_completed _ _ _ _ _ _ Hx E) as H2.
  pose proof (lessons_sum_le is_completed (λ _, 1) ms) as H3.
  unfold is_completed in *. simpl in *.
  split; [lia|]. split.
  - destruct (decide (Lesson.status x = completed)); lia.
  - apply H3. intros y. destruct (decide (Lesson.status y = completed)); lia.
Qed.

Lemma skip_counts_the_lesson_once_witness :
  totalLessons (UI.course (ui_step sample_gateway sample_mounted SkipToPractice))
  = totalLessons (UI.course sample_mounted)
  ∧ completedLessons (UI.course (ui_step sample_gateway sample_mounted SkipToPractice))
    = completedLessons (UI.course sample_mounted)
      + (if decide (Lesson.status sample_loaded_lesson = completed) then 0 else 1)
  ∧ completedLessons (UI.course (ui_step sample_gateway sample_mounted SkipToPractice))
    ≤ totalLessons (UI.course (ui_step sample_gateway sample_mounted SkipToPractice)).
Proof.
  apply (skip_counts_the_lesson_once (UI.course sample_mounted)
           (UI.course (ui_step sample_gateway sample_mounted SkipToPractice))
           sample_loaded_lesson); reflexivity.
Defined.

(** X14: An expansion adds the lessons of the new modules to the number of
    lessons and leaves the number of completed lessons as it is. *)
Theorem expansion_keeps_completed_count (c c' : Course.t) (r : Response)
    (newModules : list Mod.t) :
  handleConfirmExpand c r = Some c' →
  expandCourse c r = Ok newModules →
  totalLessons c'
    = totalLessons c + sum_list ((λ m, length (Mod.lessons m)) <$> newModules)
  ∧ completedLessons c' = completedLessons c.
Proof.
  intros H E. destruct (handleConfirmExpand_inv _ _ _ H) as (new & E' & ->).
  rewrite E in E'. injection E' as <-.
  rewrite !totalLessons_sum, !completedLessons_sum. simpl.
  rewrite !lessons_sum_app. split.
  - f_equal. unfold lessons_sum. f_equal. apply list_fmap_ext. intros _ m _.
    simpl. by rewrite sum_list_ones.
  - rewrite (lessons_sum_zero is_completed newModules); [lia|].
    intros m l x Hx. destruct (expandCourse_raw _ _ _ E) as [raw Hraw].
    destruct (generated_lessons _ _ _ _ Hraw m l x Hx) as (_ & Hst & _).
    unfold is_completed. by rewrite Hst.
Qed.

Lemma expansion_keeps_completed_count_witness :
  totalLessons sample_expanded
    = totalLessons sample_course
      + sum_list ((λ m, length (Mod.lessons m))
                    <$> drop 1 (Course.modules sample_expanded))
  ∧ completedLessons sample_expanded = completedLessons sample_course.
Proof.
  apply (expansion_keeps_completed_count sample_course sample_expanded
           sample_expansion (drop 1 (Course.modules sample_expanded)));
    reflexivity.
Defined.


(** ** Illustrations and videos *)

(** X15: A lesson whose text is cached but that has neither illustration nor
    video asks the gateway for the illustration, and for nothing else, each
    time it is loaded.  When the gateway delivers one it is stored on the
    lesson and shown, and the next load is silent; when it does not the
    course stays as it is and the next load asks again. *)
Theorem missing_illustration_is_requested_again (gw : Gateway) (s : UI.t)
    (x : Lesson.t) :
  activeLesson (UI.course s) = Some x →
  truthy_str (Lesson.content x) = true →
  truthy_str (Lesson.imageUrl x) = false →
  truthy_str (Lesson.videoUrl x) = false →
  UI.calls (loadLesson gw s) = UI.calls s ++ [CallIllustration]
  ∧ (truthy_str (generateLessonIllustration gw (length (UI.calls s))
                   (Course.topic (UI.course s)) (Lesson.title x)) = true →
     activeLesson (UI.course (loadLesson gw s))
     = Some (Lesson.set_imageUrl
               (generateLessonIllustration gw (length (UI.calls s))
                  (Course.topic (UI.course s)) (Lesson.title x)) x)
     ∧ View.generatedImage (UI.view (loadLesson gw s))
       = generateLessonIllustration gw (length (UI.calls s))
           (Course.topic (UI.course s)) (Lesson.title x)
     ∧ UI.calls (loadLesson gw (loadLesson gw s)) = UI.calls (loadLesson gw s))
  ∧ (truthy_str (generateLessonIllustration gw (length (UI.calls s))
                   (Course.topic (UI.course s)) (Lesson.title x)) = false →
     UI.course (loadLesson gw s) = UI.course s
     ∧ UI.calls (loadLesson gw (loadLesson gw s))
       = UI.calls s ++ [CallIllustration; CallIllustration]).
Proof.
  intros Hx Hc Hi Hv.
  set (img := generateLessonIllustration gw (length (UI.calls s))
                (Course.topic (UI.course s)) (Lesson.title x)).
  assert (Hload : loadLesson gw s
    = if truthy_str img
      then UI.mk (update_active (Lesson.set_imageUrl img) (UI.course s))
             (View.mk (default "" (Lesson.content x)) img
                (default [] (Lesson.quiz x))
                (default [] (Lesson.codingChallenges x)) READING [] false)
             (UI.depId s) (UI.calls s ++ [CallIllustration])
      else UI.mk (UI.course s) (cached_view x) (UI.depId s)
             (UI.calls s ++ [CallIllustration])).
  { unfold loadLesson. rewrite Hx, Hc, Hi, Hv. simpl. fold img.
    by destruct (truthy_str img). }
  rewrite Hload. split; [by destruct (truthy_str img)|]. split.
  - intros Himg. rewrite Himg.
    assert (Hx1 : activeLesson (update_active (Lesson.set_imageUrl img) (UI.course s))
                  = Some (Lesson.set_imageUrl img x))
      by by apply activeLesson_update_active.
    split; [done|]. split; [done|].
    match goal with
    | |- UI.calls (loadLesson gw ?s1) = _ =>
        rewrite (loadLesson_cached gw s1 _ Hx1); [done|done|]
    end.
    change (truthy_str img || truthy_str (Lesson.videoUrl x) = true).
    by rewrite Himg.
  - intros Himg. rewrite Himg. simpl. split; [done|].
    unfold loadLesson. simpl. rewrite Hx, Hc, Hi, Hv. simpl.
    rewrite <- app_assoc. simpl.
    destruct (truthy_str (generateLessonIllustration gw _ _ _)); reflexivity.
Qed.

Lemma missing_illustration_is_requested_again_witness :
  UI.calls (loadLesson sample_gateway imageless_mounted)
  = UI.calls imageless_mounted ++ [CallIllustration]
  ∧ (truthy_str (generateLessonIllustration sample_gateway
                   (length (UI.calls imageless_mounted))
                   (Course.topic (UI.course imageless_mounted))
                   (Lesson.title imageless_lesson)) = true →
     activeLesson (UI.course (loadLesson sample_gateway imageless_mounted))
     = Some (Lesson.set_imageUrl
               (generateLessonIllustration sample_gateway
                  (length (UI.calls imageless_mounted))
                  (Course.topic (UI.course imageless_mounted))
                  (Lesson.title imageless_lesson)) imageless_lesson)
     ∧ View.generatedImage (UI.view (loadLesson sample_gateway imageless_mounted))
       = generateLessonIllustration sample_gateway
           (length (UI.calls imageless_mounted))
           (Course.topic (UI.course imageless_mounted))
           (Lesson.title imageless_lesson)
     ∧ UI.calls (loadLesson sample_gateway
                   (loadLesson sample_gateway imageless_mounted))
       = UI.calls (loadLesson sample_gateway imageless_mounted))
  ∧ (truthy_str (generateLessonIllustration sample_gateway
                   (length (UI.calls imageless_mounted))
                   (Course.topic (UI.course imageless_mounted))
                   (Lesson.title imageless_lesson)) = false →
     UI.course (loadLesson sample_gateway imageless_mounted)
     = UI.course imageless_mounted
     ∧ UI.calls (loadLesson sample_gateway
                   (loadLesson sample_gateway imageless_mounted))
       = UI.calls imageless_mounted ++ [CallIllustration; CallIllustration]).
Proof.
  apply (missing_illustration_is_requested_again sample_gateway
           imageless_mounted imageless_lesson); reflexivity.
Defined.

(** ** The sidebar *)

Lemma toggleModule_elem (modId i : string) (expandedModules : gset string) :
  i ∈ toggleModule modId expandedModules
  ↔ (i = modId ∧ modId ∉ expandedModules) ∨ (i ≠ modId ∧ i ∈ expandedModules).
Proof.
  unfold toggleModule.
  destruct (decide (modId ∈ expandedModules)) as [Hin|Hin].
  - rewrite elem_of_difference, elem_of_singleton.
    destruct (decide (i = modId)) as [->|]; intuition congruence.
  - rewrite elem_of_union, elem_of_singleton.
    destruct (decide (i = modId)) as [->|]; intuition congruence.
Qed.

(** X17: [toggleModule] flips the module it is given and no other, so that two
    clicks restore the sidebar; and a submitted quiz folds no module. *)
Theorem toggleModule_flips_one_module (c : Course.t) (modId : string)
    (expandedModules : gset string) :
  toggleModule modId (toggleModule modId expandedModules) = expandedModules
  ∧ (modId ∈ toggleModule modId expandedModules ↔ modId ∉ expandedModules)
  ∧ (∀ i, i ≠ modId →
       i ∈ toggleModule modId expandedModules ↔ i ∈ expandedModules)
  ∧ expandedModules ⊆ submitQuiz_expanded c expandedModules.
Proof.
  split; [|split; [|split]].
  - apply set_eq. intros i. rewrite !toggleModule_elem.
    destruct (decide (i = modId)) as [->|];
      destruct (decide (modId ∈ expandedModules)); intuition congruence.
  - rewrite toggleModule_elem. intuition congruence.
  - intros i Hi. rewrite toggleModule_elem. intuition congruence.
  - unfold submitQuiz_expanded.
    destruct (activeLesson c); [|done].
    destruct (next_position _ _ _) as [next|]; [|done].
    destruct (_ && _); [|done].
    destruct (_ !! _); [|done].
    intros i Hi. apply elem_of_union. by left.
Qed.

(** X18: When the lesson that a submitted quiz unlocks is the first of the next
    module, that module is unfolded in the sidebar, and no other set of
    modules changes. *)
Theorem quiz_unfolds_next_module (c : Course.t) (x : Lesson.t) (md : Mod.t)
    (expandedModules : gset string) :
  activeLesson c = Some x →
  next_position (Course.modules c) (Course.currentModuleIndex c)
    (Course.currentLessonIndex c) = Ok (Course.currentModuleIndex c + 1, 0) →
  lesson_at (Course.modules c) (Course.currentModuleIndex c + 1) 0 ≠ None →
  Course.modules c !! (Course.currentModuleIndex c + 1) = Some md →
  submitQuiz_expanded c expandedModules = expandedModules ∪ {[Mod.id md]}.
Proof.
  intros Hx Hn Hex Hmd.
  unfold submitQuiz_expanded. rewrite Hx, Hn. simpl.
  assert (position_exists (Course.modules c) (Course.currentModuleIndex c + 1, 0)
          = true) as ->.
  { apply position_exists_lesson_at. simpl.
    by destruct (lesson_at _ _ 0); [eauto|]. }
  rewrite (proj2 (Nat.eqb_neq _ _)) by lia. simpl. by rewrite Hmd.
Qed.

Lemma quiz_unfolds_next_module_witness :
  submitQuiz_expanded boundary_course {[ "mod-0" ]}
  = {[ "mod-0" ]} ∪ {[ Mod.id spectra_module ]}.
Proof.
  apply (quiz_unfolds_next_module boundary_course boundary_lesson
           spectra_module {[ "mod-0" ]}); [reflexivity|reflexivity|done|reflexivity].
Defined.


(** ** The lesson on screen is never locked *)

Lemma pretty_N_go_dashless x s : dashless s → dashless (pretty_N_go x s).
Proof.
  revert s. induction (N.lt_wf_0 x) as [x _ IH]; intros s Hs.
  assert (x = 0 ∨ 0 < x)%N as [->|Hx] by lia.
  - by rewrite pretty_N_go_0.
  - rewrite pretty_N_go_step by done. apply IH.
    { by apply N.div_lt. }
    split; [|done]. unfold pretty_N_char. by repeat case_match.
Qed.

Lemma pretty_nat_dashless (n : nat) : dashless (pretty n).
Proof.
  unfold pretty, pretty_nat, pretty, pretty_N.
  case_decide; [done|]. by apply pretty_N_go_dashless.
Qed.

Lemma dash_split a a' b b' :
  dashless a → dashless a' →
  a +:+ String "-" b = a' +:+ String "-" b' → a = a' ∧ b = b'.
Proof.
  revert a'. induction a as [|x a IH]; intros [|x' a']; simpl.
  - by intros _ _ [= ->].
  - intros _ [? _] [= <- _]. done.
  - intros [? _] _ [= -> _]. done.
  - intros [_ Ha] [_ Ha'] [= -> H]. by destruct (IH _ Ha Ha' H) as [-> ->].
Qed.

Lemma lesson_id_inj m l m' l' : lesson_id m l = lesson_id m' l' → m = m' ∧ l = l'.
Proof.
  unfold lesson_id. intros H.
  apply (inj (String.app "mod-")) in H.
  apply dash_split in H as [Hm H]; [|apply pretty_nat_dashless..].
  apply (inj (String.app "less-")) in H.
  split; by apply (inj pretty).
Qed.

Lemma populated_shape ms : populated ms ↔ ∀ k, shape ms k ≠ Some 0.
Proof.
  unfold populated, shape. rewrite Forall_lookup. split.
  - intros H k. destruct (ms !! k) as [md|] eqn:E; simpl; [|done].
    specialize (H _ _ E). simpl in H. intros [= Hz]. lia.
  - intros H k md E. specialize (H k). rewrite E in H. simpl in H.
    destruct (length (Mod.lessons md)); [done|lia].
Qed.

Lemma populated_same_shape ms ms' :
  (∀ k, shape ms' k = shape ms k) → populated ms → populated ms'.
Proof.
  rewrite !populated_shape. intros H Hp k. rewrite H. apply Hp.
Qed.


Lemma update_active_shape f c k :
  shape (Course.modules (update_active f c)) k = shape (Course.modules c) k.
Proof.
  unfold update_active.
  destruct (assign_lesson _ _ _ _) as [ms|] eqn:E; [|done].
  by eapply assign_lesson_shape.
Qed.

Lemma loadLesson_shape gw s k :
  shape (Course.modules (UI.course (loadLesson gw s))) k
  = shape (Course.modules (UI.course s)) k.
Proof.
  unfold loadLesson. destruct (activeLesson (UI.course s)); [|done].
  repeat case_match; simpl; try done; apply update_active_shape.
Qed.

Lemma run_effect_shape gw s k :
  shape (Course.modules (UI.course (run_effect gw s))) k
  = shape (Course.modules (UI.course s)) k.
Proof.
  unfold run_effect. repeat case_match; try done. apply loadLesson_shape.
Qed.

Lemma markLessonCompleted_shape c c' k :
  markLessonCompleted c = Ok c' →
  shape (Course.modules c') k = shape (Course.modules c) k.
Proof.
  unfold markLessonCompleted.
  destruct (assign_lesson _ _ _ _) as [ms|] eqn:E; [|done].
  intros [= <-]. by eapply assign_lesson_shape.
Qed.

Lemma next_lesson_exists ms m l next :
  populated ms → is_Some (lesson_at ms m l) →
  next_position ms m l = Ok next → next.1 < length ms →
  is_Some (lesson_at ms next.1 next.2).
Proof.
  intros Hp [x Hx] Hn Hlt. unfold next_position, lesson_at in *.
  destruct (ms !! m) as [md|] eqn:Em; [|done]. simpl in Hx.
  destruct (Nat.leb _ _) eqn:El; injection Hn as <-; simpl in *.
  - destruct (lookup_lt_is_Some_2 ms (m + 1) Hlt) as [md' Em'].
    rewrite Em'. simpl. apply lookup_lt_is_Some.
    unfold populated in Hp. rewrite Forall_lookup in Hp. by eapply (Hp _ _ Em').
  - rewrite Em. simpl. apply lookup_lt_is_Some.
    apply Nat.leb_gt in El. lia.
Qed.

(** ** The current lesson *)

Lemma run_effect_current gw s :
  populated (Course.modules (UI.course s)) →
  is_Some (activeLesson (UI.course s)) →
  populated (Course.modules (UI.course (run_effect gw s)))
  ∧ is_Some (activeLesson (UI.course (run_effect gw s))).
Proof.
  intros Hpop Hx. split.
  - eapply populated_same_shape; [|exact Hpop]. intros k. apply run_effect_shape.
  - unfold activeLesson in *.
    destruct (run_effect_position gw s) as [-> ->].
    apply fmap_is_Some with (f := λ _ : Lesson.t, ()).
    rewrite (run_effect_frame (λ _, ())) by done. by apply fmap_is_Some.
Qed.

Lemma rerender_current gw s :
  populated (Course.modules (UI.course s)) →
  is_Some (activeLesson (UI.course s)) →
  populated (Course.modules (UI.course (rerender gw s)))
  ∧ is_Some (activeLesson (UI.course (rerender gw s))).
Proof.
  intros Hpop Hx. unfold rerender. case_decide; [done|].
  by apply run_effect_current.
Qed.

Lemma current_step gw s e :
  populated_expansion e →
  populated (Course.modules (UI.course s)) →
  is_Some (activeLesson (UI.course s)) →
  populated (Course.modules (UI.course (ui_step gw s e)))
  ∧ is_Some (activeLesson (UI.course (ui_step gw s e))).
Proof.
  intros He Hpop [x Hx].
  destruct e; simpl; try (repeat case_match; by eauto).
  - (* SelectLesson *)
    unfold handleLessonSelect.
    destruct (lesson_at (Course.modules (UI.course s)) mIdx lIdx) as [y|] eqn:Hy;
      [|by eauto].
    destruct (decide (Lesson.status y = locked)); [by eauto|].
    apply rerender_current; simpl; [done|]. unfold activeLesson. simpl. eauto.
  - (* SkipToPractice *)
    destruct (decide (View.viewStage (UI.view s) = READING)); [|by eauto].
    destruct (markLessonCompleted_spec _ _ Hx)
      as (c' & E & Hm & Hl & _ & _ & Hat).
    rewrite E. apply rerender_current; simpl.
    + eapply populated_same_shape; [|exact Hpop].
      intros k. by eapply markLessonCompleted_shape.
    + unfold activeLesson. rewrite Hm, Hl, Hat. rewrite decide_True by done. eauto.
  - (* SubmitQuiz *)
    destruct (_ && _); [|by eauto].
    destruct (submitQuiz_spec _ _ Hx)
      as (c' & next & E & Hn & Hm & Hl & _ & _ & Hat).
    rewrite E. apply rerender_current; simpl.
    + eapply populated_same_shape; [|exact Hpop].
      intros k. by eapply submitQuiz_shape.
    + unfold activeLesson. rewrite Hm, Hl, Hat. rewrite decide_True by done. eauto.
  - (* NextLesson *)
    destruct (bool_decide _ && View.quizSubmitted (UI.view s)); [|by eauto].
    unfold moveToNextLesson.
    destruct (next_position _ _ _) as [next|] eqn:Hn; [|by eauto]. simpl.
    destruct (Nat.ltb _ _) eqn:Hlt; [|by eauto].
    apply Nat.ltb_lt in Hlt.
    apply rerender_current; simpl; [done|].
    by eapply next_lesson_exists.
  - (* ExpandCourse *)
    destruct (handleConfirmExpand (UI.course s) r) as [c'|] eqn:E; [|by eauto].
    destruct (handleConfirmExpand_inv _ _ _ E) as (new & Hexp & ->).
    unfold mount. apply run_effect_current; simpl.
    + apply Forall_app. split; [done|]. by eapply He.
    + unfold activeLesson in *. simpl.
      rewrite expanded_old_lesson; [by eauto|].
      unfold lesson_at in Hx.
      destruct (Course.modules (UI.course s) !! _) eqn:Em; [|done].
      by eapply lookup_lt_Some.
Qed.

Lemma current_run gw es : ∀ s,
  Forall populated_expansion es →
  populated (Course.modules (UI.course s)) →
  is_Some (activeLesson (UI.course s)) →
  is_Some (activeLesson (UI.course (ui_run gw s es))).
Proof.
  unfold ui_run. induction es as [|e es IH]; intros s Hes Hpop Hx; simpl; [done|].
  inversion Hes; subst.
  destruct (current_step gw s e) as [? ?]; [done..|]. by apply IH.
Qed.

(** C4, as the code has it.  A locked target: [handleLessonSelect] returns
    without an update and the click changes nothing.  A target that is not
    locked: the current position becomes the target, whose lesson is then
    the current one; the stage is reset to READING (and the quiz answers
    cleared) when the id of the target is not the id of the lesson that was
    current, and the view is left as it is when it is the same id.  At all
    times exactly one lesson is the current one, in a course each of whose
    modules has a lesson: whatever happens in the view of such a course
    that has a current lesson (expansions that bring no module without
    lessons among it), there is a current lesson, and one only. *)
Theorem select_lesson_moves_to_unlocked_target (gw : Gateway) (s : UI.t)
    (m l : nat) (target : Lesson.t) :
  consistent s →
  lesson_at (Course.modules (UI.course s)) m l = Some target →
  (Lesson.status target = locked →
     handleLessonSelect (UI.course s) m l = Ok None
     ∧ ui_step gw s (SelectLesson m l) = s)
  ∧ (Lesson.status target ≠ locked →
     Course.currentModuleIndex (UI.course (ui_step gw s (SelectLesson m l))) = m
     ∧ Course.currentLessonIndex (UI.course (ui_step gw s (SelectLesson m l))) = l
     ∧ Lesson.id <$> activeLesson (UI.course (ui_step gw s (SelectLesson m l)))
       = Some (Lesson.id target)
     ∧ Lesson.status <$> activeLesson (UI.course (ui_step gw s (SelectLesson m l)))
       = Some (Lesson.status target)
     ∧ (lesson_dep (UI.course s) ≠ Some (Lesson.id target) →
        View.viewStage (UI.view (ui_step gw s (SelectLesson m l))) = READING
        ∧ View.quizAnswers (UI.view (ui_step gw s (SelectLesson m l))) = []
        ∧ View.quizSubmitted (UI.view (ui_step gw s (SelectLesson m l))) = false)
     ∧ (lesson_dep (UI.course s) = Some (Lesson.id target) →
        UI.view (ui_step gw s (SelectLesson m l)) = UI.view s))
  ∧ (∀ es : list Event,
       populated (Course.modules (UI.course s)) →
       is_Some (activeLesson (UI.course s)) →
       Forall populated_expansion es →
       ∃ x, activeLesson (UI.course (ui_run gw s es)) = Some x
          ∧ ∀ y, activeLesson (UI.course (ui_run gw s es)) = Some y → y = x).
Proof.
  intros Hdep Ht. split; [|split].
  - intros Hlocked. simpl. unfold handleLessonSelect. rewrite Ht.
    by rewrite decide_True.
  - intros Hunlocked. simpl.
    rewrite (handleLessonSelect_unlocked _ _ _ _ Ht Hunlocked).
    set (s1 := UI.set_course (Course.set_current m l (UI.course s)) s).
    assert (Hact : activeLesson (UI.course s1) = Some target) by done.
    destruct (rerender_position gw s1) as [Hm Hl]. simpl in Hm, Hl.
    split; [done|]. split; [done|].
    split; [|split].
    { unfold activeLesson. rewrite Hm, Hl.
      rewrite (rerender_frame Lesson.id) by done. simpl. by rewrite Ht. }
    { unfold activeLesson. rewrite Hm, Hl.
      rewrite (rerender_frame Lesson.status) by done. simpl. by rewrite Ht. }
    assert (Hd1 : lesson_dep (UI.course s1) = Some (Lesson.id target)).
    { unfold lesson_dep. by rewrite Hact. }
    split.
    + intros Hne. unfold rerender. rewrite Hd1. simpl.
      rewrite decide_False by (rewrite Hdep; congruence).
      unfold run_effect. simpl.
      change (activeLesson (Course.set_current m l (UI.course s)))
        with (activeLesson (UI.course s1)).
      rewrite Hact. rewrite decide_False by done.
      by apply (loadLesson_view_reset gw _ target).
    + intros Heq. rewrite rerender_same_dep; [done|].
      rewrite Hd1. simpl. by rewrite Hdep.
  - intros es Hpop Hx Hes.
    destruct (current_run gw es s Hes Hpop Hx) as [x Hcur].
    exists x. split; [done|]. intros y Hy. congruence.
Qed.

Lemma select_lesson_moves_to_unlocked_target_witness :
  (handleLessonSelect (UI.course sample_mounted) 0 1 = Ok None
   ∧ ui_step sample_gateway sample_mounted (SelectLesson 0 1) = sample_mounted)
  ∧ (View.viewStage (UI.view both_passed) = QUIZ
     ∧ Course.currentLessonIndex (UI.course both_passed) = 1
     ∧ Course.currentModuleIndex
         (UI.course (ui_step sample_gateway both_passed (SelectLesson 0 0))) = 0
     ∧ Course.currentLessonIndex
         (UI.course (ui_step sample_gateway both_passed (SelectLesson 0 0))) = 0
     ∧ Lesson.id <$> activeLesson
         (UI.course (ui_step sample_gateway both_passed (SelectLesson 0 0)))
       = Some (Lesson.id revisited_lesson)
     ∧ View.viewStage
         (UI.view (ui_step sample_gateway both_passed (SelectLesson 0 0))) = READING
     ∧ View.quizAnswers
         (UI.view (ui_step sample_gateway both_passed (SelectLesson 0 0))) = []
     ∧ View.quizSubmitted
         (UI.view (ui_step sample_gateway both_passed (SelectLesson 0 0))) = false)
  ∧ ∃ x, activeLesson
           (UI.course (ui_run sample_gateway sample_mounted
                         (pass_lesson ++ [NextLesson; SelectLesson 0 0])))
         = Some x
       ∧ ∀ y, activeLesson
                (UI.course (ui_run sample_gateway sample_mounted
                              (pass_lesson ++ [NextLesson; SelectLesson 0 0])))
              = Some y → y = x.
Proof.
  destruct (select_lesson_moves_to_unlocked_target sample_gateway sample_mounted
              0 1 sample_locked_lesson eq_refl eq_refl) as (Hlocked & _ & Hone).
  destruct (select_lesson_moves_to_unlocked_target sample_gateway both_passed
              0 0 revisited_lesson eq_refl eq_refl) as (_ & Hopen & _).
  split; [|split].
  - apply Hlocked. reflexivity.
  - destruct Hopen as (Hm & Hl & Hid & _ & Hreset & _); [done|].
    destruct Hreset as (Hst & Hans & Hsub); [done|].
    repeat split; try done.
  - apply Hone.
    + repeat constructor.
    + by eexists.
    + repeat constructor.
Defined.

(** C4, as the specification states it, fails twice.  In the QUIZ stage of
    the first lesson, which is not locked, the click on that lesson in the
    sidebar leaves the stage at QUIZ.  And in a course whose second module
    has no lesson, the button to the next lesson, pressed after the quiz of
    the first lesson, leaves the course without current lesson. *)
Lemma selecting_current_lesson_keeps_stage :
  (status_at
     (Course.modules (UI.course (ui_run sample_gateway sample_mounted
                                   [GoToPractice; GoToQuiz]))) 0 0
     = Some unlocked
   ∧ View.viewStage
       (UI.view (ui_step sample_gateway
                   (ui_run sample_gateway sample_mounted [GoToPractice; GoToQuiz])
                   (SelectLesson 0 0)))
     = QUIZ)
  ∧ (is_Some (activeLesson (UI.course (mount sample_gateway hollow_course [])))
     ∧ activeLesson
         (UI.course (ui_run sample_gateway (mount sample_gateway hollow_course [])
                       (pass_lesson ++ [NextLesson])))
       = None).
Proof. repeat split; try (vm_compute; reflexivity). by eexists. Qed.






Lemma generateRoadmap_positional r ms :
  generateRoadmap r = Ok ms →
  positional ms
  ∧ ∀ x, lesson_at ms 0 0 = Some x → Lesson.status x = unlocked.
Proof.
  intros E. destruct (generateRoadmap_raw _ _ E) as [raw Hraw]. split.
  - intros m l x Hx.
    by destruct (generated_lessons _ _ _ _ Hraw m l x Hx) as (-> & _).
  - intros x Hx.
    by destruct (generated_lessons _ _ _ _ Hraw 0 0 x Hx) as (_ & -> & _).
Qed.



(** The hypothesis on the modules is needed: through a module without
    lessons the button to the next lesson, which stays on screen with the
    submitted quiz, leads on to a lesson that is still locked. *)
Example empty_module_leads_to_locked_lesson :
  Lesson.status
    <$> activeLesson
          (UI.course
             (ui_run sample_gateway (mount sample_gateway hollow_course [])
                (pass_lesson ++ [NextLesson; NextLesson])))
  = Some locked.
Proof. reflexivity. Qed.


(** ** [cleanJson] *)

#[local] Arguments N.eqb : simpl never.
#[local] Arguments backtick : simpl never.

Lemma skip_spaces_suffix l : ∃ k, l = k ++ skip_spaces l.
Proof.
  induction l as [|c r [k IH]]; simpl; [by exists []|].
  destruct (is_space c); [|by exists []].
  exists (c :: k). simpl. by rewrite <- IH.
Qed.

Lemma skip_spaces_length l : length (skip_spaces l) ≤ length l.
Proof.
  destruct (skip_spaces_suffix l) as [k Hk]. rewrite Hk at 2.
  rewrite length_app. lia.
Qed.

Lemma skip_spaces_head l c : head (skip_spaces l) = Some c → is_space c = false.
Proof.
  induction l as [|a r IH]; simpl; [done|].
  destruct (is_space a) eqn:Ea; [done|]. simpl. by intros [= <-].
Qed.

Lemma skip_spaces_fixed l :
  (∀ c, head l = Some c → is_space c = false) → skip_spaces l = l.
Proof. destruct l as [|a r]; simpl; [done|]. intros H. by rewrite (H a). Qed.

Lemma skip_spaces_all ws l :
  Forall (λ c, is_space c = true) ws → skip_spaces (ws ++ l) = skip_spaces l.
Proof. induction 1 as [|c ws Hc _ IH]; simpl; [done|]. by rewrite Hc. Qed.

Lemma strip_fuel_enough pat n : ∀ l m,
  pat ≠ [] → length l ≤ n → length l ≤ m →
  strip_fuel n pat l = strip_fuel m pat l.
Proof.
  induction n as [|n IH]; intros l m Hp Hn Hm.
  { destruct l; [|simpl in Hn; lia]. by destruct m. }
  destruct l as [|c r]; [by destruct m|].
  destruct m as [|m]; [simpl in Hm; lia|]. simpl in *.
  destruct (starts_with pat (c :: r)).
  - apply IH; [done|..].
    + etrans; [apply skip_spaces_length|].
      destruct pat; [done|]. simpl. rewrite length_drop. lia.
    + etrans; [apply skip_spaces_length|].
      destruct pat; [done|]. simpl. rewrite length_drop. lia.
  - f_equal. apply IH; [done|lia..].
Qed.

(** The equations of [strip]: the fuel never runs out. *)
Lemma strip_nil pat : strip pat [] = [].
Proof. done. Qed.

Lemma strip_cons pat c r :
  pat ≠ [] →
  strip pat (c :: r)
  = if starts_with pat (c :: r)
    then strip pat (skip_spaces (drop (length pat) (c :: r)))
    else c :: strip pat r.
Proof.
  intros Hp. unfold strip. simpl.
  destruct (starts_with pat (c :: r)); [|done].
  apply strip_fuel_enough; [done| |done].
  etrans; [apply skip_spaces_length|].
  destruct pat; [done|]. simpl. rewrite length_drop. lia.
Qed.

Lemma starts_with_prefix pat l :
  starts_with pat l = true ↔ ∃ b, l = pat ++ b.
Proof.
  revert l. induction pat as [|p ps IH]; intros l; simpl.
  { split; [eauto|done]. }
  destruct l as [|c r].
  { split; [done|]. by intros [b ?]. }
  rewrite andb_true_iff, N.eqb_eq, IH. split.
  - intros [-> [b ->]]. eauto.
  - intros [b [= -> ->]]. eauto.
Qed.

Lemma strip_no_match pat c r :
  pat ≠ [] → starts_with pat (c :: r) = false →
  strip pat (c :: r) = c :: strip pat r.
Proof. intros Hp E. by rewrite strip_cons, E. Qed.

Lemma strip_fence_head l : starts_with fence (strip fence l) = false.
Proof.
  remember (length l) as n eqn:Hn. revert l Hn.
  induction (lt_wf n) as [n _ IH]. intros l ->.
  destruct l as [|c r]; [done|].
  rewrite strip_cons by done.
  destruct (starts_with fence (c :: r)) eqn:E.
  { apply (IH (length (skip_spaces (drop (length fence) (c :: r))))); [|done].
    eapply Nat.le_lt_trans; [apply skip_spaces_length|].
    simpl. rewrite length_drop. lia. }
  destruct (starts_with fence (c :: strip fence r)) eqn:E'; [|done].
  exfalso. simpl in E'.
  destruct (N.eqb_spec backtick c) as [<-|]; [|done]. simpl in E'.
  destruct r as [|c2 r2]; [done|].
  rewrite strip_cons in E' by done.
  destruct (starts_with fence (c2 :: r2)) eqn:E2.
  { simpl in E, E2. destruct (N.eqb backtick c2); [|done]. simpl in *.
    destruct r2 as [|c3 r3]; [done|].
    by destruct (N.eqb backtick c3). }
  destruct (N.eqb_spec backtick c2) as [<-|]; [|done]. simpl in E'.
  destruct r2 as [|c3 r3]; [done|].
  rewrite strip_cons in E' by done.
  destruct (starts_with fence (c3 :: r3)) eqn:E3.
  { simpl in E, E3. by destruct (N.eqb backtick c3). }
  destruct (N.eqb_spec backtick c3) as [<-|]; [|done].
  simpl in E. done.
Qed.

Lemma strip_fence_clean l a b : strip fence l ≠ a ++ fence ++ b.
Proof.
  remember (length l) as n eqn:Hn. revert l Hn a b.
  induction (lt_wf n) as [n _ IH]. intros l -> a b.
  destruct l as [|c r].
  { rewrite strip_nil. by destruct a. }
  destruct a as [|x a].
  { intros H. pose proof (strip_fence_head (c :: r)) as Hh.
    rewrite H in Hh. done. }
  rewrite strip_cons by done.
  destruct (starts_with fence (c :: r)) eqn:E.
  { apply (IH (length (skip_spaces (drop (length fence) (c :: r))))); [|done].
    eapply Nat.le_lt_trans; [apply skip_spaces_length|].
    simpl. rewrite length_drop. lia. }
  intros [= _ H]. revert H. apply (IH (length r)); [simpl; lia|done].
Qed.

Lemma trim_infix l : ∃ k k', l = k ++ trim l ++ k'.
Proof.
  unfold trim.
  destruct (skip_spaces_suffix l) as [k Hk].
  destruct (skip_spaces_suffix (reverse (skip_spaces l))) as [k' Hk'].
  exists k, (reverse k').
  rewrite <- reverse_app, <- Hk', reverse_involutive. done.
Qed.

Lemma trim_head l c : head (trim l) = Some c → is_space c = false.
Proof.
  unfold trim.
  destruct (skip_spaces_suffix (reverse (skip_spaces l))) as [k Hk].
  apply (f_equal reverse) in Hk.
  rewrite reverse_involutive, reverse_app in Hk.
  set (u := reverse (skip_spaces (reverse (skip_spaces l)))) in *.
  intros Hu. apply (skip_spaces_head l). rewrite Hk.
  destruct u; [done|]. done.
Qed.

Lemma trim_last l c : last (trim l) = Some c → is_space c = false.
Proof.
  unfold trim. rewrite last_reverse. apply skip_spaces_head.
Qed.

Lemma trim_fixed l :
  (∀ c, head l = Some c → is_space c = false) →
  (∀ c, last l = Some c → is_space c = false) →
  trim l = l.
Proof.
  intros Hh Hl. unfold trim. rewrite (skip_spaces_fixed l) by done.
  rewrite skip_spaces_fixed; [apply reverse_involutive|].
  intros c. rewrite head_reverse. apply Hl.
Qed.

Lemma strip_absent pat l :
  pat ≠ [] → (∀ a b, l ≠ a ++ pat ++ b) → strip pat l = l.
Proof.
  intros Hp. induction l as [|c r IH]; intros Hl; [done|].
  rewrite strip_cons by done.
  destruct (starts_with pat (c :: r)) eqn:E.
  { apply starts_with_prefix in E as [b E]. by destruct (Hl [] b). }
  f_equal. apply IH. intros a b ->. by destruct (Hl (c :: a) b).
Qed.

Lemma strip_plain pat body rest :
  head pat = Some backtick → backtick ∉ body →
  strip pat (body ++ rest) = body ++ strip pat rest.
Proof.
  destruct pat as [|p pat']; [done|]. intros [= ->].
  induction body as [|c b IH]; intros Hb; [done|].
  simpl. rewrite strip_cons by done. simpl.
  destruct (N.eqb_spec backtick c) as [<-|]; [by destruct Hb; left|].
  simpl. f_equal. apply IH. intros ?. apply Hb. by right.
Qed.

Lemma spaces_plain ws :
  Forall (λ c, is_space c = true) ws → backtick ∉ ws.
Proof.
  intros H Hin. rewrite Forall_forall in H. by specialize (H _ Hin).
Qed.

Lemma cleanJson_no_fence (t : option text) a b : cleanJson t ≠ a ++ fence ++ b.
Proof.
  destruct t as [[|c0 l]|]; try by destruct a.
  unfold cleanJson. intros H.
  destruct (trim_infix (strip fence (strip fence_json (c0 :: l)))) as (k & k' & Hk).
  rewrite H in Hk.
  apply (strip_fence_clean (strip fence_json (c0 :: l)) (k ++ a) (b ++ k')).
  rewrite Hk. by rewrite <- !app_assoc.
Qed.

Lemma cleanJson_trimmed (t : option text) :
  (∀ c, head (cleanJson t) = Some c → is_space c = false)
  ∧ (∀ c, last (cleanJson t) = Some c → is_space c = false).
Proof.
  destruct t as [[|c0 l]|]; try done.
  unfold cleanJson. split; [apply trim_head|apply trim_last].
Qed.

(** X22: What [cleanJson] returns holds no code fence (three backticks in a row)
    and neither begins nor ends with white space. *)
Theorem cleanJson_leaves_no_fence (t : option text) :
  (∀ a b, cleanJson t ≠ a ++ fence ++ b)
  ∧ (∀ c, head (cleanJson t) = Some c → is_space c = false)
  ∧ (∀ c, last (cleanJson t) = Some c → is_space c = false).
Proof.
  split.
  - intros a b. apply cleanJson_no_fence.
  - apply cleanJson_trimmed.
Qed.

(** X23: [cleanJson] does nothing to a text it has returned. *)
Theorem cleanJson_idempotent (t : option text) :
  cleanJson (Some (cleanJson t)) = cleanJson t.
Proof.
  pose proof (cleanJson_no_fence t) as Hf.
  destruct (cleanJson_trimmed t) as [Hh Hl].
  destruct (cleanJson t) as [|c l] eqn:E; [done|].
  unfold cleanJson at 1.
  rewrite (strip_absent fence_json); [|done|].
  2:{ intros a b H. apply (Hf a ([106; 115; 111; 110]%N ++ b)).
      rewrite H. unfold fence_json. by rewrite <- !app_assoc. }
  rewrite (strip_absent fence) by done.
  by apply trim_fixed.
Qed.

Lemma trim_trailing body ws :
  (∀ c, head body = Some c → is_space c = false) →
  (∀ c, last body = Some c → is_space c = false) →
  Forall (λ c, is_space c = true) ws →
  trim (body ++ ws) = body.
Proof.
  intros Hh Hl Hws. unfold trim.
  destruct body as [|c body'].
  { simpl. rewrite <- (app_nil_r ws), skip_spaces_all by done. done. }
  rewrite (skip_spaces_fixed ((c :: body') ++ ws)) by (simpl; auto).
  rewrite reverse_app, skip_spaces_all by by apply Forall_reverse.
  rewrite skip_spaces_fixed; [apply reverse_involutive|].
  intros x. rewrite head_reverse. apply Hl.
Qed.

(** X24: A fenced answer is unwrapped: of a text made of three backticks and
    [json], white space, a body, white space, three backticks and white
    space, where the body holds no backtick and neither begins nor ends with
    white space, [cleanJson] returns the body. *)
Theorem cleanJson_unwraps_fenced (body ws1 ws2 ws3 : text) :
  backtick ∉ body →
  (∀ c, head body = Some c → is_space c = false) →
  (∀ c, last body = Some c → is_space c = false) →
  Forall (λ c, is_space c = true) ws1 →
  Forall (λ c, is_space c = true) ws2 →
  Forall (λ c, is_space c = true) ws3 →
  cleanJson (Some (fence_json ++ ws1 ++ body ++ ws2 ++ fence ++ ws3)) = body.
Proof.
  intros Hb Hh Hl H1 H2 H3.
  assert (Hs3 : skip_spaces ws3 = []).
  { rewrite <- (app_nil_r ws3). by rewrite skip_spaces_all. }
  assert (Hrest : ∀ pat, head pat = Some backtick → strip pat ws3 = ws3).
  { intros pat Hp. rewrite <- (app_nil_r ws3) at 1.
    rewrite strip_plain by (try done; by apply spaces_plain).
    by rewrite strip_nil, app_nil_r. }
  assert (Hw : ∀ w ws, ws3 = w :: ws → backtick ≠ w ∧ 106%N ≠ w).
  { intros w ws ->. apply Forall_cons in H3 as [Hw _].
    split; intros <-; done. }
  assert (Hf : strip fence_json (fence ++ ws3) = fence ++ ws3).
  { pose proof (Hrest fence_json eq_refl) as Hrj.
    unfold fence. simpl.
    rewrite !strip_no_match, Hrj; try done;
      destruct ws3 as [|w ws]; simpl; try done;
      destruct (Hw w ws eq_refl) as [? ?];
      by rewrite (proj2 (N.eqb_neq _ w)). }
  assert (Hg : strip fence (fence ++ ws3) = []).
  { unfold fence at 2. simpl. rewrite strip_cons by done. simpl.
    rewrite ?N.eqb_refl. simpl. by rewrite drop_0, Hs3. }
  assert (Hfirst : cleanJson (Some (fence_json ++ ws1 ++ body ++ ws2 ++ fence ++ ws3))
                   = trim (strip fence (strip fence_json
                       (skip_spaces (body ++ ws2 ++ fence ++ ws3))))).
  { unfold fence_json at 1, fence at 1. simpl.
    rewrite strip_cons by done. simpl. rewrite ?N.eqb_refl. simpl.
    by rewrite drop_0, skip_spaces_all. }
  rewrite Hfirst. destruct body as [|c body'].
  - rewrite app_nil_l, skip_spaces_all by done.
    rewrite (skip_spaces_fixed (fence ++ ws3)) by (by intros ? [= <-]).
    by rewrite Hf, Hg.
  - rewrite (skip_spaces_fixed ((c :: body') ++ _)) by (simpl; auto).
    rewrite (app_assoc (c :: body')).
    assert (Hmid : backtick ∉ (c :: body') ++ ws2).
    { rewrite elem_of_app. intros [?|?]; [done|]. by apply (spaces_plain ws2). }
    rewrite (strip_plain fence_json) by done. rewrite Hf.
    rewrite (strip_plain fence) by done.
    rewrite Hg, app_nil_r.
    by apply trim_trailing.
Qed.

Lemma cleanJson_unwraps_fenced_witness :
  cleanJson (Some (fence_json ++ [10]%N ++ sample_body ++ [10]%N ++ fence ++ []))
  = sample_body.
Proof.
  apply (cleanJson_unwraps_fenced sample_body [10]%N [10]%N []).
  - apply (bool_decide_unpack _). vm_compute. exact I.
  - intros c [= <-]. reflexivity.
  - intros c [= <-]. reflexivity.
  - repeat constructor.
  - repeat constructor.
  - constructor.
Defined.


(** ** Lesson ids *)

Lemma handleConfirmExpand_positional c r c' :
  handleConfirmExpand c r = Some c' →
  positional (Course.modules c) → positional (Course.modules c').
Proof.
  intros E Hpos.
  destruct (handleConfirmExpand_inv _ _ _ E) as (new & Hexp & ->). simpl.
  intros m l y.
  destruct (decide (m < length (Course.modules c))) as [Hlt|Hge].
  { rewrite expanded_old_lesson by done. apply Hpos. }
  unfold lesson_at. rewrite lookup_app_r by lia. intros Hy.
  destruct (expandCourse_raw _ _ _ Hexp) as [raw Hraw].
  destruct (generated_lessons _ _ _ _ Hraw (m - length (Course.modules c)) l y Hy)
    as (Hid & _).
  rewrite Hid. f_equal. lia.
Qed.

Lemma expand_all_positional rs : ∀ c,
  positional (Course.modules c) → positional (Course.modules (expand_all c rs)).
Proof.
  unfold expand_all. induction rs as [|r rs IH]; intros c Hc; simpl; [done|].
  apply IH. destruct (handleConfirmExpand c r) as [c'|] eqn:E; simpl; [|done].
  by eapply handleConfirmExpand_positional.
Qed.

(** X21: In a course made from a roadmap and expanded any number of times, no
    two lessons have the same id: the id of a lesson tells its module and
    its place in the module.  (The lesson effect of the view is keyed on
    this id.) *)
Theorem lesson_ids_are_distinct (r : Response) (ms : list Mod.t)
    (id topic : string) (createdAt : nat) (rs : list Response)
    (m l m' l' : nat) (x y : Lesson.t) :
  generateRoadmap r = Ok ms →
  lesson_at (Course.modules (expand_all (Course.mk id topic ms 0 0 createdAt) rs))
    m l = Some x →
  lesson_at (Course.modules (expand_all (Course.mk id topic ms 0 0 createdAt) rs))
    m' l' = Some y →
  Lesson.id x = Lesson.id y →
  m = m' ∧ l = l'.
Proof.
  intros E Hx Hy Hid.
  destruct (generateRoadmap_positional _ _ E) as [Hpos _].
  pose proof (expand_all_positional rs (Course.mk id topic ms 0 0 createdAt) Hpos)
    as Hpos'.
  apply lesson_id_inj. by rewrite <- (Hpos' _ _ _ Hx), <- (Hpos' _ _ _ Hy).
Qed.

Lemma lesson_ids_are_distinct_witness :
  generateRoadmap sample_roadmap = Ok sample_modules ∧ (1 = 1 ∧ 0 = 0).
Proof.
  split; [reflexivity|].
  apply (lesson_ids_are_distinct sample_roadmap sample_modules "course-1"
           "Linear Algebra" 1 [sample_expansion; sample_bad_roadmap] 1 0 1 0
           (Lesson.mk "mod-1-less-0" (Some (JStr "Eigenvalues")) (Some (JStr ""))
              locked None None None None None)
           (Lesson.mk "mod-1-less-0" (Some (JStr "Eigenvalues")) (Some (JStr ""))
              locked None None None None None));
    reflexivity.
Defined.

(** ** The states of the application *)

Lemma app_inv_step app e : app_inv app → app_inv (app_step app e).
Proof.
  intros [Hst Hl].
  assert (Hp : PROFILE ∈ [INITIAL; CLARIFYING; GENERATING; LEARNING; PROFILE])
    by (do 4 right; left).
  assert (Hi : INITIAL ∈ [INITIAL; CLARIFYING; GENERATING; LEARNING; PROFILE]) by left.
  assert (Hle : LEARNING ∈ [INITIAL; CLARIFYING; GENERATING; LEARNING; PROFILE])
    by (do 3 right; left).
  destruct e as [blank qs|t|a r n1 n2|updated|id|i| |tab]; simpl.
  - unfold handleStartTopic. case_match; [done|]. split; [by right; left|done].
  - done.
  - unfold handleClarificationAnswer. destruct (Nat.leb _ _); [|done].
    destruct (generateRoadmap r); split; simpl; eauto; done.
  - done.
  - unfold handleDeleteCourse. case_decide; [|done]. split; simpl; done.
  - destruct (App.courses app !! i); [|done]. split; simpl; eauto.
  - split; simpl; done.
  - by destruct tab.
Qed.

(** X8: From the start of the application on, whatever happens, the
    application is never in the state CREATIVE (no handler enters it: the
    tab of the creative tools leaves the state as it is), and in the state
    LEARNING there is an active course to show. *)
Theorem learning_state_shows_a_course (es : list AppEvent) :
  App.appState (app_run app_initial es) ∈ [INITIAL; CLARIFYING; GENERATING; LEARNING; PROFILE]
  ∧ (App.appState (app_run app_initial es) = LEARNING →
     is_Some (activeCourse (app_run app_initial es))).
Proof.
  assert (∀ app, app_inv app ∧ active_valid app →
                 app_inv (app_run app es) ∧ active_valid (app_run app es)) as H.
  { unfold app_run. induction es as [|e es IH]; intros app [Hi Hv]; simpl; [done|].
    apply IH. split; [by apply app_inv_step|by apply active_valid_step]. }
  destruct (H app_initial) as [[Hst Hl] Hv].
  { split; [split; [by left|done]|by left]. }
  split; [done|]. intros Hlearn. destruct (Hl Hlearn) as [i Hi].
  destruct Hv as [Hv|Hv]; [congruence|done].
Qed.


(** ** Shared lesson objects and late answers *)

(** On the sample course the store reads as the course the handlers of the
    view build. *)
Example shared_course_reads_alike :
  Shared.read (Shared.objects sample_world) (Shared.current sample_world)
  = UI.course sample_mounted
  ∧ (∀ c1 c2,
       submitQuiz (UI.course sample_mounted) = Ok c1 →
       moveToNextLesson c1 = Ok (Some c2) →
       Shared.read
         (Shared.objects
            (Shared.run sample_world [Shared.ClickSubmit; Shared.ClickNext]))
         (Shared.current
            (Shared.run sample_world [Shared.ClickSubmit; Shared.ClickNext]))
       = c2).
Proof.
  split; [reflexivity|]. intros c1 c2. vm_compute. by intros [= <-] [= <-].
Qed.

Lemma keeps_refl σ : keeps σ σ.
Proof. intros r x Hx. eauto. Qed.

Lemma keeps_trans σ1 σ2 σ3 : keeps σ1 σ2 → keeps σ2 σ3 → keeps σ1 σ3.
Proof.
  intros H12 H23 r x Hx.
  destruct (H12 _ _ Hx) as (x2 & Hx2 & Hid2 & Hst2).
  destruct (H23 _ _ Hx2) as (x3 & Hx3 & Hid3 & Hst3).
  exists x3. split; [done|]. split; [congruence|auto].
Qed.

Lemma keeps_alter (f : Lesson.t → Lesson.t) r0 σ :
  (∀ x, Lesson.id (f x) = Lesson.id x
        ∧ (Lesson.status x ≠ locked → Lesson.status (f x) ≠ locked)) →
  keeps σ (alter f r0 σ).
Proof.
  intros Hf r x Hx. rewrite list_lookup_alter.
  destruct (decide (r0 = r)) as [->|]; rewrite Hx; simpl; [|eauto].
  exists (f x). split; [done|]. apply Hf.
Qed.

Lemma keeps_assign f c m l σ σ' :
  (∀ x, Lesson.id (f x) = Lesson.id x
        ∧ (Lesson.status x ≠ locked → Lesson.status (f x) ≠ locked)) →
  Shared.assign f c m l σ = Ok σ' → keeps σ σ'.
Proof.
  intros Hf. unfold Shared.assign.
  destruct (Shared.ref_at c m l) as [r0|]; [|done].
  destruct (σ !! r0); [|done]. intros [= <-]. by apply keeps_alter.
Qed.

Lemma alloc_prefix ms : ∀ σ σ' mds,
  Shared.alloc σ ms = (σ', mds) → ∃ new, σ' = σ ++ new.
Proof.
  induction ms as [|md ms IH]; intros σ σ' mds; simpl.
  - intros [= <- _]. exists []. by rewrite app_nil_r.
  - destruct (Shared.alloc (σ ++ Mod.lessons md) ms) as [σ1 mds1] eqn:E.
    intros [= <- _]. destruct (IH _ _ _ E) as [new ->].
    exists (Mod.lessons md ++ new). by rewrite app_assoc.
Qed.

Lemma keeps_app σ new : keeps σ (σ ++ new).
Proof.
  intros r x Hx. exists x. split; [|done]. by apply lookup_app_l_Some.
Qed.

Lemma keeps_write_back w k res :
  (∀ σ' c', res = Some (σ', c') → keeps (Shared.objects w) σ') →
  keeps (Shared.objects w) (Shared.objects (Shared.write_back w k res)).
Proof.
  intros H. destruct res as [[σ' c']|]; simpl; [by eapply H|apply keeps_refl].
Qed.

Lemma keeps_step w a : keeps (Shared.objects w) (Shared.objects (Shared.step w a)).
Proof.
  destruct a as [m l| | | | | | | | |k a]; simpl.
  - destruct (Shared.handleLessonSelect _ _ _ _) as [[c'|]|]; apply keeps_refl.
  - destruct (Shared.markLessonCompleted _ _) as [σ'|] eqn:E; [|apply keeps_refl].
    simpl. eapply keeps_assign; [|exact E]. by intros x.
  - destruct (Shared.submitQuiz _ _) as [σ'|] eqn:E; [|apply keeps_refl].
    simpl. unfold Shared.submitQuiz in E.
    destruct (Shared.assign _ _ _ _ (Shared.objects w)) as [σ1|] eqn:E1; [|done].
    simpl in E. destruct (Shared.next_position _) as [next|]; [|done].
    simpl in E.
    assert (keeps (Shared.objects w) σ1) as H1
      by (eapply keeps_assign; [|exact E1]; by intros x).
    destruct (Shared.ref_at _ _ _).
    + eapply keeps_trans; [exact H1|].
      eapply keeps_assign; [|exact E]. by intros x.
    + by injection E as <-.
  - destruct (Shared.moveToNextLesson _) as [[c'|]|]; apply keeps_refl.
  - destruct (Shared.activeLesson _ _); apply keeps_refl.
  - repeat case_match; apply keeps_refl.
  - apply keeps_refl.
  - apply keeps_refl.
  - destruct (Shared.expandDialogCourse w); apply keeps_refl.
  - destruct (Shared.pending w !! k) as [[[c|c|c|c]|]|]; destruct a;
      try apply keeps_refl.
    + apply keeps_write_back; intros σ' c'.
      unfold Shared.handleGenerateVideo. destruct video; [|done].
      destruct (Shared.assign _ _ _ _ _) eqn:E; [|done]. intros [= <- _].
      eapply keeps_assign; [|exact E]. by intros x.
    + apply keeps_write_back; intros σ' c'.
      unfold Shared.illustration_arrived. destruct (truthy_str img); [|done].
      destruct (Shared.assign _ _ _ _ _) eqn:E; [|done]. intros [= <- _].
      eapply keeps_assign; [|exact E]. by intros x.
    + apply keeps_write_back; intros σ' c'.
      unfold Shared.lesson_arrived.
      destruct (Shared.assign _ _ _ _ _) eqn:E; [|done]. intros [= <- _].
      eapply keeps_assign; [|exact E]. by intros x.
    + destruct (Shared.handleConfirmExpand _ _ _) as [[σ' c']|] eqn:E;
        simpl; [|apply keeps_refl].
      unfold Shared.handleConfirmExpand in E.
      destruct (expandCourse _ _); [|done].
      destruct (Shared.alloc _ _) as [σ1 mds] eqn:E1. injection E as <- _.
      destruct (alloc_prefix _ _ _ _ E1) as [new ->]. apply keeps_app.
Qed.

Lemma keeps_run acts : ∀ w,
  keeps (Shared.objects w) (Shared.objects (Shared.run w acts)).
Proof.
  unfold Shared.run. induction acts as [|a acts IH]; intros w; simpl.
  - apply keeps_refl.
  - eapply keeps_trans; [apply keeps_step|apply IH].
Qed.

(** A request that is not answered stays where it is. *)
Lemma leaves_step w a k p :
  Shared.leaves k a →
  Shared.pending w !! k = Some (Some p) →
  Shared.pending (Shared.step w a) !! k = Some (Some p).
Proof.
  intros Ha Hk.
  assert (Hsend : ∀ q, Shared.pending (Shared.send q w) !! k = Some (Some p))
    by (intros q; simpl; by apply lookup_app_l_Some).
  assert (Hwb : ∀ k' res, k' ≠ k →
            Shared.pending (Shared.write_back w k' res) !! k = Some (Some p)).
  { intros k' [[σ' c']|] Hne; simpl; by rewrite list_lookup_insert_ne. }
  destruct a as [m l| | | | | | | | |k' a]; simpl; try done.
  - by destruct (Shared.handleLessonSelect _ _ _ _) as [[c'|]|].
  - by destruct (Shared.markLessonCompleted _ _).
  - by destruct (Shared.submitQuiz _ _).
  - by destruct (Shared.moveToNextLesson _) as [[c'|]|].
  - destruct (Shared.activeLesson _ _); [apply Hsend|done].
  - repeat case_match; try done; apply Hsend.
  - destruct (Shared.expandDialogCourse w); [apply Hsend|done].
  - simpl in Ha.
    destruct (Shared.pending w !! k') as [[[c|c|c|c]|]|]; destruct a;
      try done; try by apply Hwb.
    destruct (Shared.handleConfirmExpand _ _ _) as [res|];
      [exact (Hwb k' (Some res) Ha)|exact (Hwb k' None Ha)].
Qed.

Lemma leaves_run k p acts : ∀ w,
  Forall (Shared.leaves k) acts →
  Shared.pending w !! k = Some (Some p) →
  Shared.pending (Shared.run w acts) !! k = Some (Some p).
Proof.
  unfold Shared.run. induction acts as [|a acts IH]; intros w Hacts Hk; simpl;
    [done|].
  inversion Hacts; subst. apply IH; [done|]. by apply leaves_step.
Qed.

(** X20: Whatever is clicked and whatever the requests that were sent are
    answered, in whatever order, a lesson object that is not locked is not
    locked again, and stays the lesson it is: the view only ever assigns
    [completed] and [unlocked], and a new module gets lessons of its own. *)
Theorem open_lesson_object_is_never_locked_again (w : Shared.world)
    (acts : list Shared.Act) (r : nat) (x : Lesson.t) :
  Shared.objects w !! r = Some x →
  Lesson.status x ≠ locked →
  ∃ x', Shared.objects (Shared.run w acts) !! r = Some x'
      ∧ Lesson.id x' = Lesson.id x
      ∧ Lesson.status x' ≠ locked.
Proof.
  intros Hx Hst. destruct (keeps_run acts w r x Hx) as (x' & Hx' & Hid & Hs).
  exists x'. auto.
Qed.

Lemma open_lesson_object_is_never_locked_again_witness :
  ∃ x', Shared.objects
          (Shared.run sample_world
             [Shared.ClickVideo; Shared.ClickSubmit; Shared.OpenExpandDialog;
              Shared.ConfirmExpand; Shared.ClickNext; Shared.RunEffect;
              Shared.Answered 1 (Shared.ExpansionAnswer sample_expansion);
              Shared.ClickSubmit;
              Shared.Answered 0 (Shared.VideoAnswer (Some "blob:video"));
              Shared.Answered 2
                (Shared.LessonAnswer "# Bases" [] [] None)])
          !! 1 = Some x'
      ∧ Lesson.id x' = Lesson.id sample_locked_lesson
      ∧ Lesson.status x' ≠ locked.
Proof.
  assert (H : Shared.objects
                (Shared.run sample_world [Shared.ClickVideo; Shared.ClickSubmit])
              !! 1 = Some (Lesson.set_status unlocked sample_locked_lesson))
    by reflexivity.
  apply (open_lesson_object_is_never_locked_again
           (Shared.run sample_world [Shared.ClickVideo; Shared.ClickSubmit])
           [Shared.OpenExpandDialog;
            Shared.ConfirmExpand; Shared.ClickNext; Shared.RunEffect;
            Shared.Answered 1 (Shared.ExpansionAnswer sample_expansion);
            Shared.ClickSubmit;
            Shared.Answered 0 (Shared.VideoAnswer (Some "blob:video"));
            Shared.Answered 2 (Shared.LessonAnswer "# Bases" [] [] None)]
           1 (Lesson.set_status unlocked sample_locked_lesson) H).
  done.
Defined.

(** The object stays, the place in the course need not: a video that is
    answered late hands [updateCourse] the module list of the click.  Here
    the course is expanded and worked through up to the first new module
    while the video is made; when the video arrives the lesson that was
    opened there is still unlocked, and no module of the course has it. *)
Example open_lesson_can_leave_course :
  ∃ w x,
    w = Shared.run sample_world
          [Shared.ClickVideo; Shared.OpenExpandDialog; Shared.ConfirmExpand;
           Shared.Answered 1 (Shared.ExpansionAnswer sample_expansion);
           Shared.ClickSubmit; Shared.ClickNext;
           Shared.ClickSubmit; Shared.ClickNext]
    ∧ Shared.ref_at (Shared.current w) 1 0 = Some 2
    ∧ Shared.activeLesson (Shared.objects w) (Shared.current w) = Some x
    ∧ Lesson.status x = unlocked
    ∧ Shared.objects
        (Shared.step w (Shared.Answered 0 (Shared.VideoAnswer (Some "blob:video"))))
        !! 2 = Some x
    ∧ ∀ md, md ∈ Shared.modules
                   (Shared.current
                      (Shared.step w
                         (Shared.Answered 0
                            (Shared.VideoAnswer (Some "blob:video"))))) →
            2 ∉ Shared.lessons md.
Proof.
  eexists _, _. split; [reflexivity|]. vm_compute.
  repeat split; try reflexivity.
  intros md Hmd. apply list_elem_of_singleton in Hmd as ->. simpl.
  intros H. repeat (apply elem_of_cons in H as [H|H]; [done|]).
  by apply elem_of_nil in H.
Qed.

(** X16: The video is written back into the course of the click.  When the
    button is clicked on a lesson and the video arrives, whatever was
    clicked and answered in between, it is stored on the lesson object that
    was current at the click, every other object is as it was left, and
    the course handed to [updateCourse] is the course of the click, with
    its current position and its module list.  A request that fails writes
    nothing. *)
Theorem late_video_restores_course_of_click (w : Shared.world)
    (acts : list Shared.Act) (videoUrl : string) (x : Lesson.t) :
  Shared.activeLesson (Shared.objects w) (Shared.current w) = Some x →
  Forall (Shared.leaves (length (Shared.pending w))) acts →
  ∃ r,
    Shared.ref_at (Shared.current w)
      (Shared.currentModuleIndex (Shared.current w))
      (Shared.currentLessonIndex (Shared.current w)) = Some r
    ∧ Shared.step (Shared.run (Shared.step w Shared.ClickVideo) acts)
        (Shared.Answered (length (Shared.pending w))
           (Shared.VideoAnswer (Some videoUrl)))
      = Shared.mk_world
          (alter (set_videoUrl (Some videoUrl)) r
             (Shared.objects (Shared.run (Shared.step w Shared.ClickVideo) acts)))
          (Shared.current w)
          (Shared.expandDialogCourse
             (Shared.run (Shared.step w Shared.ClickVideo) acts))
          (<[length (Shared.pending w) := None]>
             (Shared.pending (Shared.run (Shared.step w Shared.ClickVideo) acts)))
    ∧ Shared.step (Shared.run (Shared.step w Shared.ClickVideo) acts)
        (Shared.Answered (length (Shared.pending w)) (Shared.VideoAnswer None))
      = Shared.mk_world
          (Shared.objects (Shared.run (Shared.step w Shared.ClickVideo) acts))
          (Shared.current (Shared.run (Shared.step w Shared.ClickVideo) acts))
          (Shared.expandDialogCourse
             (Shared.run (Shared.step w Shared.ClickVideo) acts))
          (<[length (Shared.pending w) := None]>
             (Shared.pending (Shared.run (Shared.step w Shared.ClickVideo) acts))).
Proof.
  intros Hx Hacts. simpl. rewrite Hx.
  set (w0 := Shared.send (Shared.AwaitVideo (Shared.current w)) w).
  assert (Hk : Shared.pending (Shared.run w0 acts) !! length (Shared.pending w)
               = Some (Some (Shared.AwaitVideo (Shared.current w)))).
  { apply leaves_run; [done|]. simpl.
    by rewrite lookup_app_r, Nat.sub_diag by lia. }
  unfold Shared.activeLesson, Shared.lesson_of in Hx.
  destruct (Shared.ref_at _ _ _) as [r|] eqn:Er; [|done]. simpl in Hx.
  exists r. split; [done|].
  rewrite Hk. unfold Shared.handleGenerateVideo, Shared.assign. rewrite Er.
  destruct (keeps_run acts w0 r x Hx) as (y & Hy & _).
  by rewrite Hy.
Qed.

Lemma late_video_restores_course_of_click_witness :
  (Shared.currentLessonIndex
     (Shared.current
        (Shared.run (Shared.step sample_world Shared.ClickVideo)
           [Shared.ClickSubmit; Shared.ClickNext; Shared.RunEffect;
            Shared.OpenExpandDialog; Shared.ConfirmExpand;
            Shared.Answered 2 (Shared.ExpansionAnswer sample_expansion)])) = 1
   ∧ length
       (Shared.modules
          (Shared.current
             (Shared.run (Shared.step sample_world Shared.ClickVideo)
                [Shared.ClickSubmit; Shared.ClickNext; Shared.RunEffect;
                 Shared.OpenExpandDialog; Shared.ConfirmExpand;
                 Shared.Answered 2 (Shared.ExpansionAnswer sample_expansion)])))
     = 3
   ∧ Shared.currentLessonIndex (Shared.current sample_world) = 0
   ∧ length (Shared.modules (Shared.current sample_world)) = 1)
  ∧ ∃ r,
      Shared.ref_at (Shared.current sample_world)
        (Shared.currentModuleIndex (Shared.current sample_world))
        (Shared.currentLessonIndex (Shared.current sample_world)) = Some r
      ∧ Shared.step
          (Shared.run (Shared.step sample_world Shared.ClickVideo)
             [Shared.ClickSubmit; Shared.ClickNext; Shared.RunEffect;
              Shared.OpenExpandDialog; Shared.ConfirmExpand;
              Shared.Answered 2 (Shared.ExpansionAnswer sample_expansion)])
          (Shared.Answered (length (Shared.pending sample_world))
             (Shared.VideoAnswer (Some "blob:video")))
        = Shared.mk_world
            (alter (set_videoUrl (Some "blob:video")) r
               (Shared.objects
                  (Shared.run (Shared.step sample_world Shared.ClickVideo)
                     [Shared.ClickSubmit; Shared.ClickNext; Shared.RunEffect;
                      Shared.OpenExpandDialog; Shared.ConfirmExpand;
                      Shared.Answered 2
                        (Shared.ExpansionAnswer sample_expansion)])))
            (Shared.current sample_world)
            (Shared.expandDialogCourse
               (Shared.run (Shared.step sample_world Shared.ClickVideo)
                  [Shared.ClickSubmit; Shared.ClickNext; Shared.RunEffect;
                   Shared.OpenExpandDialog; Shared.ConfirmExpand;
                   Shared.Answered 2
                     (Shared.ExpansionAnswer sample_expansion)]))
            (<[length (Shared.pending sample_world) := None]>
               (Shared.pending
                  (Shared.run (Shared.step sample_world Shared.ClickVideo)
                     [Shared.ClickSubmit; Shared.ClickNext; Shared.RunEffect;
                      Shared.OpenExpandDialog; Shared.ConfirmExpand;
                      Shared.Answered 2
                        (Shared.ExpansionAnswer sample_expansion)])))
      ∧ Shared.step
          (Shared.run (Shared.step sample_world Shared.ClickVideo)
             [Shared.ClickSubmit; Shared.ClickNext; Shared.RunEffect;
              Shared.OpenExpandDialog; Shared.ConfirmExpand;
              Shared.Answered 2 (Shared.ExpansionAnswer sample_expansion)])
          (Shared.Answered (length (Shared.pending sample_world))
             (Shared.VideoAnswer None))
        = Shared.mk_world
            (Shared.objects
               (Shared.run (Shared.step sample_world Shared.ClickVideo)
                  [Shared.ClickSubmit; Shared.ClickNext; Shared.RunEffect;
                   Shared.OpenExpandDialog; Shared.ConfirmExpand;
                   Shared.Answered 2
                     (Shared.ExpansionAnswer sample_expansion)]))
            (Shared.current
               (Shared.run (Shared.step sample_world Shared.ClickVideo)
                  [Shared.ClickSubmit; Shared.ClickNext; Shared.RunEffect;
                   Shared.OpenExpandDialog; Shared.ConfirmExpand;
                   Shared.Answered 2
                     (Shared.ExpansionAnswer sample_expansion)]))
            (Shared.expandDialogCourse
               (Shared.run (Shared.step sample_world Shared.ClickVideo)
                  [Shared.ClickSubmit; Shared.ClickNext; Shared.RunEffect;
                   Shared.OpenExpandDialog; Shared.ConfirmExpand;
                   Shared.Answered 2
                     (Shared.ExpansionAnswer sample_expansion)]))
            (<[length (Shared.pending sample_world) := None]>
               (Shared.pending
                  (Shared.run (Shared.step sample_world Shared.ClickVideo)
                     [Shared.ClickSubmit; Shared.ClickNext; Shared.RunEffect;
                      Shared.OpenExpandDialog; Shared.ConfirmExpand;
                      Shared.Answered 2
                        (Shared.ExpansionAnswer sample_expansion)]))).
Proof.
  split; [repeat split; reflexivity|].
  apply (late_video_restores_course_of_click sample_world
           [Shared.ClickSubmit; Shared.ClickNext; Shared.RunEffect;
            Shared.OpenExpandDialog; Shared.ConfirmExpand;
            Shared.Answered 2 (Shared.ExpansionAnswer sample_expansion)]
           "blob:video" sample_loaded_lesson); [reflexivity|].
  repeat (constructor; [by simpl|]). constructor.
Defined.

Lemma keeps_length σ σ' : keeps σ σ' → length σ ≤ length σ'.
Proof.
  intros H. destruct (decide (length σ ≤ length σ')) as [|Hn]; [done|].
  destruct (lookup_lt_is_Some_2 σ (length σ')) as [x Hx]; [lia|].
  destruct (H _ _ Hx) as (x' & Hx' & _).
  apply lookup_lt_Some in Hx'. lia.
Qed.

Lemma sound_mono σ σ' c : length σ ≤ length σ' → sound σ c → sound σ' c.
Proof.
  intros Hle [Hms Hcur]. split; [|done].
  eapply Forall_impl; [exact Hms|]. intros md [Hne Hr]. split; [done|].
  eapply Forall_impl; [exact Hr|]. simpl. lia.
Qed.

Lemma sound_set_current σ c m l :
  sound σ c → is_Some (Shared.ref_at c m l) →
  sound σ (Shared.set_current m l c).
Proof. intros [Hms _] H. by split. Qed.

Lemma sound_next σ c next :
  sound σ c →
  Shared.next_position c = Ok next →
  next.1 < length (Shared.modules c) →
  is_Some (Shared.ref_at c next.1 next.2).
Proof.
  intros [Hms _]. unfold Shared.next_position, Shared.ref_at.
  destruct (Shared.modules c !! Shared.currentModuleIndex c) as [md|] eqn:Emd;
    [|done].
  destruct (Nat.leb_spec (length (Shared.lessons md))
              (Shared.currentLessonIndex c + 1)) as [Hle|Hlt];
    intros [= <-]; simpl.
  - intros Hm. destruct (lookup_lt_is_Some_2 _ _ Hm) as [md' Emd'].
    rewrite Emd'. simpl.
    destruct (Forall_lookup_1 _ _ _ _ Hms Emd') as [Hne _].
    destruct (Shared.lessons md'); [done|]. by eexists.
  - intros _. rewrite Emd. simpl. by apply lookup_lt_is_Some_2.
Qed.

Lemma alloc_sound ms : ∀ σ σ' mds,
  populated ms →
  Shared.alloc σ ms = (σ', mds) →
  Forall (λ md, Shared.lessons md ≠ []
                ∧ Forall (λ r, r < length σ') (Shared.lessons md)) mds.
Proof.
  induction ms as [|md ms IH]; intros σ σ' mds Hpop; simpl.
  - intros [= _ <-]. constructor.
  - inversion Hpop as [|? ? Hmd Hrest]; subst.
    destruct (Shared.alloc (σ ++ Mod.lessons md) ms) as [σ1 mds1] eqn:E.
    intros [= <- <-].
    destruct (alloc_prefix _ _ _ _ E) as [new Hnew].
    constructor; [|by eapply IH]. simpl. split.
    + destruct (Mod.lessons md); [simpl in Hmd; lia|done].
    + apply Forall_forall. intros r Hr. apply elem_of_seq in Hr.
      rewrite Hnew, !length_app. lia.
Qed.

Lemma sound_expand σ c r σ' c' :
  sound σ c →
  (∀ c0 ms, expandCourse c0 r = Ok ms → populated ms) →
  Shared.handleConfirmExpand σ c r = Some (σ', c') →
  sound σ' c'.
Proof.
  intros [Hms Hcur] Hpop. unfold Shared.handleConfirmExpand.
  destruct (expandCourse _ _) as [new|] eqn:Ex; [|done].
  destruct (Shared.alloc σ new) as [σ1 mds] eqn:E. intros [= <- <-].
  destruct (alloc_prefix _ _ _ _ E) as [more ->].
  split; simpl.
  - apply Forall_app. split.
    + eapply Forall_impl; [exact Hms|]. intros md [Hne Hr]. split; [done|].
      eapply Forall_impl; [exact Hr|]. simpl. intros x. rewrite length_app. lia.
    + eapply alloc_sound; [|exact E]. by eapply Hpop.
  - destruct Hcur as [r0 Hr0]. exists r0. unfold Shared.ref_at in *. simpl.
    destruct (Shared.modules c !! Shared.currentModuleIndex c) as [md|] eqn:Emd;
      [|done].
    by rewrite (lookup_app_l_Some _ _ _ _ Emd).
Qed.

Lemma all_sound_step w a :
  all_sound w → populated_answer a → all_sound (Shared.step w a).
Proof.
  intros Hw Ha. pose proof Hw as (Hc & Hd & Hp).
  pose proof (keeps_length _ _ (keeps_step w a)) as Hlen.
  assert (Hold : ∀ c, sound (Shared.objects w) c →
                      sound (Shared.objects (Shared.step w a)) c)
    by (intros c; by apply sound_mono).
  assert (Hsend : ∀ p, sound (Shared.objects w) (captured p) →
                       all_sound (Shared.send p w)).
  { intros p Hs. split; [done|]. split; [done|]. simpl. intros k q Hk.
    apply lookup_app_Some in Hk as [Hk|[_ Hk]]; [by eapply Hp|].
    destruct (k - length (Shared.pending w)); [|done].
    by injection Hk as <-. }
  assert (Hset : ∀ k σ' c' d',
            length (Shared.objects w) ≤ length σ' →
            sound σ' c' →
            (∀ c, d' = Some c → sound σ' c) →
            all_sound (Shared.mk_world σ' c' d' (<[k := None]> (Shared.pending w)))).
  { intros k σ' c' d' Hle Hs Hd'. split; [done|]. split; [done|]. simpl.
    intros k' q Hk. eapply sound_mono; [exact Hle|]. apply (Hp k').
    destruct (decide (k = k')) as [->|Hne].
    - destruct (decide (k' < length (Shared.pending w))).
      + by rewrite list_lookup_insert_eq in Hk.
      + by rewrite list_insert_ge in Hk by lia.
    - by rewrite list_lookup_insert_ne in Hk. }
  assert (Hwb : ∀ k σ' c', sound (Shared.objects w) c' →
            keeps (Shared.objects w) σ' →
            all_sound (Shared.write_back w k (Some (σ', c')))).
  { intros k σ' c' Hs Hk. pose proof (keeps_length _ _ Hk) as Hle.
    apply Hset; [done|by eapply sound_mono|].
    intros c E. eapply sound_mono; [exact Hle|by apply Hd]. }
  assert (Hnone : ∀ k, all_sound (Shared.write_back w k None)).
  { intros k. by apply Hset. }
  destruct a as [m l| | | | | | | | |k a].
  - simpl. unfold Shared.handleLessonSelect.
    destruct (Shared.lesson_of _ _ _ _) as [t|] eqn:Et; [|done].
    destruct (decide _); [done|].
    split; [|done]. apply sound_set_current; [done|].
    unfold Shared.lesson_of in Et.
    destruct (Shared.ref_at _ m l); [by eexists|done].
  - pose proof (Hold _ Hc) as Hc'. simpl in Hold, Hc' |- *.
    destruct (Shared.markLessonCompleted _ _); [|done].
    split; [done|]. split; simpl; [intros c E|intros k p E]; apply Hold; eauto.
  - pose proof (Hold _ Hc) as Hc'. simpl in Hold, Hc' |- *.
    destruct (Shared.submitQuiz _ _); [|done].
    split; [done|]. split; simpl; [intros c E|intros k p E]; apply Hold; eauto.
  - simpl. unfold Shared.moveToNextLesson.
    destruct (Shared.next_position _) as [next|] eqn:En; [|done]. simpl.
    destruct (Nat.ltb_spec next.1 (length (Shared.modules (Shared.current w))));
      [|done].
    split; [|done]. apply sound_set_current; [done|]. by eapply sound_next.
  - simpl. destruct (Shared.activeLesson _ _); [by apply Hsend|done].
  - simpl. repeat case_match; try done; by apply Hsend.
  - simpl. split; [done|]. split; [|done]. simpl. by intros c [= <-].
  - simpl. split; [done|]. split; [done|]. done.
  - simpl. destruct (Shared.expandDialogCourse w) as [c|] eqn:Ec; [|done].
    apply Hsend. by apply Hd.
  - simpl.
    destruct (Shared.pending w !! k) as [[[c|c|c|c]|]|] eqn:Ek; destruct a;
      try done; pose proof (Hp _ _ Ek) as Hs; simpl in Hs.
    + unfold Shared.handleGenerateVideo. destruct video; [|apply Hnone].
      destruct (Shared.assign _ _ _ _ _) eqn:E; [|apply Hnone].
      apply Hwb; [done|]. eapply keeps_assign; [|exact E]. by intros x.
    + unfold Shared.illustration_arrived.
      destruct (truthy_str img); [|apply Hnone].
      destruct (Shared.assign _ _ _ _ _) eqn:E; [|apply Hnone].
      apply Hwb; [done|]. eapply keeps_assign; [|exact E]. by intros x.
    + unfold Shared.lesson_arrived.
      destruct (Shared.assign _ _ _ _ _) eqn:E; [|apply Hnone].
      apply Hwb; [done|]. eapply keeps_assign; [|exact E]. by intros x.
    + destruct (Shared.handleConfirmExpand _ _ _) as [[σ' c']|] eqn:E;
        [|apply Hnone].
      simpl in Ha. pose proof (sound_expand _ _ _ _ _ Hs Ha E) as Hs'.
      assert (Hle : length (Shared.objects w) ≤ length σ').
      { unfold Shared.handleConfirmExpand in E.
        destruct (expandCourse _ _); [|done].
        destruct (Shared.alloc _ _) as [σ1 mds] eqn:E1. injection E as <- _.
        destruct (alloc_prefix _ _ _ _ E1) as [new ->]. rewrite length_app. lia. }
      by apply Hset.
Qed.

Lemma all_sound_run acts : ∀ w,
  all_sound w → Forall populated_answer acts → all_sound (Shared.run w acts).
Proof.
  unfold Shared.run. induction acts as [|a acts IH]; intros w Hw Hacts; simpl;
    [done|].
  inversion Hacts; subst. apply IH; [|done]. by apply all_sound_step.
Qed.

(** With late answers too there is a current lesson at all times, in a
    course each of whose modules has a lesson: whatever is clicked and
    answered, in whatever order, when no expansion brings a module
    without lessons. *)
Lemma current_lesson_survives_late_answers (w : Shared.world)
    (acts : list Shared.Act) :
  all_sound w →
  Forall populated_answer acts →
  is_Some (Shared.activeLesson (Shared.objects (Shared.run w acts))
             (Shared.current (Shared.run w acts))).
Proof.
  intros Hw Hacts.
  destruct (all_sound_run acts w Hw Hacts) as [[Hms [r Hr]] _].
  unfold Shared.activeLesson, Shared.lesson_of. rewrite Hr. simpl.
  apply lookup_lt_is_Some_2.
  unfold Shared.ref_at in Hr.
  destruct (Shared.modules _ !! _) as [md|] eqn:Emd; [|done]. simpl in Hr.
  destruct (Forall_lookup_1 _ _ _ _ Hms Emd) as [_ Hlt].
  by apply (Forall_lookup_1 _ _ _ _ Hlt Hr).
Qed.

Example sample_world_sound :
  all_sound sample_world
  ∧ is_Some
      (Shared.activeLesson
         (Shared.objects
            (Shared.run sample_world
               [Shared.ClickVideo; Shared.ClickSubmit; Shared.ClickNext;
                Shared.Answered 0 (Shared.VideoAnswer (Some "blob:video"))]))
         (Shared.current
            (Shared.run sample_world
               [Shared.ClickVideo; Shared.ClickSubmit; Shared.ClickNext;
                Shared.Answered 0 (Shared.VideoAnswer (Some "blob:video"))]))).
Proof.
  assert (H : all_sound sample_world).
  { split; [|split]; [|done|done]. split; [|by eexists].
    repeat (constructor; simpl; try done; try lia). }
  split; [done|].
  apply current_lesson_survives_late_answers; [done|repeat constructor].
Qed.
